(** * markov-chain-bot: the Markov chain builder and text generator

    A shallow embedding of [buildMarkovChain], [generateText],
    [getRandomMarkovOrder] and [analyzeText] of [markov.ts], with the
    JavaScript primitives they rest on, and the properties of the
    design specification proved or refuted on it; then of their callers
    [generatePost] and [main], of [generateText], [generatePost] and
    [main] of the earlier markov.ts, and of [scrollPosts] and
    [getUserPosts] of download_posts.ts, with further properties of the
    code.

    Conventions of the embedding.
    - A JavaScript string is a [string]; each [ascii] stands for one UTF-16
      code unit in the range U+0000..U+00FF, so the strings covered are
      those over these code units.
    - A finite JavaScript number is the rational it denotes ([Q]); sums,
      differences, products and quotients are rounded to binary64 by
      [fl], comparisons are exact.
    - [undefined] in a position where the code expects a string is [None].
    - An object used as a dictionary is the list of its own properties in
      creation order, which is the order [Object.keys] enumerates them
      in; a key that is not an own property is looked up in
      [Object.prototype].
    - [Math.random] is a stream of draws indexed by the number of draws
      already made; [console.log] appends to a list of entries.
    - An [async] function is a function of what it awaits: the answers
      of the server are a stream indexed by the number of requests
      already sent, the disk is the table of its files, and [path.join],
      [parseInt] and [parseFloat] are parameters. *)

From Stdlib Require Import String Ascii List Bool Arith ZArith QArith Qround Qabs Qcanon Lia Lqa.
Import ListNotations.

Local Close Scope Q_scope.
Local Open Scope string_scope.
Local Open Scope list_scope.
Local Open Scope nat_scope.

(** ** JavaScript strings *)

Module JsString.

(** [\s] of a regular expression, which is also what [trim] strips:
    TAB, LF, VT, FF, CR, SPACE and NBSP are the ones below U+0100. *)
Definition isWhitespace (c : ascii) : bool :=
  let n := nat_of_ascii c in
  ((9 <=? n) && (n <=? 13)) || (n =? 32) || (n =? 160).

Definition isUpper (c : ascii) : bool :=
  let n := nat_of_ascii c in (65 <=? n) && (n <=? 90).

Definition isLower (c : ascii) : bool :=
  let n := nat_of_ascii c in (97 <=? n) && (n <=? 122).

Definition isDigit (c : ascii) : bool :=
  let n := nat_of_ascii c in (48 <=? n) && (n <=? 57).

(** The class [[a-zA-Z0-9._-]]. *)
Definition isHandleChar (c : ascii) : bool :=
  isLower c || isUpper c || isDigit c
  || Ascii.eqb c "."%char || Ascii.eqb c "_"%char || Ascii.eqb c "-"%char.

(** The class [[.!?]]. *)
Definition isSentenceEnd (c : ascii) : bool :=
  Ascii.eqb c "."%char || Ascii.eqb c "!"%char || Ascii.eqb c "?"%char.

(** [s.toLowerCase()]: A-Z, and the Latin-1 capitals U+00C0..U+00DE
    except the multiplication sign U+00D7, move up by 32. *)
Definition lowerChar (c : ascii) : ascii :=
  let n := nat_of_ascii c in
  if ((65 <=? n) && (n <=? 90))
     || ((192 <=? n) && (n <=? 222) && negb (n =? 215))
  then ascii_of_nat (n + 32) else c.

Fixpoint toLowerCase (s : string) : string :=
  match s with
  | EmptyString => EmptyString
  | String c s' => String (lowerChar c) (toLowerCase s')
  end.

Fixpoint trimStart (s : string) : string :=
  match s with
  | EmptyString => EmptyString
  | String c s' => if isWhitespace c then trimStart s' else s
  end.

Fixpoint trimEnd (s : string) : string :=
  match s with
  | EmptyString => EmptyString
  | String c s' =>
      match trimEnd s' with
      | EmptyString => if isWhitespace c then EmptyString else String c EmptyString
      | t => String c t
      end
  end.

(** [s.trim()] *)
Definition trim (s : string) : string := trimEnd (trimStart s).

(** [s.split(sep)] for a separator of one code unit: never empty. *)
Fixpoint split (sep : ascii) (s : string) : list string :=
  match s with
  | EmptyString => [EmptyString]
  | String c s' =>
      if Ascii.eqb c sep then EmptyString :: split sep s'
      else match split sep s' with
           | w :: ws => String c w :: ws
           | [] => [String c EmptyString]
           end
  end.

(** [s.split(/\s+/)]: the pieces between maximal runs of whitespace;
    [afterGap] says that the previous code unit was whitespace. *)
Fixpoint splitGaps (afterGap : bool) (s : string) : list string :=
  match s with
  | EmptyString => [EmptyString]
  | String c s' =>
      if isWhitespace c
      then (if afterGap then splitGaps true s'
            else EmptyString :: splitGaps true s')
      else match splitGaps false s' with
           | w :: ws => String c w :: ws
           | [] => [String c EmptyString]
           end
  end.

Definition splitWhitespace (s : string) : list string := splitGaps false s.

(** [ws.join(sep)] on an array of strings. *)
Definition join (sep : string) (ws : list string) : string :=
  String.concat sep ws.

(** Length of the longest prefix of [s] made of code units in [p]. *)
Fixpoint span (p : ascii -> bool) (s : string) : nat :=
  match s with
  | EmptyString => 0
  | String c s' => if p c then S (span p s') else 0
  end.

Fixpoint stripPrefix (p s : string) : option string :=
  match p, s with
  | EmptyString, _ => Some s
  | String a p', String b s' => if Ascii.eqb a b then stripPrefix p' s' else None
  | String _ _, EmptyString => None
  end.

(** [s.replace(re, rep)] for a global regular expression [re] that
    matches no empty string: [matchAt t] is the length of the match of
    [re] that starts at the head of [t]; [skip] counts the code units of
    the current match still to be dropped. *)
Fixpoint replaceFrom (matchAt : string -> option nat) (rep : string)
         (skip : nat) (s : string) : string :=
  match s with
  | EmptyString => EmptyString
  | String c s' =>
      match skip with
      | S k => replaceFrom matchAt rep k s'
      | O =>
          match matchAt s with
          | Some (S n) => (rep ++ replaceFrom matchAt rep n s')%string
          | _ => String c (replaceFrom matchAt rep 0 s')
          end
      end
  end.

Definition replaceAll (matchAt : string -> option nat) (rep s : string) : string :=
  replaceFrom matchAt rep 0 s.

(** [/[.!?]$/.test(s)] *)
Fixpoint endsWithSentenceEnd (s : string) : bool :=
  match s with
  | EmptyString => false
  | String c EmptyString => isSentenceEnd c
  | String _ s' => endsWithSentenceEnd s'
  end.

(** [/^[A-Z]/.test(s)] *)
Definition startsWithCapital (s : string) : bool :=
  match s with
  | EmptyString => false
  | String c _ => isUpper c
  end.

End JsString.

(** ** JavaScript numbers *)

Module JsNumber.

Local Open Scope Z_scope.

(** [floor (log2 (n / d))] for positive [n] and [d]. *)
Definition ilog2 (n d : Z) : Z :=
  let k := Z.log2 n - Z.log2 d in
  if (if 0 <=? k then 2 ^ k * d <=? n else d <=? n * 2 ^ (- k))
  then k else k - 1.

(** [2 ^ e <= n / d], written without fractions. *)
Definition pow2_le (e n d : Z) : Prop :=
  if 0 <=? e then 2 ^ e * d <= n else d <= n * 2 ^ (- e).

(** [n / d < 2 ^ e], written without fractions. *)
Definition pow2_gt (e n d : Z) : Prop :=
  if 0 <=? e then n < 2 ^ e * d else n * 2 ^ (- e) < d.

(** The integer nearest to [num / den], the even one on a tie
    ([0 <= num], [0 < den]). *)
Definition roundHalfEven (num den : Z) : Z :=
  let f := num / den in
  let r := num mod den in
  if 2 * r <? den then f
  else if den <? 2 * r then f + 1
  else if Z.even f then f else f + 1.

(** Rounding to binary64, to nearest and ties to even, of the fraction
    [q]: 53 significant bits at the exponent [e] of [q], exponents below
    -1022 being subnormal.  Values beyond the largest binary64 do not
    occur in this program and are not represented. *)
Definition round64 (q : Q) : Q :=
  let n := Z.abs (Qnum q) in
  let d := Z.pos (Qden q) in
  if n =? 0 then 0%Q
  else
    let e := Z.max (ilog2 n d) (-1022) in
    let up := 2 ^ Z.max 0 (52 - e) in
    let dn := 2 ^ Z.max 0 (e - 52) in
    let m := roundHalfEven (n * up) (d * dn) in
    Qred (Qmake (Z.sgn (Qnum q) * m * dn) (Z.to_pos up)).

(** The binary64 nearest to a number, given in lowest terms. *)
Definition fl (q : Q) : Q := round64 (Qred q).

(** A number literal of the source denotes the nearest binary64. *)
Definition literal (q : Q) : Q := fl q.

Definition ofNat (n : nat) : Q := inject_Z (Z.of_nat n).

(** [a + b], [a - b], [a * b] *)
Definition add (a b : Q) : Q := fl (a + b)%Q.
Definition sub (a b : Q) : Q := fl (a - b)%Q.
Definition mul (a b : Q) : Q := fl (a * b)%Q.

(** [a < b], [a <= b] *)
Definition lt (a b : Q) : bool := negb (Qle_bool b a).
Definition le (a b : Q) : bool := Qle_bool a b.

Definition isInteger (q : Q) : bool := Pos.eqb (Qden (Qred q)) 1.

(** ToIntegerOrInfinity on a finite number: truncation towards zero. *)
Definition truncate (q : Q) : Z :=
  if Qle_bool 0 q then Qfloor q else Qceiling q.

(** [Math.floor] *)
Definition Math_floor (q : Q) : Z := Qfloor q.

(** Results of a division, which may leave the finite numbers. *)
Inductive value : Type :=
| Finite (q : Q)
| Infinity
| NegInfinity
| NaN.

(** [a / b] for finite [a] and a finite [b] that is not [-0]. *)
Definition div (a b : Q) : value :=
  if Qeq_bool b 0 then
    (if Qeq_bool a 0 then NaN
     else if Qle_bool 0 a then Infinity else NegInfinity)
  else Finite (fl (a / b)%Q).

(** [Math.round]: the nearest integer, the larger one on a tie. *)
Definition Math_round (v : value) : value :=
  match v with
  | Finite q => Finite (inject_Z (Qfloor (q + (1 # 2))%Q))
  | other => other
  end.

End JsNumber.

(** ** JavaScript arrays and objects *)

Module JsObject.
Import JsNumber.

(** Where [Array.prototype.slice] puts a relative position. *)
Definition clampIndex (len : nat) (rel : Z) : nat :=
  if (rel <? 0)%Z then Z.to_nat (Z.max (Z.of_nat len + rel) 0)
  else Z.to_nat (Z.min rel (Z.of_nat len)).

(** [l.slice(start, fin)], both already converted to integers. *)
Definition slice {A : Type} (l : list A) (start fin : Z) : list A :=
  let k := clampIndex (length l) start in
  let final := clampIndex (length l) fin in
  firstn (final - k) (skipn k l).

(** [l.slice(start)] *)
Definition sliceFrom {A : Type} (l : list A) (start : Z) : list A :=
  slice l start (Z.of_nat (length l)).

(** [l[x]] for a number [x]: an element when [x] is an integer within
    the array, [undefined] otherwise. *)
Definition at_ {A : Type} (l : list A) (x : Q) : option A :=
  if isInteger x && Qle_bool 0 x then nth_error l (Z.to_nat (Qfloor x))
  else None.

(** The data properties that every object inherits from
    [Object.prototype]: functions, with their [length], and the
    accessor [__proto__], which yields [Object.prototype] itself. *)
Inductive inherited : Type :=
| Function_ (length : nat)
| ObjectPrototype.

Definition Object_prototype : list (string * inherited) :=
  [ ("constructor", Function_ 1);
    ("__defineGetter__", Function_ 2);
    ("__defineSetter__", Function_ 2);
    ("hasOwnProperty", Function_ 1);
    ("__lookupGetter__", Function_ 1);
    ("__lookupSetter__", Function_ 1);
    ("isPrototypeOf", Function_ 1);
    ("propertyIsEnumerable", Function_ 1);
    ("toString", Function_ 0);
    ("valueOf", Function_ 0);
    ("__proto__", ObjectPrototype);
    ("toLocaleString", Function_ 0) ].

Section Properties.
Context {V : Type}.

(** An object literal [{}] and what is assigned to it: the own
    properties, oldest first. *)
Definition object : Type := list (string * V).

Fixpoint assoc {B : Type} (key : string) (l : list (string * B)) : option B :=
  match l with
  | [] => None
  | (k, v) :: rest => if String.eqb k key then Some v else assoc key rest
  end.

(** What [o[key]] evaluates to. *)
Inductive lookup : Type :=
| Own (v : V)
| Inherited (i : inherited)
| Undefined.

Definition get (o : object) (key : string) : lookup :=
  match assoc key o with
  | Some v => Own v
  | None =>
      match assoc key Object_prototype with
      | Some i => Inherited i
      | None => Undefined
      end
  end.

(** [o[key] = v] for a key that is not [__proto__]: the own property
    is overwritten where it stands, or created last. *)
Fixpoint set (o : object) (key : string) (v : V) : object :=
  match o with
  | [] => [(key, v)]
  | (k, old) :: rest =>
      if String.eqb k key then (k, v) :: rest
      else (k, old) :: set rest key v
  end.

(** The value of a canonical array index: a decimal numeral with no
    leading zero, below [2^32 - 1]. *)
Fixpoint digits (acc : N) (s : string) : option N :=
  match s with
  | EmptyString => Some acc
  | String c s' =>
      if JsString.isDigit c
      then digits (acc * 10 + N.of_nat (nat_of_ascii c - 48)) s'
      else None
  end.

Definition arrayIndex (key : string) : option N :=
  match key with
  | EmptyString => None
  | String c rest =>
      if Ascii.eqb c "0"%char && negb (String.eqb rest EmptyString) then None
      else match digits 0 key with
           | Some n => if (n <? 4294967295)%N then Some n else None
           | None => None
           end
  end.

Fixpoint insertByIndex (n : N) (key : string) (l : list (N * string))
  : list (N * string) :=
  match l with
  | [] => [(n, key)]
  | (m, k) :: rest =>
      if (n <? m)%N then (n, key) :: l else (m, k) :: insertByIndex n key rest
  end.

Fixpoint indexKeys (keys : list string) : list (N * string) :=
  match keys with
  | [] => []
  | k :: rest =>
      match arrayIndex k with
      | Some n => insertByIndex n k (indexKeys rest)
      | None => indexKeys rest
      end
  end.

(** [Object.keys(o)]: the own keys that are array indices in
    ascending order, then the others in creation order. *)
Definition Object_keys (o : object) : list string :=
  let keys := map fst o in
  map snd (indexKeys keys)
  ++ filter (fun k => match arrayIndex k with Some _ => false | None => true end) keys.

End Properties.

Arguments object : clear implicits.
Arguments lookup : clear implicits.

End JsObject.

(** ** The program *)

Module Markov.
Import JsString JsNumber JsObject.

Definition LF : ascii := "010"%char.
Definition SPACE : ascii := " "%char.

(** An array element read back from an array: a string, or [undefined]. *)
Definition element : Type := option string.

(** [String(v)], as [" " + nextWord] and [RegExp.test] convert. *)
Definition toString (v : element) : string :=
  match v with
  | Some s => s
  | None => "undefined"
  end.

(** [interface MarkovChain { [key: string]: string[] }] *)
Definition MarkovChain : Type := object (list element).

(** How a call ends: with a value, or with a [TypeError] thrown. *)
Inductive completion (A : Type) : Type :=
| Normal (a : A)
| TypeError (message : string).
Arguments Normal {A} a.
Arguments TypeError {A} message.

(** A [for ... of] loop whose body may throw. *)
Fixpoint forEach {A S : Type} (body : S -> A -> completion S)
         (xs : list A) (s : S) : completion S :=
  match xs with
  | [] => Normal s
  | x :: rest =>
      match body s x with
      | Normal s' => forEach body rest s'
      | TypeError m => TypeError m
      end
  end.

(** *** buildMarkovChain *)

(** [/https?:\/\/[^\s]+/] at the head of [s]. *)
Definition matchUrl (s : string) : option nat :=
  let rest n r :=
    match span (fun c => negb (isWhitespace c)) r with
    | O => None
    | S k => Some (n + S k)
    end in
  match stripPrefix "https://" s with
  | Some r => rest 8 r
  | None =>
      match stripPrefix "http://" s with
      | Some r => rest 7 r
      | None => None
      end
  end.

(** [/@[a-zA-Z0-9._-]+/] at the head of [s]. *)
Definition matchMention (s : string) : option nat :=
  match s with
  | String c r =>
      if Ascii.eqb c "@"%char then
        match span isHandleChar r with
        | O => None
        | S k => Some (S (S k))
        end
      else None
  | EmptyString => None
  end.

(** [/\s+/] at the head of [s]. *)
Definition matchWhitespace (s : string) : option nat :=
  match span isWhitespace s with
  | O => None
  | n => Some n
  end.

Definition cleanSentence (sentence : string) : string :=
  trim (replaceAll matchWhitespace " "
          (replaceAll matchMention ""
             (replaceAll matchUrl "" sentence))).

(** [text.split("\n").filter((line) => line.trim().length > 0)] *)
Definition sentences (text : string) : list string :=
  filter (fun line => 0 <? String.length (trim line)) (split LF text).

(** [cleanSentence.split(" ").filter((word) => word.length > 0)] *)
Definition tokens (cleanSentence : string) : list string :=
  filter (fun word => 0 <? String.length word) (split SPACE cleanSentence).

(** The values [i = 0, 1, 2, ...] with [i <= bound]. *)
Definition upTo (bound : Q) : list nat :=
  if lt bound 0 then [] else seq 0 (S (Z.to_nat (Qfloor bound))).

(** [if (!chain[key]) chain[key] = []; chain[key].push(nextWord);] *)
Definition push (chain : MarkovChain) (key : string) (nextWord : element)
  : completion MarkovChain :=
  let chain :=
    match get chain key with
    | Undefined => set chain key []
    | _ => chain
    end in
  match get chain key with
  | Own successors => Normal (set chain key (successors ++ [nextWord]))
  | _ => TypeError "chain[key].push is not a function"
  end.

(** The body of the loop over the sentences. *)
Definition addSentence (order : Q) (chain : MarkovChain) (sentence : string)
  : completion MarkovChain :=
  let cleanSentence := cleanSentence sentence in
  if String.length cleanSentence <? 10 then Normal chain
  else
    let words := tokens cleanSentence in
    if le (ofNat (length words)) order then Normal chain
    else
      forEach
        (fun chain i =>
           let key :=
             join " " (slice words (Z.of_nat i) (truncate (add (ofNat i) order))) in
           let nextWord := at_ words (add (ofNat i) order) in
           push chain key nextWord)
        (upTo (sub (sub (ofNat (length words)) order) 1))
        chain.

Definition buildMarkovChain (text : string) (order : Q) : completion MarkovChain :=
  forEach (addSentence order) (sentences text) [].

(** *** generateText *)

(** What [console.log] prints. *)
Inductive logEntry : Type :=
| LogRetry (attempts : nat)
| LogExhausted (maxAttempts : Q).

(** The state outside the function: how many values [Math.random] has
    handed out, what [console.log] has printed, and, as a ghost count,
    how many times the duplicate test has compared two strings. *)
Record world : Type := World {
  draws : nat;
  console : list logEntry;
  comparisons : nat
}.

Definition log (e : logEntry) (w : world) : world :=
  World (draws w) (console w ++ [e]) (comparisons w).

Definition compared (n : nat) (w : world) : world :=
  World (draws w) (console w) (comparisons w + n).

(** [originalText.some(p)], with the number of lines [p] was called on. *)
Fixpoint some {A : Type} (p : A -> bool) (l : list A) : bool * nat :=
  match l with
  | [] => (false, 0)
  | x :: rest =>
      if p x then (true, 1)
      else let (found, n) := some p rest in (found, S n)
  end.

Section Generation.

(** [Math.random]: its successive results. *)
Variable Math_random : nat -> Q.

Definition random (w : world) : Q * world :=
  (Math_random (draws w), World (S (draws w)) (console w) (comparisons w)).

(** [l[Math.floor(Math.random() * l.length)]] *)
Definition pick {A : Type} (l : list A) (w : world) : option A * world :=
  let (r, w) := random w in
  (at_ l (inject_Z (Math_floor (mul r (ofNat (length l))))), w).

(** What one turn of the inner loop reads from the chain. *)
Inductive drawn : Type :=
| Break
| Next (nextWord : element) (w : world).

(** [const possibleNextWords = chain[currentKey];
     if (!possibleNextWords || possibleNextWords.length === 0) break;
     const nextWord = possibleNextWords[Math.floor(Math.random() * possibleNextWords.length)];]
    An inherited function has a [length] and no indexed property; the
    inherited [__proto__] has neither, and the index is [NaN]. *)
Definition drawNextWord (chain : MarkovChain) (currentKey : string) (w : world)
  : drawn :=
  match get chain currentKey with
  | Undefined => Break
  | Own [] => Break
  | Own possibleNextWords =>
      let (picked, w) := pick possibleNextWords w in
      Next (match picked with Some nextWord => nextWord | None => None end) w
  | Inherited (Function_ 0) => Break
  | Inherited _ => Next None (snd (random w))
  end.

(** [while (result.length < maxLength) { ... }]; every turn makes
    [result] longer, so [fuel] turns are enough when [fuel] is at
    least [maxLength] (see [walk_fuel]). *)
Fixpoint walk (fuel : nat) (chain : MarkovChain) (maxLength order : Q)
         (result currentKey : string) (w : world) : string * world :=
  match fuel with
  | O => (result, w)
  | S fuel =>
      if lt (ofNat (String.length result)) maxLength then
        match drawNextWord chain currentKey w with
        | Break => (result, w)
        | Next nextWord w =>
            let result := (result ++ " " ++ toString nextWord)%string in
            let words := split SPACE result in
            if le order (ofNat (length words)) then
              let currentKey := join " " (sliceFrom words (truncate (- order)%Q)) in
              if (50 <? String.length result)
                 && endsWithSentenceEnd (toString nextWord)
              then (result, w)
              else walk fuel chain maxLength order result currentKey w
            else (result, w)
        end
      else (result, w)
  end.

(** [for (let i = words.length - 1; i >= Math.max(0, words.length - 10); i--)
       if (/[.!?]$/.test(words[i])) { result = words.slice(0, i + 1).join(" "); break; }]
    over the indices still to visit, highest first. *)
Fixpoint stopAt (words : list string) (indices : list nat) (result : string)
  : string :=
  match indices with
  | [] => result
  | i :: rest =>
      if endsWithSentenceEnd (toString (nth_error words i))
      then join " " (slice words 0 (Z.of_nat i + 1))
      else stopAt words rest result
  end.

(** The indices [words.length - 1] down to [max 0 (words.length - 10)]. *)
Definition lastTen (len : nat) : list nat :=
  rev (seq (len - 10) (len - (len - 10))).

(** The clean-up after the walk. *)
Definition tidy (result : string) : string :=
  let result := trim result in
  if negb (endsWithSentenceEnd result) && (100 <? String.length result) then
    let words := split SPACE result in
    stopAt words (lastTen (length words)) result
  else result.

(** [originalText.some(line => line.trim().toLowerCase() === result.toLowerCase())] *)
Definition isDuplicate (originalText : list string) (result : string) (w : world)
  : bool * world :=
  let (found, n) :=
    some (fun line => String.eqb (toLowerCase (trim line)) (toLowerCase result))
         originalText in
  (found, compared n w).

(** One turn of the outer loop up to the duplicate test: the start
    key, the walk and the clean-up.  Reading [length] of an
    [undefined] start key throws. *)
Definition candidate (chain : MarkovChain) (keys : list string)
           (maxLength order : Q) (w : world) : completion string * world :=
  let sentenceStarters := filter startsWithCapital keys in
  let (startKey, w) :=
    if 0 <? length sentenceStarters then pick sentenceStarters w
    else pick keys w in
  match startKey with
  | None => (TypeError "Cannot read properties of undefined (reading 'length')", w)
  | Some startKey =>
      let (result, w) :=
        walk (Z.to_nat (Qceiling maxLength)) chain maxLength order
             startKey startKey w in
      (Normal (tidy result), w)
  end.

(** [while (attempts < maxAttempts) { ... }], by the number of
    attempts still allowed (see [attemptsLeft_spec]). *)
Fixpoint attempt (remaining attempts : nat) (chain : MarkovChain) (keys : list string)
         (maxLength order : Q) (originalText : list string) (maxAttempts : Q)
         (result : string) (w : world) : completion string * world :=
  match remaining with
  | O => (Normal result, log (LogExhausted maxAttempts) w)
  | S remaining =>
      match candidate chain keys maxLength order w with
      | (TypeError m, w) => (TypeError m, w)
      | (Normal result, w) =>
          let (duplicate, w) := isDuplicate originalText result w in
          if negb duplicate then (Normal result, w)
          else
            let attempts := S attempts in
            attempt remaining attempts chain keys maxLength order originalText
                    maxAttempts result (log (LogRetry attempts) w)
      end
  end.

(** How many [attempts = 0, 1, ...] satisfy [attempts < maxAttempts]. *)
Definition attemptsLeft (maxAttempts : Q) : nat := Z.to_nat (Qceiling maxAttempts).

Definition generateText (chain : MarkovChain) (maxLength order : Q)
           (originalText : list string) (maxAttempts : Q) (w : world)
  : completion string * world :=
  let keys := Object_keys chain in
  if length keys =? 0 then (Normal "Not enough data to generate text", w)
  else
    attempt (attemptsLeft maxAttempts) 0 chain keys maxLength order
            originalText maxAttempts "" w.

End Generation.

(** *** getRandomMarkovOrder *)

(** [rand] is the value that [Math.random()] returned. *)
Definition getRandomMarkovOrder (rand : Q) : Z :=
  if lt rand (literal 0.10) then 1%Z
  else if lt rand (literal 0.95) then 2%Z
  else 3%Z.

(** *** analyzeText *)

Record analysis : Type := Analysis {
  totalPosts : nat;
  totalWords : nat;
  avgWordsPerPost : value;
  totalCharacters : nat
}.

Definition analyzeText (text : string) : analysis :=
  let lines := sentences text in
  let totalWords := length (splitWhitespace text) in
  let avgWordsPerPost :=
    Math_round (div (ofNat totalWords) (ofNat (length lines))) in
  Analysis (length lines) totalWords avgWordsPerPost (String.length text).

End Markov.

(** ** Vocabulary of the statements *)

Module Spec.
Import JsString JsNumber JsObject Markov.

(** [s.includes(c)] *)
Fixpoint hasChar (c : ascii) (s : string) : bool :=
  match s with
  | EmptyString => false
  | String a s' => Ascii.eqb a c || hasChar c s'
  end.

(** [/^\s*$/.test(s)]: nothing but whitespace. *)
Fixpoint allWhitespace (s : string) : bool :=
  match s with
  | EmptyString => true
  | String c s' => isWhitespace c && allWhitespace s'
  end.

(** A capital letter below U+0100: A to Z, or one of U+00C0 to U+00DE
    other than the multiplication sign U+00D7.  Its small letter is 32
    code units further on. *)
Definition isCapital (c : ascii) : bool :=
  let n := nat_of_ascii c in
  ((65 <=? n) && (n <=? 90)) || ((192 <=? n) && (n <=? 222) && negb (n =? 215)).

(** The same code unit, or a capital letter and its small letter. *)
Definition sameLetter (a b : ascii) : bool :=
  Ascii.eqb a b
  || (isCapital a && (nat_of_ascii b =? nat_of_ascii a + 32))
  || (isCapital b && (nat_of_ascii a =? nat_of_ascii b + 32)).

(** In the words of the specification: [a] and [b] match
    case-insensitively, that is, they are equally long and differ at
    most in the case of their letters. *)
Fixpoint equalIgnoringCase (a b : string) : bool :=
  match a, b with
  | EmptyString, EmptyString => true
  | String x a', String y b' => sameLetter x y && equalIgnoringCase a' b'
  | _, _ => false
  end.

(** The [(key, nextWord)] pairs that the loop of [addSentence] pushes
    for one sentence, in the order of the pushes. *)
Definition transitions (order : Q) (sentence : string) : list (string * element) :=
  let cleanSentence := cleanSentence sentence in
  if String.length cleanSentence <? 10 then []
  else
    let words := tokens cleanSentence in
    if le (ofNat (length words)) order then []
    else
      map (fun i =>
             (join " " (slice words (Z.of_nat i) (truncate (add (ofNat i) order))),
              at_ words (add (ofNat i) order)))
          (upTo (sub (sub (ofNat (length words)) order) 1)).

Definition pushPair (chain : MarkovChain) (p : string * element)
  : completion MarkovChain :=
  push chain (fst p) (snd p).

(** What the bag under [key] holds, nothing when there is no such key. *)
Definition bagOf (chain : MarkovChain) (key : string) : list element :=
  match assoc key chain with
  | Some successors => successors
  | None => []
  end.

(** What was pushed under [key], oldest first. *)
Definition successorsOf {A : Type} (key : string) (pairs : list (string * A)) : list A :=
  map snd (filter (fun p => String.eqb (fst p) key) pairs).

(** In the words of the specification: the cleaned lines of at least 10
    characters with more than [order] tokens, as token lists. *)
Definition usableLines (order : nat) (text : string) : list (list string) :=
  filter (fun words => order <? length words)
    (map tokens
       (filter (fun line => 10 <=? String.length line)
          (map cleanSentence (sentences text)))).

(** Every occurrence of a window of [order] tokens followed by one more
    token, left to right: the window joined by spaces, and the follower. *)
Definition windows (order : nat) (words : list string) : list (string * element) :=
  map (fun i => (join " " (firstn order (skipn i words)), nth_error words (i + order)))
      (seq 0 (length words - order)).

Definition occurrences (order : nat) (text : string) : list (string * element) :=
  flat_map (windows order) (usableLines order text).

(** A word that a turn of the inner loop of [generateText] can append:
    an entry of a bag of the chain, or [undefined]. *)
Definition appended (chain : MarkovChain) (nextWord : element) : Prop :=
  nextWord = None \/
  exists key successors, assoc key chain = Some successors /\ In nextWord successors.

(** [result] after turns of the inner loop have appended [words] to it,
    the oldest first: [result += " " + nextWord] for each of them. *)
Definition spaced (result : string) (words : list element) : string :=
  fold_left (fun result nextWord => (result ++ " " ++ toString nextWord)%string)
            words result.

Section Trail.

Variable Math_random : nat -> Q.

(** The inner loop of [generateText] once more, turn by turn as in
    [walk], keeping what [walk] forgets: the words that its turns
    appended, the oldest first (see [walk_appendedWords]).  The last of
    them is the word appended by the final iteration that appended
    one. *)
Fixpoint appendedWords (fuel : nat) (chain : MarkovChain) (maxLength order : Q)
         (result currentKey : string) (w : world) : list element :=
  match fuel with
  | O => []
  | S fuel =>
      if lt (ofNat (String.length result)) maxLength then
        match drawNextWord Math_random chain currentKey w with
        | Break => []
        | Next nextWord w =>
            let result := (result ++ " " ++ toString nextWord)%string in
            let words := split SPACE result in
            if le order (ofNat (length words)) then
              let currentKey := join " " (sliceFrom words (truncate (- order)%Q)) in
              if (50 <? String.length result)
                 && endsWithSentenceEnd (toString nextWord)
              then [nextWord]
              else nextWord
                   :: appendedWords fuel chain maxLength order result currentKey w
            else [nextWord]
        end
      else []
  end.

End Trail.

(** What [Math.random] returns: a binary64 from 0 up to, and not
    including, 1; the largest of them is [1 - 2^-53]. *)
Definition unitInterval (r : Q) : Prop :=
  (0 <= r)%Q /\ (r <= 9007199254740991 # 9007199254740992)%Q.

Section Retries.

Variable Math_random : nat -> Q.
Variables (chain : MarkovChain) (keys : list string) (maxLength order : Q).
Variable originalText : list string.

(** [retries attempts w results attempts' w']: from the world [w], with
    [attempts] attempts made, the outer loop of [generateText] generates
    the candidates [results] one after the other, finds each of them a
    duplicate and logs the retry, which leaves [attempts'] attempts made
    and the world [w']. *)
Inductive retries : nat -> world -> list string -> nat -> world -> Prop :=
| retries_none (attempts : nat) (w : world) :
    retries attempts w [] attempts w
| retries_more (attempts : nat) (w : world) (result : string) (w1 w2 : world)
               (results : list string) (attempts' : nat) (w' : world) :
    candidate Math_random chain keys maxLength order w = (Normal result, w1) ->
    isDuplicate originalText result w1 = (true, w2) ->
    retries (S attempts) (log (LogRetry (S attempts)) w2) results attempts' w' ->
    retries attempts w (result :: results) attempts' w'.

End Retries.

(** The corpus of the specification's example. *)
Definition corpus : string :=
  "I love sunny days." ++ String LF "I love rainy days."
    ++ String LF "I love sunny mornings.".

End Spec.

(** ** The callers: generatePost *)

Module Posts.
Import JsString JsNumber JsObject Markov.

(** How the promise of an [async] function is settled: fulfilled with a
    value, or rejected with an error, of which the [message] is kept. *)
Inductive outcome (A : Type) : Type :=
| Fulfilled (a : A)
| Rejected (message : string).
Arguments Fulfilled {A} a.
Arguments Rejected {A} message.

(** [`Failed to generate post for @${username}: ${error.message}`] *)
Definition failure (username message : string) : string :=
  "Failed to generate post for @" ++ username ++ ": " ++ message.

Section Generation.

Variable Math_random : nat -> Q.

(** [markovOrder || getRandomMarkovOrder()]: [undefined] and 0 are
    falsy, and only then is a number drawn. *)
Definition orderOrRandom (markovOrder : option Q) (w : world) : Q * world :=
  let drawn :=
    let (rand, w) := random Math_random w in
    (inject_Z (getRandomMarkovOrder rand), w) in
  match markovOrder with
  | Some order => if Qeq_bool order 0 then drawn else (order, w)
  | None => drawn
  end.

(** [generatePost(username, markovOrder, agent)].  [markovOrder] is
    [undefined] or a finite number; [fetched] is how obtaining the agent
    and [getUserPosts(userAgent, username, 100)] ended. *)
Definition generatePost (username : string) (markovOrder : option Q)
           (fetched : outcome string) (w : world) : outcome string * world :=
  let (order, w) := orderOrRandom markovOrder w in
  match fetched with
  | Rejected message => (Rejected (failure username message), w)
  | Fulfilled userPosts =>
      let originalLines := sentences userPosts in
      match buildMarkovChain userPosts order with
      | TypeError message => (Rejected (failure username message), w)
      | Normal markovChain =>
          match generateText Math_random markovChain 280 order originalLines 10 w with
          | (Normal generatedPost, w) => (Fulfilled generatedPost, w)
          | (TypeError message, w) => (Rejected (failure username message), w)
          end
      end
  end.

End Generation.

End Posts.

(** ** The earlier markov.ts *)

Module Legacy.
Import JsString JsNumber JsObject Markov Posts.

Section Generation.

Variable Math_random : nat -> Q.

(** [generateText(chain, maxLength, order)]: one candidate, returned
    whether or not it copies a line of the corpus. *)
Definition generateText (chain : MarkovChain) (maxLength order : Q) (w : world)
  : completion string * world :=
  let keys := Object_keys chain in
  if length keys =? 0 then (Normal "Not enough data to generate text", w)
  else candidate Math_random chain keys maxLength order w.

(** [generatePost(username, markovOrder = 2, agent)] *)
Definition generatePost (username : string) (markovOrder : option Q)
           (fetched : outcome string) (w : world) : outcome string * world :=
  let markovOrder := match markovOrder with Some order => order | None => 2%Q end in
  match fetched with
  | Rejected message => (Rejected (failure username message), w)
  | Fulfilled userPosts =>
      match buildMarkovChain userPosts markovOrder with
      | TypeError message => (Rejected (failure username message), w)
      | Normal markovChain =>
          match generateText markovChain 280 markovOrder w with
          | (Normal generatedPost, w) => (Fulfilled generatedPost, w)
          | (TypeError message, w) => (Rejected (failure username message), w)
          end
      end
  end.

End Generation.

End Legacy.

(** ** download_posts.ts *)

Module Download.
Import JsString JsNumber JsObject Markov.

(** An item of a feed, as far as [scrollPosts] reads it:
    [post.author.handle] and [post.record.text], which may be missing. *)
Record feedItem : Type := FeedItem {
  handle : string;
  text : option string
}.

(** What a failed request throws: its [status], if it has one, and its
    [message]. *)
Record error : Type := Error {
  status : option Z;
  message : string
}.

(** How a call of [agent.getAuthorFeed] ends: with [data.feed] and
    [data.cursor], or with an error thrown. *)
Inductive response : Type :=
| Page (feed : list feedItem) (cursor : option string)
| Failure (e : error).

(** How a function of this file ends. *)
Inductive settled (A : Type) : Type :=
| Returned (a : A)
| Thrown (e : error).
Arguments Returned {A} a.
Arguments Thrown {A} e.

(** What [console.log] and [console.error] print. *)
Inductive notice : Type :=
| Fetching (batch : value) (user : string)
| Found (posts : nat)
| NoMorePosts
| NoMorePages
| ErrorFetching (e : error)
| UserMightNotExist
| AuthenticationFailed
| UserNotFound
| ServerError
| TotalProcessed (totalPosts : nat)
| WithText (posts : nat)
| UsingCached (username : string) (characters : nat)
| NoCached (username : string)
| Written (filename : string)
| ErrorWriting.

(** The state outside the functions: the cursors of the requests sent
    to the server, oldest first, what was printed, and the files of the
    disk that can be read, with their contents. *)
Record session : Type := Session {
  requests : list (option string);
  printed : list notice;
  files : list (string * string)
}.

Definition print (n : notice) (s : session) : session :=
  Session (requests s) (printed s ++ [n]) (files s).

(** [/\n/] at the head of [s]. *)
Definition matchNewline (s : string) : option nat :=
  match s with
  | String c _ => if Ascii.eqb c LF then Some 1 else None
  | EmptyString => None
  end.

(** The test and the body of the loop over a feed: the text that a post
    adds to [allPostTexts], if it adds one. *)
Definition singleLineText (user : string) (post : feedItem) : option string :=
  match text post with
  | Some text =>
      if String.eqb (handle post) user
         && negb (String.eqb text EmptyString)
         && (0 <? String.length (trim text))
      then Some (replaceAll matchNewline " " (trim text))
      else None
  | None => None
  end.

Definition keep (user : string) (feed : list feedItem) : list string :=
  flat_map (fun post => match singleLineText user post with
                        | Some t => [t]
                        | None => []
                        end) feed.

(** [Math.floor(totalPosts / limit) + 1] *)
Definition batch (totalPosts : nat) (limit : Q) : value :=
  match div (ofNat totalPosts) limit with
  | Finite q => Finite (add (inject_Z (Math_floor q)) 1)
  | other => other
  end.

(** The message printed for the status of an error. *)
Definition explain (e : error) (s : session) : session :=
  match status e with
  | Some 400%Z => print UserMightNotExist s
  | Some 401%Z => print AuthenticationFailed s
  | Some 404%Z => print UserNotFound s
  | Some 502%Z => print ServerError s
  | _ => s
  end.

(** [!currentCursor] *)
Definition noCursor (cursor : option string) : bool :=
  match cursor with
  | Some c => String.eqb c EmptyString
  | None => true
  end.

Section Server.

(** The server: its answers to the successive requests. *)
Variable getAuthorFeed : nat -> response.

(** Node's [path.join]. *)
Variable join_path : string -> string -> string.

(** Whether [fsPromises.writeFile] succeeds on a path. *)
Variable writable : string -> bool.

Definition request (cursor : option string) (s : session) : response * session :=
  (getAuthorFeed (length (requests s)),
   Session (requests s ++ [cursor]) (printed s) (files s)).

(** [while (true) { ... }] of [scrollPosts], then the lines after it.
    The loop runs for as long as the server hands out cursors; [None]
    says that it is still running after [fuel] requests.  The pause of
    100 ms between two requests is not represented. *)
Fixpoint scroll (fuel : nat) (user : string) (limit : Q)
         (allPostTexts : list string) (currentCursor : option string)
         (totalPosts : nat) (s : session) : option (settled string * session) :=
  match fuel with
  | O => None
  | S fuel =>
      let s := print (Fetching (batch totalPosts limit) user) s in
      let (response, s) := request currentCursor s in
      match response with
      | Failure e => Some (Thrown e, explain e (print (ErrorFetching e) s))
      | Page feed cursor =>
          let s := print (Found (length feed)) s in
          let finish allPostTexts totalPosts s :=
            let s := print (TotalProcessed totalPosts) s in
            let s := print (WithText (length allPostTexts)) s in
            Some (Returned (join (String LF EmptyString) allPostTexts), s) in
          if length feed =? 0 then finish allPostTexts totalPosts (print NoMorePosts s)
          else
            let allPostTexts := allPostTexts ++ keep user feed in
            let totalPosts := totalPosts + length feed in
            if noCursor cursor
            then finish allPostTexts totalPosts (print NoMorePages s)
            else scroll fuel user limit allPostTexts cursor totalPosts s
      end
  end.

Definition scrollPosts (fuel : nat) (user : string) (limit : Q)
           (cursor : option string) (s : session) : option (settled string * session) :=
  scroll fuel user limit [] cursor 0 s.

(** [asyncReadFile]: the contents, or [null]. *)
Definition asyncReadFile (filename : string) (s : session) : option string :=
  assoc filename (files s).

(** [asyncWriteFile], whose result [getUserPosts] does not look at. *)
Definition asyncWriteFile (filename data : string) (s : session) : session :=
  if writable filename
  then print (Written filename) (Session (requests s) (printed s) (set (files s) filename data))
  else print ErrorWriting s.

(** [getUserPosts(agent, username, limit)]; [ensureDirectoryExists]
    changes no file. *)
Definition getUserPosts (fuel : nat) (username : string) (limit : Q) (s : session)
  : option (settled string * session) :=
  let postsDir := "./posts" in
  let filename := join_path postsDir (username ++ ".txt") in
  let download :=
    let s := print (NoCached username) s in
    match scrollPosts fuel username limit None s with
    | Some (Returned posts, s) => Some (Returned posts, asyncWriteFile filename posts s)
    | other => other
    end in
  match asyncReadFile filename s with
  | Some existingData =>
      if String.eqb existingData EmptyString then download
      else Some (Returned existingData,
                 print (UsingCached username (String.length existingData)) s)
  | None => download
  end.

End Server.

End Download.

(** ** The command line *)

Module Cli.
Import JsString JsNumber.

(** [ToBoolean] of a number: 0 and [NaN] are falsy. *)
Definition truthy (v : value) : bool :=
  match v with
  | Finite q => negb (Qeq_bool q 0)
  | NaN => false
  | _ => true
  end.

(** [v < bound] and [v > bound] for a finite [bound]; a comparison with
    [NaN] is false. *)
Definition less (v : value) (bound : Q) : bool :=
  match v with
  | Finite q => lt q bound
  | NegInfinity => true
  | _ => false
  end.

Definition greater (v : value) (bound : Q) : bool :=
  match v with
  | Finite q => lt bound q
  | Infinity => true
  | _ => false
  end.

(** How [main] ends: with one of its messages and [process.exit(1)], or
    with the call of [generatePostsForUser]. *)
Inductive ending : Type :=
| Usage
| OrderOutOfRange
| PostsOutOfRange
| Generate (username : string) (numPosts : value) (markovOrder : option value).

Section Parsing.

(** [parseInt], of a string or of [undefined], and [parseFloat]. *)
Variable parseInt : option string -> value.
Variable parseFloat : string -> value.

(** [parseInt(x) || fallback] *)
Definition parseIntOr (x : option string) (fallback : Q) : value :=
  let n := parseInt x in
  if truthy n then n else Finite fallback.

(** [main] of markov.ts, on [process.argv.slice(2)]. *)
Definition main (args : list string) : ending :=
  match args with
  | [] => Usage
  | username :: _ =>
      let numPosts := parseIntOr (nth_error args 1) 5 in
      let markovOrder :=
        match nth_error args 2 with
        | Some a => if String.eqb a EmptyString then None else Some (parseFloat a)
        | None => None
        end in
      if match markovOrder with
         | Some order => less order 1 || greater order 3
         | None => false
         end
      then OrderOutOfRange
      else if less numPosts 1 || greater numPosts 20 then PostsOutOfRange
      else Generate username numPosts markovOrder
  end.

(** [main] of the earlier markov.ts. *)
Definition main_legacy (args : list string) : ending :=
  match args with
  | [] => Usage
  | username :: _ =>
      let numPosts := parseIntOr (nth_error args 1) 5 in
      let markovOrder := parseIntOr (nth_error args 2) 2 in
      if less markovOrder 1 || greater markovOrder 3 then OrderOutOfRange
      else if less numPosts 1 || greater numPosts 20 then PostsOutOfRange
      else Generate username numPosts (Some markovOrder)
  end.

End Parsing.

End Cli.

(** ** Vocabulary of the further statements *)

Module Terms.
Import JsString JsNumber JsObject Markov Spec Posts Download.

(** [/\s/.test(s)] *)
Fixpoint hasWhitespace (s : string) : bool :=
  match s with
  | EmptyString => false
  | String c s' => isWhitespace c || hasWhitespace s'
  end.

(** A word as the chain should hold it: not empty, no whitespace in it. *)
Definition clean (w : string) : Prop := hasWhitespace w = false /\ w <> EmptyString.

(** Every code unit of [s] is in the class [p]. *)
Fixpoint every (p : ascii -> bool) (s : string) : bool :=
  match s with
  | EmptyString => true
  | String c s' => p c && every p s'
  end.

(** A space, or no whitespace at all. *)
Definition spaceOrInk (c : ascii) : bool :=
  negb (isWhitespace c) || Ascii.eqb c SPACE.

(** [/@[a-zA-Z0-9._-]/.test(s)]: an at sign with a code unit of a handle
    after it, which is where [/@[a-zA-Z0-9._-]+/] matches. *)
Fixpoint hasMention (s : string) : bool :=
  match s with
  | EmptyString => false
  | String c s' =>
      (Ascii.eqb c "@"%char
       && match s' with String d _ => isHandleChar d | EmptyString => false end)
      || hasMention s'
  end.

(** The first code unit of [s], if any, is not one of a handle. *)
Definition noHandleAhead (s : string) : bool :=
  match s with
  | String d _ => negb (isHandleChar d)
  | EmptyString => true
  end.

(** [s.slice(n)] *)
Fixpoint drop (n : nat) (s : string) : string :=
  match n, s with
  | S k, String _ s' => drop k s'
  | _, _ => s
  end.

(** A chain without mentions: none in a key, none in a successor. *)
Definition plain (chain : MarkovChain) : Prop :=
  Forall (fun e => hasMention (fst e) = false /\ snd e <> [] /\
                   Forall (fun nextWord => hasMention (toString nextWord) = false) (snd e))
         chain.

(** The first code unit of [s] is no whitespace. *)
Definition inked (s : string) : bool :=
  match s with
  | String c _ => negb (isWhitespace c)
  | EmptyString => false
  end.

(** The elements of [l] that are not in [seen], each once, at its first
    occurrence. *)
Fixpoint distinct (seen l : list string) : list string :=
  match l with
  | [] => []
  | k :: rest =>
      if existsb (String.eqb k) seen then distinct seen rest
      else k :: distinct (k :: seen) rest
  end.

(** The code units of the strings of a list, counted. *)
Definition total (l : list string) : nat := list_sum (map String.length l).

(** The words of the corpus: those of its usable lines. *)
Definition inCorpus (order : nat) (text word : string) : Prop :=
  exists line, In line (usableLines order text) /\ In word line.

(** A text of the chain of a corpus: clean words of the corpus, each run
    of [order + 1] of them being a window of a usable line with its
    successor. *)
Definition chained (order : nat) (text : string) (ws : list string) : Prop :=
  ws <> [] /\ Forall clean ws /\ Forall (inCorpus order text) ws /\
  incl (windows order ws) (occurrences order text).

(** Whether a line counts as a post. *)
Definition nonblank (line : string) : bool := 0 <? String.length (trim line).

(** 1 when the text before the first line feed is blank, 0 otherwise. *)
Definition firstBlank (s : string) : nat :=
  match split LF s with
  | line :: _ => if nonblank line then 0 else 1
  | [] => 1
  end.

(** A text that makes one usable line of a corpus: no line feed in it,
    and something left when it is trimmed. *)
Definition oneLine (t : string) : Prop :=
  hasChar LF t = false /\ trim t <> EmptyString.

Definition feedOf (r : response) : list feedItem :=
  match r with
  | Page feed _ => feed
  | Failure _ => []
  end.

Definition cursorOf (r : response) : option string :=
  match r with
  | Page _ cursor => cursor
  | Failure _ => None
  end.

(** The items of the pages with which the server answered the requests
    number [from], [from + 1], ..., [n] of them. *)
Definition received (getAuthorFeed : nat -> response) (from n : nat) : list feedItem :=
  flat_map (fun k => feedOf (getAuthorFeed k)) (seq from n).

(** [words.slice(-10).every(word => !/[.!?]$/.test(word))] on the words
    of [result]: none of the last ten ends a sentence. *)
Definition noStopInLastTen (result : string) : bool :=
  let words := split SPACE result in
  forallb (fun word => negb (endsWithSentenceEnd word))
          (skipn (length words - 10) words).

(** What the clean-up achieves: a text that ends a sentence, or is at
    most 100 code units long, or had nowhere to be cut. *)
Definition tidied (result : string) : Prop :=
  endsWithSentenceEnd result = true \/ String.length result <= 100 \/
  noStopInLastTen result = true.

(** *** Instances *)

(** Two lines that share the words "love" and "days.". *)
Definition twoLines : string :=
  "I love sunny days." ++ String LF "You love rainy days.".

(** A server with two pages, and one that fails on the second request. *)
Definition twoPages (k : nat) : response :=
  match k with
  | 0 => Page [FeedItem "alice" (Some (" sunny" ++ String LF "days ")%string);
               FeedItem "bob" (Some "hello"); FeedItem "alice" None]
              (Some "page2")
  | _ => Page [FeedItem "alice" (Some "rain")] None
  end.

Definition badGateway : error := Error (Some 502%Z) "Bad Gateway".

Definition failingSecond (k : nat) : response :=
  match k with
  | 0 => Page [FeedItem "alice" (Some "sunny days")] (Some "page2")
  | _ => Failure badGateway
  end.

(** The session after [twoPages] was scrolled through for "alice", with
    the files [files] on the disk, and after the posts were cached in
    [filename]. *)
Definition downloaded (files : list (string * string)) : session :=
  Session [None; Some "page2"]
          [Fetching (Finite 1) "alice"; Found 3; Fetching (Finite 1) "alice"; Found 1;
           NoMorePages; TotalProcessed 4; WithText 2]
          files.

Definition cached (filename : string) : session :=
  Session [None; Some "page2"]
          [NoCached "alice"; Fetching (Finite 1) "alice"; Found 3;
           Fetching (Finite 1) "alice"; Found 1; NoMorePages; TotalProcessed 4;
           WithText 2; Written filename]
          [(filename, ("sunny days" ++ String LF "rain")%string)].

(** A chain of two words of 50 code units each. *)
Definition longWords : MarkovChain :=
  [("A", [Some "cccccccccccccccccccccccccccccccccccccccccccccccccc"]);
   ("cccccccccccccccccccccccccccccccccccccccccccccccccc",
    [Some "dddddddddddddddddddddddddddddddddddddddddddddddddd"])].

(** Draws that are 0 but for the third, which is 1/2. *)
Definition thirdHalf (k : nat) : Q :=
  match k with
  | 2 => (1 # 2)%Q
  | _ => 0%Q
  end.

(** A [parseInt] that knows one numeral. *)
Definition parseThree (x : option string) : value :=
  match x with
  | Some "3" => Finite 3
  | _ => NaN
  end.

End Terms.


(** * Properties *)

(** ** Rounding *)

Module NumberFacts.
Import JsNumber.
Local Open Scope Z_scope.

Lemma roundHalfEven_near (num den : Z) :
  0 < den -> 2 * Z.abs (roundHalfEven num den * den - num) <= den.
Proof.
  intros Hden. unfold roundHalfEven.
  pose proof (Z.div_mod num den ltac:(lia)) as Hdm.
  pose proof (Z.mod_pos_bound num den Hden) as Hr.
  destruct (2 * (num mod den) <? den) eqn:H1;
    [apply Z.ltb_lt in H1 | apply Z.ltb_ge in H1].
  - nia.
  - destruct (den <? 2 * (num mod den)) eqn:H2;
      [apply Z.ltb_lt in H2 | apply Z.ltb_ge in H2].
    + nia.
    + destruct (Z.even (num / den)); nia.
Qed.

Lemma roundHalfEven_exact (z den : Z) :
  0 < den -> roundHalfEven (z * den) den = z.
Proof.
  intros Hden. unfold roundHalfEven.
  rewrite Z.div_mul, Z.mod_mul by lia.
  replace (2 * 0 <? den) with true by (symmetry; apply Z.ltb_lt; lia).
  reflexivity.
Qed.

(** [2 ^ ilog2 n d <= n / d] ... *)
Lemma ilog2_lower (n d : Z) : 0 < n -> 0 < d -> pow2_le (ilog2 n d) n d.
Proof.
  intros Hn Hd. unfold ilog2, pow2_le.
  destruct (Z.log2_spec n Hn) as [Hn1 _].
  destruct (Z.log2_spec d Hd) as [_ Hd2].
  pose proof (Z.log2_nonneg n) as Hln. pose proof (Z.log2_nonneg d) as Hld.
  remember (Z.log2 n) as ln. remember (Z.log2 d) as ld.
  rewrite <- Z.add_1_r in Hd2.
  destruct (0 <=? ln - ld) eqn:Hk; [apply Z.leb_le in Hk | apply Z.leb_gt in Hk].
  - destruct (2 ^ (ln - ld) * d <=? n) eqn:Ht.
    + rewrite (proj2 (Z.leb_le 0 (ln - ld)) Hk). now apply Z.leb_le.
    + destruct (0 <=? ln - ld - 1) eqn:Hk1;
        [apply Z.leb_le in Hk1 | apply Z.leb_gt in Hk1].
      * assert (H : 2 ^ ln = 2 ^ (ln - ld - 1) * 2 ^ (ld + 1))
          by (rewrite <- Z.pow_add_r by lia; f_equal; lia).
        assert (0 < 2 ^ (ln - ld - 1)) by (apply Z.pow_pos_nonneg; lia).
        nia.
      * replace (- (ln - ld - 1)) with 1 by lia.
        replace ld with ln in Hd2 by lia.
        rewrite Z.pow_add_r in Hd2 by lia. change (2 ^ 1) with 2 in *. lia.
  - assert (H : 2 ^ (ld + 1) = 2 ^ ln * 2 ^ (- (ln - ld - 1)))
      by (rewrite <- Z.pow_add_r by lia; f_equal; lia).
    assert (H' : 2 ^ (- (ln - ld - 1)) = 2 * 2 ^ (- (ln - ld))).
    { replace (- (ln - ld - 1)) with (1 + - (ln - ld)) by lia.
      rewrite Z.pow_add_r by lia. reflexivity. }
    assert (0 < 2 ^ (- (ln - ld))) by (apply Z.pow_pos_nonneg; lia).
    destruct (d <=? n * 2 ^ (- (ln - ld))) eqn:Ht.
    + rewrite (proj2 (Z.leb_gt 0 (ln - ld)) Hk). now apply Z.leb_le.
    + rewrite (proj2 (Z.leb_gt 0 (ln - ld - 1))) by lia. nia.
Qed.

Lemma Qred_inject_Z (q : Q) (z : Z) : (q == inject_Z z)%Q -> Qred q = inject_Z z.
Proof.
  intros H. rewrite (Qred_complete _ _ H). apply Qred_identity.
  simpl. apply Z.gcd_1_r.
Qed.

Lemma ilog2_int (n : Z) : 0 < n -> ilog2 n 1 = Z.log2 n.
Proof.
  intros Hn. unfold ilog2. change (Z.log2 1) with 0. rewrite Z.sub_0_r.
  pose proof (Z.log2_nonneg n) as Hl.
  destruct (Z.log2_spec n Hn) as [H1 _].
  rewrite (proj2 (Z.leb_le 0 _) Hl).
  now rewrite (proj2 (Z.leb_le (2 ^ Z.log2 n * 1) n)) by lia.
Qed.

Lemma round64_int (z : Z) : Z.abs z <= 2 ^ 53 -> round64 (inject_Z z) = inject_Z z.
Proof.
  intros Hz. unfold round64. cbn [Qnum Qden inject_Z].
  destruct (Z.abs z =? 0) eqn:H0.
  - apply Z.eqb_eq in H0. replace z with 0 by lia. reflexivity.
  - apply Z.eqb_neq in H0.
    assert (Hn : 0 < Z.abs z) by lia.
    rewrite (ilog2_int _ Hn).
    pose proof (Z.log2_nonneg (Z.abs z)) as Hl.
    destruct (Z.log2_spec _ Hn) as [H1 H2].
    assert (Hl53 : Z.log2 (Z.abs z) <= 53).
    { change 53 with (Z.log2 (2 ^ 53)). now apply Z.log2_le_mono. }
    rewrite (Z.max_l (Z.log2 (Z.abs z)) (-1022)) by lia.
    apply Qred_inject_Z.
    destruct (Z.eq_dec (Z.log2 (Z.abs z)) 53) as [E | E].
    + rewrite E in *. change (Z.max 0 (52 - 53)) with 0.
      change (Z.max 0 (53 - 52)) with 1. change (2 ^ 0) with 1. change (2 ^ 1) with 2.
      assert (Hz' : Z.abs z = 2 ^ 52 * 2) by (change (2 ^ 52 * 2) with (2 ^ 53); lia).
      rewrite Hz', Z.mul_1_r, Z.mul_1_l, roundHalfEven_exact by lia.
      unfold Qeq. cbn [Qnum Qden inject_Z Z.to_pos].
      change (2 ^ 52 * 2) with (2 ^ 53) in Hz'. lia.
    + rewrite (Z.max_r 0 (52 - _)) by lia. rewrite (Z.max_l 0 (_ - 52)) by lia.
      change (2 ^ 0) with 1. rewrite !Z.mul_1_r.
      assert (Hup : 0 < 2 ^ (52 - Z.log2 (Z.abs z))) by (apply Z.pow_pos_nonneg; lia).
      rewrite <- (Z.mul_1_r (Z.abs z * _)) at 1.
      rewrite roundHalfEven_exact by lia.
      unfold Qeq. cbn [Qnum Qden inject_Z].
      rewrite Z2Pos.id by lia. nia.
Qed.

(** ... so that [ilog2 n d] is the exponent of [n / d]. *)
Lemma ilog2_below (n d : Z) : 0 < n -> 0 < d -> pow2_gt (ilog2 n d + 1) n d.
Proof.
  intros Hn Hd. unfold ilog2, pow2_gt.
  destruct (Z.log2_spec n Hn) as [_ Hn2].
  destruct (Z.log2_spec d Hd) as [Hd1 _].
  pose proof (Z.log2_nonneg n) as Hln. pose proof (Z.log2_nonneg d) as Hld.
  remember (Z.log2 n) as ln. remember (Z.log2 d) as ld.
  rewrite <- Z.add_1_r in Hn2.
  destruct (0 <=? ln - ld) eqn:Hk; [apply Z.leb_le in Hk | apply Z.leb_gt in Hk].
  - destruct (2 ^ (ln - ld) * d <=? n) eqn:Ht;
      [ | apply Z.leb_gt in Ht; replace (ln - ld - 1 + 1) with (ln - ld) by lia;
          now rewrite (proj2 (Z.leb_le 0 (ln - ld)) Hk)].
    rewrite (proj2 (Z.leb_le 0 (ln - ld + 1))) by lia.
    assert (H : 2 ^ (ln + 1) = 2 ^ (ln - ld + 1) * 2 ^ ld)
      by (rewrite <- Z.pow_add_r by lia; f_equal; lia).
    assert (0 < 2 ^ (ln - ld + 1)) by (apply Z.pow_pos_nonneg; lia).
    nia.
  - destruct (d <=? n * 2 ^ (- (ln - ld))) eqn:Ht;
      [ | apply Z.leb_gt in Ht; replace (ln - ld - 1 + 1) with (ln - ld) by lia;
          now rewrite (proj2 (Z.leb_gt 0 (ln - ld)) Hk)].
    assert (H : 2 ^ ld = 2 ^ ln * 2 ^ (- (ln - ld)))
      by (rewrite <- Z.pow_add_r by lia; f_equal; lia).
    assert (0 < 2 ^ (- (ln - ld))) by (apply Z.pow_pos_nonneg; lia).
    destruct (0 <=? ln - ld + 1) eqn:Hk1;
      [apply Z.leb_le in Hk1 | apply Z.leb_gt in Hk1].
    + replace (ln - ld + 1) with 0 by lia. change (2 ^ 0) with 1.
      replace (- (ln - ld)) with 1 in * by lia. change (2 ^ 1) with 2 in *.
      rewrite Z.pow_add_r in Hn2 by lia. change (2 ^ 1) with 2 in *. nia.
    + assert (H' : 2 ^ (- (ln - ld)) = 2 * 2 ^ (- (ln - ld + 1))).
      { replace (- (ln - ld)) with (1 + - (ln - ld + 1)) by lia.
        rewrite Z.pow_add_r by lia. reflexivity. }
      assert (0 < 2 ^ (- (ln - ld + 1))) by (apply Z.pow_pos_nonneg; lia).
      rewrite Z.pow_add_r in Hn2 by lia. change (2 ^ 1) with 2 in *. nia.
Qed.


Lemma ilog2_upper (n d b : Z) :
  0 < n -> 0 < d -> 0 <= b -> n < 2 ^ b * d -> ilog2 n d < b.
Proof.
  intros Hn Hd Hb Hlt.
  pose proof (ilog2_lower n d Hn Hd) as H. unfold pow2_le in H.
  destruct (Z_lt_le_dec (ilog2 n d) b) as [ | Hge]; [assumption | exfalso].
  rewrite (proj2 (Z.leb_le 0 (ilog2 n d))) in H by lia.
  pose proof (Z.pow_le_mono_r 2 b (ilog2 n d) ltac:(lia) Hge). nia.
Qed.

(** Below [2 ^ 33] the rounding moves a number by at most [2 ^ -21]. *)
Lemma round64_near (q : Q) :
  (Qabs q < 8589934592)%Q ->
  (q - (1 # 2097152) <= round64 q /\ round64 q <= q + (1 # 2097152))%Q.
Proof.
  destruct q as [qn qd]. unfold Qabs, Qlt. cbn [Qnum Qden inject_Z].
  intros Hq. unfold round64. cbn [Qnum Qden].
  destruct (Z.abs qn =? 0) eqn:H0.
  - apply Z.eqb_eq in H0. replace qn with 0 by lia.
    unfold Qle, Qminus, Qplus, Qopp. cbn. lia.
  - apply Z.eqb_neq in H0.
    assert (Hn : 0 < Z.abs qn) by lia.
    assert (He : ilog2 (Z.abs qn) (Z.pos qd) < 33).
    { apply ilog2_upper; try lia. }
    set (e := Z.max (ilog2 (Z.abs qn) (Z.pos qd)) (-1022)) in *.
    assert (He' : e <= 32) by (unfold e; lia).
    rewrite !Qred_correct.
    rewrite (Z.max_r 0 (52 - e)) by lia. rewrite (Z.max_l 0 (e - 52)) by lia.
    change (2 ^ 0) with 1. rewrite !Z.mul_1_r.
    assert (HU : 2 ^ (52 - e) = 1048576 * 2 ^ (32 - e)).
    { change 1048576 with (2 ^ 20). rewrite <- Z.pow_add_r by lia. f_equal. lia. }
    assert (HV : 0 < 2 ^ (32 - e)) by (apply Z.pow_pos_nonneg; lia).
    set (U := 2 ^ (52 - e)) in *. set (V := 2 ^ (32 - e)) in *.
    pose proof (roundHalfEven_near (Z.abs qn * U) (Z.pos qd) ltac:(lia)) as Hm.
    set (m := roundHalfEven (Z.abs qn * U) (Z.pos qd)) in *.
    unfold Qle, Qminus, Qplus, Qopp. cbn [Qnum Qden].
    rewrite !Pos2Z.inj_mul, !Z2Pos.id by lia.
    destruct qn as [ | p | p]; [lia | | ]; cbn [Z.sgn Z.abs] in *.
    + split; nia.
    + split; nia.
Qed.

(** A number that is at most [(1 - 2^-53) * n] rounds to a number
    below [n]. *)
Lemma round64_index (x : Q) (n : Z) :
  (0 <= x)%Q -> (x <= (9007199254740991 # 9007199254740992) * inject_Z n)%Q ->
  0 < n < 2 ^ 53 ->
  0 <= Qfloor (round64 x) < n.
Proof.
  destruct x as [xn xd]. unfold Qle, Qmult. cbn [Qnum Qden inject_Z].
  rewrite Pos.mul_1_r, Z.mul_1_r.
  intros Hx0 Hx1 Hn. unfold round64. cbn [Qnum Qden inject_Z].
  rewrite (Z.abs_eq xn) by lia.
  destruct (xn =? 0) eqn:H0.
  - cbn. lia.
  - apply Z.eqb_neq in H0.
    assert (HA : 0 < xn) by lia.
    assert (HAlt : xn < n * Z.pos xd) by nia.
    assert (He : ilog2 xn (Z.pos xd) < 53).
    { apply ilog2_upper; try lia. nia. }
    pose proof (ilog2_lower xn (Z.pos xd) HA ltac:(lia)) as Hlow.
    unfold pow2_le in Hlow.
    set (e := Z.max (ilog2 xn (Z.pos xd)) (-1022)) in *.
    assert (He' : e <= 52) by (unfold e; lia).
    rewrite (Z.max_r 0 (52 - e)) by lia. rewrite (Z.max_l 0 (e - 52)) by lia.
    change (2 ^ 0) with 1. rewrite !Z.mul_1_r.
    assert (HU0 : 0 < 2 ^ (52 - e)) by (apply Z.pow_pos_nonneg; lia).
    assert (HNU : 2 ^ 52 < n * 2 ^ (52 - e)).
    { destruct (Z_lt_le_dec e 0) as [Hneg | Hpos].
      - assert (2 ^ 53 <= 2 ^ (52 - e)) by (apply Z.pow_le_mono_r; lia).
        change (2 ^ 53) with (2 * 2 ^ 52) in *. nia.
      - assert (Ee : e = ilog2 xn (Z.pos xd)) by (unfold e; lia).
        rewrite <- Ee in Hlow.
        rewrite (proj2 (Z.leb_le 0 e)) in Hlow by lia.
        assert (H2e : 2 ^ e < n) by nia.
        assert (H52 : 2 ^ 52 = 2 ^ e * 2 ^ (52 - e))
          by (rewrite <- Z.pow_add_r by lia; f_equal; lia).
        nia. }
    set (U := 2 ^ (52 - e)) in *.
    pose proof (roundHalfEven_near (xn * U) (Z.pos xd) ltac:(lia)) as Hm.
    set (m := roundHalfEven (xn * U) (Z.pos xd)) in *.
    rewrite (Z.sgn_pos _ HA), Z.mul_1_l.
    rewrite (Qfloor_comp _ _ (Qred_correct _)).
    unfold Qfloor. cbn [Qnum Qden]. rewrite Z2Pos.id by lia.
    assert (Hm0 : 0 <= m) by nia.
    assert (HmU : m < n * U).
    { destruct (Z_lt_le_dec m (n * U)) as [ | Hge]; [assumption | exfalso].
      change (2 ^ 53) with 9007199254740992 in *.
      change (2 ^ 52) with 4503599627370496 in *.
      assert (H1 : 2 * U * (n * Z.pos xd - xn) <= Z.pos xd) by nia.
      assert (H2 : n * Z.pos xd <= 9007199254740992 * (n * Z.pos xd - xn)) by nia.
      nia. }
    split.
    + apply Z.div_pos; lia.
    + apply Z.div_lt_upper_bound; lia.
Qed.

(** *** Facts about [fl] *)

(** Known binary64 values. *)
Example fl_examples :
  fl 0.1 = (3602879701896397 # 36028797018963968)%Q /\
  fl (1 # 3) = (6004799503160661 # 18014398509481984)%Q /\
  fl 9007199254740993 = 9007199254740992%Q /\
  fl 9007199254740995 = 9007199254740996%Q /\
  fl (1 + (1 # 9007199254740992)) = 1%Q /\
  fl (1 + (3 # 9007199254740992)) = (1 + (1 # 2251799813685248))%Q.
Proof. repeat split; vm_compute; reflexivity. Qed.

Lemma fl_comp (p q : Q) : (p == q)%Q -> fl p = fl q.
Proof. intros H. unfold fl. now rewrite (Qred_complete _ _ H). Qed.

(** Integers up to [2 ^ 53] are binary64 numbers. *)
Lemma fl_int (q : Q) (z : Z) :
  (q == inject_Z z)%Q -> Z.abs z <= 2 ^ 53 -> fl q = inject_Z z.
Proof.
  intros H Hz. unfold fl. rewrite (Qred_inject_Z _ _ H). now apply round64_int.
Qed.

(** Below [2 ^ 33] rounding moves a number by at most [2 ^ -21]. *)
Lemma fl_near (q : Q) :
  (Qabs q < 8589934592)%Q ->
  (q - (1 # 2097152) <= fl q /\ fl q <= q + (1 # 2097152))%Q.
Proof.
  intros H. unfold fl.
  assert (H' : (Qabs (Qred q) < 8589934592)%Q) by now rewrite Qred_correct.
  destruct (round64_near _ H') as [H1 H2]. split.
  - apply Qle_trans with (Qred q - (1 # 2097152))%Q; [ | exact H1].
    rewrite Qred_correct. apply Qle_refl.
  - apply Qle_trans with (Qred q + (1 # 2097152))%Q; [exact H2 | ].
    rewrite Qred_correct. apply Qle_refl.
Qed.

(** [Math.floor(Math.random() * n)] is an index below [n]: the largest
    binary64 below 1 is [1 - 2^-53]. *)
Lemma random_index (r : Q) (n : Z) :
  (0 <= r)%Q -> (r <= 9007199254740991 # 9007199254740992)%Q ->
  0 < n < 2 ^ 53 ->
  0 <= Math_floor (mul r (inject_Z n)) < n.
Proof.
  intros Hr0 Hr1 Hn. unfold Math_floor, mul, fl.
  apply round64_index; [ | | assumption]; rewrite Qred_correct.
  - apply Qmult_le_0_compat; [assumption | ].
    unfold Qle. cbn. lia.
  - apply Qmult_le_compat_r; [assumption | ].
    unfold Qle. cbn. lia.
Qed.

End NumberFacts.

(** ** Strings *)

Module StringFacts.
Import JsString Spec.

Lemma split_cons (sep : ascii) (s : string) :
  exists w ws, split sep s = w :: ws.
Proof.
  induction s as [ | c s [w [ws IH]]]; cbn.
  - now exists EmptyString, [].
  - destruct (Ascii.eqb c sep); [now eexists _, _ | ].
    rewrite IH. now eexists _, _.
Qed.

Lemma split_no_sep (sep : ascii) (s : string) :
  Forall (fun w => hasChar sep w = false) (split sep s).
Proof.
  induction s as [ | c s IH]; cbn.
  - now constructor.
  - destruct (Ascii.eqb c sep) eqn:E; [now constructor | ].
    destruct (split sep s) as [ | w ws]; inversion IH; subst;
      constructor; cbn; try rewrite E; auto.
Qed.

Lemma split_piece_length (sep : ascii) (s w : string) :
  In w (split sep s) -> String.length w <= String.length s.
Proof.
  revert w. induction s as [ | c s IH]; cbn; intros w Hw.
  - destruct Hw as [<- | []]. reflexivity.
  - destruct (Ascii.eqb c sep).
    + destruct Hw as [<- | Hw]; cbn; [lia | ]. specialize (IH _ Hw). lia.
    + destruct (split sep s) as [ | v vs].
      * destruct Hw as [<- | []]. cbn. lia.
      * destruct Hw as [<- | Hw]; cbn.
        -- specialize (IH v (or_introl eq_refl)). lia.
        -- specialize (IH w (or_intror Hw)). lia.
Qed.

Lemma split_count (sep : ascii) (s : string) :
  length (filter (fun w => 0 <? String.length w) (split sep s)) <= String.length s.
Proof.
  induction s as [ | c s IH]; cbn [split String.length]; [cbn; lia | ].
  destruct (Ascii.eqb c sep); [cbn in *; lia | ].
  destruct (split sep s) as [ | w ws]; cbn [filter String.length length] in *.
  - change (0 <? 1) with true. cbn. lia.
  - change (0 <? S (String.length w)) with true. cbn [length].
    destruct (0 <? String.length w); cbn [length] in IH; lia.
Qed.

Lemma join_cons (sep w : string) (ws : list string) :
  ws <> [] -> join sep (w :: ws) = (w ++ sep ++ join sep ws)%string.
Proof. destruct ws; [congruence | reflexivity]. Qed.

Lemma split_append (sep : ascii) (w s : string) :
  hasChar sep w = false ->
  split sep (w ++ String sep s) = w :: split sep s.
Proof.
  induction w as [ | c w IH]; cbn; intros H.
  - now rewrite Ascii.eqb_refl.
  - apply orb_false_elim in H as [H1 H2]. rewrite H1, (IH H2). reflexivity.
Qed.

Lemma split_word (sep : ascii) (w : string) :
  hasChar sep w = false -> split sep w = [w].
Proof.
  induction w as [ | c w IH]; cbn; intros H; [reflexivity | ].
  apply orb_false_elim in H as [H1 H2]. now rewrite H1, (IH H2).
Qed.

(** Splitting undoes joining, for words that hold no separator. *)
Lemma split_join (sep : ascii) (ws : list string) :
  ws <> [] -> Forall (fun w => hasChar sep w = false) ws ->
  split sep (join (String sep EmptyString) ws) = ws.
Proof.
  induction ws as [ | w ws IH]; [congruence | ]. intros _ H.
  inversion H as [ | ? ? Hw Hws]; subst.
  destruct ws as [ | v vs].
  - cbn. now apply split_word.
  - rewrite join_cons by congruence. cbn [String.append].
    rewrite split_append by assumption. f_equal. apply IH; [congruence | assumption].
Qed.

(** Joining undoes splitting. *)
Lemma join_split (sep : ascii) (s : string) :
  join (String sep EmptyString) (split sep s) = s.
Proof.
  induction s as [ | c s IH]; [reflexivity | ]. cbn [split].
  destruct (split_cons sep s) as [w [ws E]]. rewrite E in *.
  destruct (Ascii.eqb c sep) eqn:Ec.
  - apply Ascii.eqb_eq in Ec. subst c.
    rewrite join_cons by congruence. cbn [String.append]. now rewrite IH.
  - destruct ws as [ | v vs].
    + cbn in *. now rewrite IH.
    + rewrite join_cons in * by congruence. cbn [String.append] in *. now rewrite IH.
Qed.

Lemma length_append (a b : string) :
  String.length (a ++ b) = String.length a + String.length b.
Proof. induction a; cbn; [reflexivity | now rewrite IHa]. Qed.

Lemma join_firstn_length (sep : string) (ws : list string) (k : nat) :
  String.length (join sep (firstn k ws)) <= String.length (join sep ws).
Proof.
  revert k. induction ws as [ | w ws IH]; intros [ | k]; cbn [firstn]; try (cbn; lia).
  destruct ws as [ | v vs].
  - rewrite firstn_nil. lia.
  - rewrite (join_cons sep w (v :: vs)) by congruence.
    rewrite !length_append. specialize (IH k).
    destruct k as [ | k]; cbn [firstn] in *.
    + cbn. lia.
    + rewrite join_cons by congruence. rewrite !length_append. lia.
Qed.

Lemma trimStart_length (s : string) :
  String.length (trimStart s) <= String.length s.
Proof.
  induction s as [ | c s IH]; cbn; [lia | ].
  destruct (isWhitespace c); cbn; lia.
Qed.

Lemma trimEnd_length (s : string) :
  String.length (trimEnd s) <= String.length s.
Proof.
  induction s as [ | c s IH]; cbn; [lia | ].
  destruct (trimEnd s); [destruct (isWhitespace c) | ]; cbn in *; lia.
Qed.

Lemma trim_length (s : string) : String.length (trim s) <= String.length s.
Proof.
  unfold trim. pose proof (trimEnd_length (trimStart s)).
  pose proof (trimStart_length s). lia.
Qed.

Lemma replaceFrom_length (matchAt : string -> option nat) (rep : string)
      (skip : nat) (s : string) :
  String.length rep <= 1 ->
  String.length (replaceFrom matchAt rep skip s) <= String.length s.
Proof.
  intros Hrep. revert skip. induction s as [ | c s IH]; intros skip; cbn; [lia | ].
  destruct skip as [ | k].
  - destruct (matchAt (String c s)) as [[ | n] | ]; cbn.
    + specialize (IH 0). lia.
    + rewrite length_append. specialize (IH n). lia.
    + specialize (IH 0). lia.
  - specialize (IH k). lia.
Qed.

End StringFacts.

(** ** Objects *)

Module ObjectFacts.
Import JsObject.

Section Properties.
Context {V : Type}.
Implicit Types (o : object V) (key k : string) (v : V).

Lemma assoc_set_same o key v : assoc key (set o key v) = Some v.
Proof.
  induction o as [ | [k old] o IH]; cbn.
  - now rewrite String.eqb_refl.
  - destruct (String.eqb k key) eqn:E; cbn; now rewrite E.
Qed.

Lemma assoc_set_other o key k v :
  k <> key -> assoc k (set o key v) = assoc k o.
Proof.
  intros Hk. induction o as [ | [k' old] o IH]; cbn.
  - destruct (String.eqb key k) eqn:E; [ | reflexivity].
    apply String.eqb_eq in E. congruence.
  - destruct (String.eqb k' key) eqn:E; cbn; [ | now rewrite IH].
    apply String.eqb_eq in E. subst k'.
    destruct (String.eqb key k) eqn:E'; [ | reflexivity].
    apply String.eqb_eq in E'. congruence.
Qed.

Lemma set_set o key v v' : set (set o key v) key v' = set o key v'.
Proof.
  induction o as [ | [k old] o IH]; cbn.
  - now rewrite String.eqb_refl.
  - destruct (String.eqb k key) eqn:E; cbn; rewrite E; [reflexivity | now rewrite IH].
Qed.

Lemma In_set o key v k b :
  In (k, b) (set o key v) -> (k = key /\ b = v) \/ In (k, b) o.
Proof.
  induction o as [ | [k' old] o IH]; cbn.
  - intros [H | []]. left. now inversion H.
  - destruct (String.eqb k' key) eqn:E; cbn.
    + apply String.eqb_eq in E. subst k'.
      intros [H | H]; [left; now inversion H | right; now right].
    + intros [H | H]; [right; now left | ].
      destruct (IH H) as [H' | H']; [now left | right; now right].
Qed.

Lemma In_assoc o k b : assoc k o = Some b -> In (k, b) o.
Proof.
  induction o as [ | [k' old] o IH]; cbn; [discriminate | ].
  destruct (String.eqb k' k) eqn:E.
  - apply String.eqb_eq in E. subst k'. intros H. inversion H. now left.
  - intros H. right. now apply IH.
Qed.

Lemma assoc_In o k b : In (k, b) o -> exists b', assoc k o = Some b'.
Proof.
  induction o as [ | [k' old] o IH]; cbn; [intros [] | ].
  intros [H | H].
  - inversion H. subst. rewrite String.eqb_refl. now eexists.
  - destruct (String.eqb k' k); [now eexists | now apply IH].
Qed.

Lemma Forall_set (P : string * V -> Prop) o key v :
  Forall P o -> P (key, v) -> Forall P (set o key v).
Proof.
  intros Ho Hv. induction Ho as [ | [k old] o Hk Ho IH]; cbn.
  - now constructor.
  - destruct (String.eqb k key) eqn:E.
    + apply String.eqb_eq in E. subst k. now constructor.
    + now constructor.
Qed.

Lemma insertByIndex_cons (n : N) key (l : list (N * string)) :
  insertByIndex n key l <> [].
Proof. destruct l as [ | [m k] l]; cbn; [ | destruct (n <? m)%N]; discriminate. Qed.

(** An object has no key exactly when it has no own property. *)
Lemma Object_keys_nil o : Object_keys o = [] <-> o = [].
Proof.
  split; [ | now intros ->]. destruct o as [ | [k v] o]; [reflexivity | ].
  unfold Object_keys. cbn [map fst indexKeys filter].
  destruct (arrayIndex k) as [n | ].
  - intros H. apply app_eq_nil in H as [H _]. apply map_eq_nil in H.
    now apply insertByIndex_cons in H.
  - intros H. apply app_eq_nil in H as [_ H]. discriminate.
Qed.

End Properties.

End ObjectFacts.

(** ** buildMarkovChain *)

Module BuildFacts.
Import JsString JsNumber JsObject Markov Spec NumberFacts StringFacts ObjectFacts.

Lemma forEach_app {A S : Type} (body : S -> A -> completion S) (xs ys : list A) (s : S) :
  forEach body (xs ++ ys) s =
  match forEach body xs s with
  | Normal s' => forEach body ys s'
  | TypeError m => TypeError m
  end.
Proof.
  revert s. induction xs as [ | x xs IH]; intros s; cbn; [reflexivity | ].
  destruct (body s x); [apply IH | reflexivity].
Qed.

Lemma forEach_map {A B S : Type} (body : S -> B -> completion S) (f : A -> B)
      (xs : list A) (s : S) :
  forEach body (map f xs) s = forEach (fun s x => body s (f x)) xs s.
Proof.
  revert s. induction xs as [ | x xs IH]; intros s; cbn; [reflexivity | ].
  destruct (body s (f x)); [apply IH | reflexivity].
Qed.

Lemma forEach_flat_map {A B S : Type} (body : S -> B -> completion S)
      (f : A -> list B) (xs : list A) (s : S) :
  forEach (fun s x => forEach body (f x) s) xs s = forEach body (flat_map f xs) s.
Proof.
  revert s. induction xs as [ | x xs IH]; intros s; cbn; [reflexivity | ].
  rewrite forEach_app. destruct (forEach body (f x) s); [apply IH | reflexivity].
Qed.

Lemma forEach_ext {A S : Type} (body body' : S -> A -> completion S)
      (xs : list A) (s : S) :
  (forall s x, body s x = body' s x) -> forEach body xs s = forEach body' xs s.
Proof.
  intros H. revert s. induction xs as [ | x xs IH]; intros s; cbn; [reflexivity | ].
  rewrite H. destruct (body' s x); [apply IH | reflexivity].
Qed.

(** The loop over one sentence pushes its [transitions]. *)
Lemma addSentence_transitions (order : Q) (chain : MarkovChain) (sentence : string) :
  addSentence order chain sentence = forEach pushPair (transitions order sentence) chain.
Proof.
  unfold addSentence, transitions.
  destruct (String.length (cleanSentence sentence) <? 10); [reflexivity | ].
  destruct (le _ order); [reflexivity | ].
  now rewrite forEach_map.
Qed.

(** The chain is what the pushes of all sentences leave. *)
Lemma buildMarkovChain_transitions (text : string) (order : Q) :
  buildMarkovChain text order =
  forEach pushPair (flat_map (transitions order) (sentences text)) [].
Proof.
  unfold buildMarkovChain. rewrite <- forEach_flat_map.
  apply forEach_ext. intros chain sentence. apply addSentence_transitions.
Qed.

(** *** One push *)

Lemma push_own (chain : MarkovChain) key nextWord successors :
  assoc key chain = Some successors ->
  push chain key nextWord = Normal (set chain key (successors ++ [nextWord])).
Proof. intros H. unfold push, get. rewrite H. cbv zeta. now rewrite H. Qed.

Lemma push_new (chain : MarkovChain) key nextWord :
  assoc key chain = None -> assoc key Object_prototype = None ->
  push chain key nextWord = Normal (set chain key [nextWord]).
Proof.
  intros H1 H2. unfold push, get. rewrite H1, H2. cbv zeta.
  now rewrite assoc_set_same, set_set.
Qed.

Lemma push_inherited (chain : MarkovChain) key nextWord i :
  assoc key chain = None -> assoc key Object_prototype = Some i ->
  push chain key nextWord = TypeError "chain[key].push is not a function".
Proof.
  intros H1 H2. unfold push, get. rewrite H1, H2. cbv beta iota zeta.
  now rewrite H1.
Qed.

Lemma push_normal (chain chain' : MarkovChain) key nextWord :
  push chain key nextWord = Normal chain' ->
  chain' = set chain key (bagOf chain key ++ [nextWord]).
Proof.
  unfold bagOf. destruct (assoc key chain) as [b | ] eqn:E.
  - rewrite (push_own _ _ _ _ E). now intros [= <-].
  - destruct (assoc key Object_prototype) as [i | ] eqn:Ei.
    + now rewrite (push_inherited _ _ _ _ E Ei).
    + rewrite (push_new _ _ _ E Ei). now intros [= <-].
Qed.

(** *** A run of pushes *)

(** A run [H] that does not throw starts with a push that does not. *)
Ltac first_push H chain k w c1 Hpush :=
  cbn [forEach] in H; unfold pushPair at 1 in H; cbn [fst snd] in H;
  destruct (push chain k w) as [c1 | ] eqn:Hpush; [ | discriminate].

(** The bag of every key after a run of pushes that does not throw. *)
Lemma pushes_assoc (pairs : list (string * element)) (chain chain' : MarkovChain) :
  forEach pushPair pairs chain = Normal chain' ->
  forall key,
    assoc key chain' =
    match successorsOf key pairs with
    | [] => assoc key chain
    | pushed => Some (bagOf chain key ++ pushed)
    end.
Proof.
  revert chain. induction pairs as [ | [k w] pairs IH]; intros chain H key.
  - cbn in H. now inversion H.
  - first_push H chain k w c1 Hpush.
    apply push_normal in Hpush. rewrite (IH _ H key).
    unfold successorsOf. cbn [filter fst].
    destruct (String.eqb k key) eqn:E.
    + apply String.eqb_eq in E. subst k. cbn [map snd].
      assert (Hb : bagOf c1 key = bagOf chain key ++ [w]).
      { unfold bagOf at 1. now rewrite Hpush, assoc_set_same. }
      destruct (map snd (filter _ pairs)) as [ | v vs].
      * now rewrite Hpush, assoc_set_same.
      * rewrite Hb, <- app_assoc. reflexivity.
    + assert (Hne : key <> k).
      { intros ->. now rewrite String.eqb_refl in E. }
      assert (Ha : assoc key c1 = assoc key chain).
      { rewrite Hpush. now apply assoc_set_other. }
      unfold bagOf. now rewrite Ha.
Qed.

(** What holds of every pushed key and word holds of every entry. *)
Lemma pushes_entries (K : string -> Prop) (E : element -> Prop)
      (pairs : list (string * element)) (chain chain' : MarkovChain) :
  Forall (fun p => K (fst p) /\ E (snd p)) pairs ->
  Forall (fun e => K (fst e) /\ snd e <> [] /\ Forall E (snd e)) chain ->
  forEach pushPair pairs chain = Normal chain' ->
  Forall (fun e => K (fst e) /\ snd e <> [] /\ Forall E (snd e)) chain'.
Proof.
  intros Hp. revert chain. induction Hp as [ | [k w] pairs [Hk Hw] Hp IH];
    intros chain Hc H.
  - cbn in H. injection H as <-. assumption.
  - cbn [fst snd] in *. first_push H chain k w c1 Hpush.
    apply push_normal in Hpush. apply (IH c1); [ | assumption].
    rewrite Hpush. apply Forall_set; [assumption | ]. cbn [fst snd].
    split; [assumption | ]. split; [now destruct (bagOf chain k) | ].
    apply Forall_app. split; [ | now constructor].
    unfold bagOf. destruct (assoc k chain) as [b | ] eqn:Eb; [ | constructor].
    apply In_assoc in Eb. rewrite Forall_forall in Hc.
    now destruct (Hc _ Eb) as [_ [_ Hb]].
Qed.

(** A run of pushes on an empty chain throws exactly when one of its
    keys names a property of [Object.prototype]. *)
Lemma pushes_complete (pairs : list (string * element)) (chain : MarkovChain) :
  Forall (fun p => assoc (fst p) Object_prototype = None) pairs ->
  exists chain', forEach pushPair pairs chain = Normal chain'.
Proof.
  intros Hp. revert chain. induction Hp as [ | [k w] pairs Hk Hp IH]; intros chain.
  - now eexists.
  - cbn [forEach]. unfold pushPair at 1. cbn [fst snd] in *.
    destruct (assoc k chain) as [b | ] eqn:Eb.
    + rewrite (push_own _ _ _ _ Eb). apply IH.
    + rewrite (push_new _ _ _ Eb Hk). apply IH.
Qed.

Lemma pushes_throw (pairs : list (string * element)) (chain chain' : MarkovChain) :
  Forall (fun e => assoc (fst e) Object_prototype = None) chain ->
  forEach pushPair pairs chain = Normal chain' ->
  Forall (fun p => assoc (fst p) Object_prototype = None) pairs.
Proof.
  revert chain. induction pairs as [ | [k w] pairs IH]; intros chain Hc H.
  - constructor.
  - cbn [fst snd] in *. first_push H chain k w c1 Hpush.
    assert (Hk : assoc k Object_prototype = None).
    { destruct (assoc k chain) as [b | ] eqn:Eb.
      - apply In_assoc in Eb. rewrite Forall_forall in Hc. apply (Hc _ Eb).
      - destruct (assoc k Object_prototype) as [i | ] eqn:Ei; [ | reflexivity].
        now rewrite (push_inherited _ _ _ _ Eb Ei) in Hpush. }
    constructor; [assumption | ].
    apply (IH c1); [ | assumption].
    apply push_normal in Hpush. rewrite Hpush. now apply Forall_set.
Qed.

(** *** Integer orders *)

Lemma sub_int (a b : Z) :
  (Z.abs (a - b) <= 2 ^ 53)%Z -> sub (inject_Z a) (inject_Z b) = inject_Z (a - b).
Proof.
  intros H. unfold sub. apply fl_int; [ | assumption].
  unfold Z.sub. rewrite inject_Z_plus, inject_Z_opp. reflexivity.
Qed.

Lemma add_int (a b : Z) :
  (Z.abs (a + b) <= 2 ^ 53)%Z -> add (inject_Z a) (inject_Z b) = inject_Z (a + b).
Proof.
  intros H. unfold add. apply fl_int; [ | assumption].
  rewrite inject_Z_plus. reflexivity.
Qed.

Lemma le_int (a b : Z) : le (inject_Z a) (inject_Z b) = (a <=? b)%Z.
Proof.
  unfold le. destruct (a <=? b)%Z eqn:E.
  - apply Qle_bool_iff. rewrite <- Zle_Qle. now apply Z.leb_le.
  - apply Z.leb_gt in E. destruct (Qle_bool _ _) eqn:E'; [ | reflexivity].
    apply Qle_bool_iff in E'. rewrite <- Zle_Qle in E'. lia.
Qed.

Lemma lt_int (a b : Z) : lt (inject_Z a) (inject_Z b) = (a <? b)%Z.
Proof.
  unfold lt. fold (le (inject_Z b) (inject_Z a)). rewrite le_int.
  symmetry. apply Z.ltb_antisym.
Qed.

Lemma upTo_int (z : Z) :
  upTo (inject_Z z) = if (z <? 0)%Z then [] else seq 0 (S (Z.to_nat z)).
Proof. unfold upTo. change 0%Q with (inject_Z 0). now rewrite lt_int, Qfloor_Z. Qed.

Lemma truncate_int (z : Z) : truncate (inject_Z z) = z.
Proof. unfold truncate. destruct (Qle_bool 0 _); [apply Qfloor_Z | apply Qceiling_Z]. Qed.

Lemma at_int {A : Type} (l : list A) (z : Z) :
  (0 <= z)%Z -> at_ l (inject_Z z) = nth_error l (Z.to_nat z).
Proof.
  intros Hz. unfold at_, isInteger.
  rewrite (Qred_inject_Z (inject_Z z) z (Qeq_refl _)). cbn [Qden inject_Z Pos.eqb andb].
  change 0%Q with (inject_Z 0).
  replace (Qle_bool (inject_Z 0) (inject_Z z)) with true.
  - now rewrite Qfloor_Z.
  - symmetry. apply Qle_bool_iff. now rewrite <- Zle_Qle.
Qed.

Lemma slice_window {A : Type} (l : list A) (i o : nat) :
  i + o <= length l ->
  slice l (Z.of_nat i) (Z.of_nat (i + o)) = firstn o (skipn i l).
Proof.
  intros H. unfold slice, clampIndex.
  rewrite !(proj2 (Z.ltb_ge _ 0)) by lia.
  rewrite !Z.min_l by lia. rewrite !Nat2Z.id. f_equal. lia.
Qed.

(** Cleaning never makes a sentence longer, and each token takes a code
    unit of its own. *)
Lemma tokens_length (sentence : string) :
  length (tokens (cleanSentence sentence)) <= String.length sentence.
Proof.
  unfold tokens. etransitivity; [apply split_count | ].
  unfold cleanSentence. etransitivity; [apply trim_length | ].
  unfold replaceAll.
  etransitivity; [apply replaceFrom_length; cbn; lia | ].
  etransitivity; [apply replaceFrom_length; cbn; lia | ].
  apply replaceFrom_length. cbn. lia.
Qed.

(** For an integer order the pushes of a sentence are its windows. *)
Lemma transitions_int (order : nat) (sentence : string) :
  (Z.of_nat (String.length sentence) < 2 ^ 53)%Z ->
  transitions (ofNat order) sentence =
  flat_map (windows order)
    (filter (fun words => order <? length words)
       (map tokens (filter (fun line => 10 <=? String.length line)
                           [cleanSentence sentence]))).
Proof.
  intros Hlen. unfold transitions. cbn [filter].
  rewrite Nat.ltb_antisym.
  destruct (10 <=? String.length (cleanSentence sentence)); cbn [negb map filter];
    [ | reflexivity].
  set (words := tokens (cleanSentence sentence)).
  assert (Hw : (Z.of_nat (length words) < 2 ^ 53)%Z).
  { pose proof (tokens_length sentence). unfold words. lia. }
  unfold ofNat at 1 2. rewrite le_int, Nat.ltb_antisym.
  destruct (Z.of_nat (length words) <=? Z.of_nat order)%Z eqn:E.
  - apply Z.leb_le in E. rewrite (proj2 (Nat.leb_le _ _)) by lia. reflexivity.
  - apply Z.leb_gt in E. rewrite (proj2 (Nat.leb_gt _ _)) by lia.
    cbn [negb flat_map]. rewrite app_nil_r. unfold windows.
    unfold ofNat. change 1%Q with (inject_Z 1).
    rewrite !sub_int by lia. rewrite upTo_int.
    rewrite (proj2 (Z.ltb_ge _ 0)) by lia.
    replace (S (Z.to_nat (Z.of_nat (length words) - Z.of_nat order - 1)))
      with (length words - order) by lia.
    apply map_ext_in. intros i Hi. apply in_seq in Hi.
    rewrite add_int by lia. rewrite truncate_int, at_int by lia.
    rewrite <- Nat2Z.inj_add, Nat2Z.id.
    now rewrite slice_window by lia.
Qed.

Lemma sentences_length (text sentence : string) :
  In sentence (sentences text) -> String.length sentence <= String.length text.
Proof.
  unfold sentences. intros H. apply filter_In in H as [H _].
  now apply split_piece_length in H.
Qed.

Lemma flat_map_filter_map {A B C : Type} (f : B -> list C) (p : B -> bool)
      (g : A -> B) (q : A -> bool) (xs : list A) :
  flat_map (fun x => flat_map f (filter p (map g (filter q [x])))) xs =
  flat_map f (filter p (map g (filter q xs))).
Proof.
  induction xs as [ | x xs IH]; [reflexivity | ].
  change (flat_map ?F (x :: xs)) with (F x ++ flat_map F xs).
  rewrite IH. cbn [filter]. destruct (q x); cbn [map filter app]; [ | reflexivity].
  destruct (p (g x)); cbn [flat_map app]; [ | reflexivity].
  now rewrite app_nil_r.
Qed.

Lemma flat_map_map {A B C : Type} (f : B -> list C) (g : A -> B) (xs : list A) :
  flat_map f (map g xs) = flat_map (fun x => f (g x)) xs.
Proof. induction xs as [ | x xs IH]; cbn; [reflexivity | now rewrite IH]. Qed.

Lemma flat_map_ext_in {A B : Type} (f g : A -> list B) (xs : list A) :
  (forall x, In x xs -> f x = g x) -> flat_map f xs = flat_map g xs.
Proof.
  induction xs as [ | x xs IH]; intros H; cbn; [reflexivity | ].
  rewrite (H x (or_introl eq_refl)), IH; [reflexivity | ].
  intros y Hy. apply H. now right.
Qed.

(** For an integer order the chain is built from the occurrences of the
    windows of the usable lines. *)
Lemma transitions_occurrences (order : nat) (text : string) :
  (Z.of_nat (String.length text) < 2 ^ 53)%Z ->
  flat_map (transitions (ofNat order)) (sentences text) = occurrences order text.
Proof.
  intros Hlen. unfold occurrences, usableLines.
  rewrite <- (flat_map_filter_map (windows order) _ tokens _ (map cleanSentence _)).
  rewrite flat_map_map.
  apply flat_map_ext_in. intros sentence Hs. apply transitions_int.
  apply sentences_length in Hs. lia.
Qed.

Example cleanSentence_example :
  cleanSentence "  see https://x.y/z?q=1 and @bob.bsky-x!   ok http:// https://  "
  = "see and ! ok http:// https://".
Proof. vm_compute. reflexivity. Qed.

(** *** The keys of an integer order *)

Lemma In_firstn {A : Type} (x : A) (n : nat) (l : list A) :
  In x (firstn n l) -> In x l.
Proof.
  revert n. induction l as [ | a l IH]; intros [ | n] H; cbn in H;
    try contradiction.
  destruct H as [H | H]; [now left | right; eauto].
Qed.

Lemma In_skipn {A : Type} (x : A) (n : nat) (l : list A) :
  In x (skipn n l) -> In x l.
Proof.
  revert n. induction l as [ | a l IH]; intros [ | n] H; cbn in H;
    try contradiction; try assumption.
  right. eauto.
Qed.

Lemma tokens_words (s : string) :
  Forall (fun w => hasChar SPACE w = false /\ w <> EmptyString) (tokens s).
Proof.
  unfold tokens. apply Forall_forall. intros w Hw.
  apply filter_In in Hw as [Hin Hlen]. split.
  - pose proof (split_no_sep SPACE s) as H. rewrite Forall_forall in H. now apply H.
  - intros ->. discriminate.
Qed.

Lemma windows_keys (order : nat) (words : list string) :
  1 <= order ->
  Forall (fun w => hasChar SPACE w = false /\ w <> EmptyString) words ->
  Forall (fun p => split SPACE (fst p) <> [] /\
                   length (split SPACE (fst p)) = order /\
                   Forall (fun w => w <> EmptyString) (split SPACE (fst p)))
         (windows order words).
Proof.
  intros Ho Hw. unfold windows. apply Forall_forall. intros p Hp.
  apply in_map_iff in Hp as [i [<- Hi]]. apply in_seq in Hi. cbn [fst].
  set (window := firstn order (skipn i words)).
  assert (Hlen : length window = order).
  { unfold window. rewrite length_firstn, length_skipn. lia. }
  assert (Hwin : Forall (fun w => hasChar SPACE w = false /\ w <> EmptyString) window).
  { apply Forall_forall. intros w Hin. rewrite Forall_forall in Hw. apply Hw.
    unfold window in Hin. apply In_firstn, In_skipn in Hin. exact Hin. }
  change " " with (String SPACE EmptyString).
  rewrite split_join.
  - repeat split; [destruct window; [cbn in Hlen; lia | congruence] | assumption | ].
    eapply Forall_impl; [ | exact Hwin]. now intros w [_ H].
  - destruct window; [cbn in Hlen; lia | congruence].
  - eapply Forall_impl; [ | exact Hwin]. now intros w [H _].
Qed.

Lemma occurrences_keys (order : nat) (text : string) :
  1 <= order ->
  Forall (fun p => length (split SPACE (fst p)) = order /\
                   Forall (fun w => w <> EmptyString) (split SPACE (fst p)))
         (occurrences order text).
Proof.
  intros Ho. unfold occurrences. apply Forall_flat_map. apply Forall_forall.
  intros words Hin. unfold usableLines in Hin.
  apply filter_In in Hin as [Hin _]. apply in_map_iff in Hin as [line [<- _]].
  eapply Forall_impl; [ | apply windows_keys; [assumption | apply tokens_words]].
  now intros p [_ H].
Qed.

Lemma buildMarkovChain_int (text : string) (order : nat) :
  (Z.of_nat (String.length text) < 2 ^ 53)%Z ->
  buildMarkovChain text (ofNat order) = forEach pushPair (occurrences order text) [].
Proof.
  intros H. now rewrite buildMarkovChain_transitions, transitions_occurrences.
Qed.

(** *** Orders between 1 and 2 *)

Lemma upTo_In (bound : Q) (i : nat) :
  In i (upTo bound) -> (ofNat i <= bound)%Q.
Proof.
  unfold upTo, lt. destruct (Qle_bool 0 bound) eqn:E.
  - apply Qle_bool_iff in E. destruct (Qle_bool bound 0) eqn:E'; cbn [negb].
    + apply Qle_bool_iff in E'. intros Hi. apply in_seq in Hi.
      assert (Hb : (bound == 0)%Q) by now apply Qle_antisym.
      assert (Hf : Qfloor bound = 0%Z) by now rewrite (Qfloor_comp _ _ Hb).
      rewrite Hf in Hi. replace i with 0 by (cbn in Hi; lia). exact E.
    + intros Hi. apply in_seq in Hi.
      assert (Hf : (0 <= Qfloor bound)%Z).
      { change 0%Z with (Qfloor 0). now apply Qfloor_resp_le. }
      apply Qle_trans with (inject_Z (Qfloor bound)); [ | apply Qfloor_le].
      unfold ofNat. rewrite <- Zle_Qle. lia.
  - destruct (Qle_bool bound 0) eqn:E'; cbn [negb]; [intros [] | ].
    exfalso. destruct (Qlt_le_dec bound 0) as [Hlt | Hge].
    + apply Qlt_le_weak in Hlt. apply Qle_bool_iff in Hlt. congruence.
    + apply Qle_bool_iff in Hge. congruence.
Qed.

Lemma isInteger_between (y : Q) (k : Z) :
  (inject_Z k < y)%Q -> (y < inject_Z (k + 1))%Q -> isInteger y = false.
Proof.
  intros H1 H2. unfold isInteger.
  destruct (Pos.eqb (Qden (Qred y)) 1) eqn:E; [exfalso | reflexivity].
  apply Pos.eqb_eq in E.
  assert (Hy : (y == inject_Z (Qnum (Qred y)))%Q).
  { rewrite <- (Qred_correct y) at 1. destruct (Qred y) as [n d]. cbn in *.
    subst d. reflexivity. }
  rewrite Hy in H1, H2. rewrite <- Zlt_Qlt in H1, H2. lia.
Qed.

(** With the order at least [2^-20] away from 1 and from 2, and fewer
    than [2^32] words, no window is followed by a word. *)
Lemma transitions_fraction (order : Q) (sentence : string) :
  (1 + (1 # 1048576) <= order)%Q -> (order <= 2 - (1 # 1048576))%Q ->
  (Z.of_nat (String.length sentence) < 2 ^ 32)%Z ->
  Forall (fun p => True /\ snd p = None) (transitions order sentence).
Proof.
  intros Ho1 Ho2 Hlen. unfold transitions.
  destruct (String.length (cleanSentence sentence) <? 10); [constructor | ].
  set (words := tokens (cleanSentence sentence)).
  assert (Hw : (Z.of_nat (length words) < 2 ^ 32)%Z).
  { pose proof (tokens_length sentence). unfold words. lia. }
  destruct (le (ofNat (length words)) order); [constructor | ].
  apply Forall_forall. intros p Hp. apply in_map_iff in Hp as [i [<- Hi]].
  split; [exact I | ]. cbn [snd]. apply upTo_In in Hi.
  assert (HN : (0 <= ofNat (length words) /\ ofNat (length words) < 4294967296)%Q).
  { unfold ofNat. change 0%Q with (inject_Z 0).
    change 4294967296%Q with (inject_Z (2 ^ 32)).
    rewrite <- Zle_Qle, <- Zlt_Qlt. lia. }
  assert (HI : (0 <= ofNat i)%Q).
  { unfold ofNat. change 0%Q with (inject_Z 0). rewrite <- Zle_Qle. lia. }
  set (N := ofNat (length words)) in *. set (I' := ofNat i) in *.
  unfold sub in Hi.
  assert (Ha : (Qabs (N - order) < 8589934592)%Q)
    by (apply Qabs_Qlt_condition; split; lra).
  destruct (fl_near _ Ha) as [Ha1 Ha2].
  assert (Hb : (Qabs (fl (N - order) - 1) < 8589934592)%Q)
    by (apply Qabs_Qlt_condition; split; lra).
  destruct (fl_near _ Hb) as [Hb1 Hb2].
  unfold add.
  assert (Hx : (Qabs (I' + order) < 8589934592)%Q)
    by (apply Qabs_Qlt_condition; split; lra).
  destruct (fl_near _ Hx) as [Hx1 Hx2].
  unfold at_. rewrite (isInteger_between _ (Z.of_nat i + 1)); [reflexivity | | ].
  - rewrite inject_Z_plus. fold (ofNat i). fold I'. change (inject_Z 1) with 1%Q. lra.
  - rewrite !inject_Z_plus. fold (ofNat i). fold I'. change (inject_Z 1) with 1%Q. lra.
Qed.

End BuildFacts.

(** ** buildMarkovChain: the chain *)

Module BuildClaims.
Import JsString JsNumber JsObject Markov Spec.
Import NumberFacts StringFacts ObjectFacts BuildFacts.
Local Open Scope Z_scope.

Lemma ofNat_to_nat (z : Z) : 0 <= z -> ofNat (Z.to_nat z) = inject_Z z.
Proof. intros H. unfold ofNat. now rewrite Z2Nat.id. Qed.

(** C1.  For a corpus of at most [2^53 - 1] code units (the longest
    string there is) and an integer order of at least 1, every key of the
    chain that [buildMarkovChain] returns splits at its spaces into
    exactly [order] words, none of them empty, and the bag stored under
    the key is not empty. *)
Theorem C1_keys_and_bags (text : string) (order : Z) (chain : MarkovChain) :
  1 <= order ->
  Z.of_nat (String.length text) < 2 ^ 53 ->
  buildMarkovChain text (inject_Z order) = Normal chain ->
  forall key successors,
    In (key, successors) chain ->
    length (split SPACE key) = Z.to_nat order /\
    Forall (fun word => word <> EmptyString) (split SPACE key) /\
    successors <> [].
Proof.
  intros Ho Hlen Hbuild key successors Hin.
  rewrite <- ofNat_to_nat, buildMarkovChain_int in Hbuild by lia.
  pose proof (pushes_entries
                (fun k => length (split SPACE k) = Z.to_nat order /\
                          Forall (fun word => word <> EmptyString) (split SPACE k))
                (fun _ => True) _ _ _
                (Forall_impl _ (fun p H => conj H I)
                             (occurrences_keys (Z.to_nat order) text ltac:(lia)))
                (Forall_nil _) Hbuild) as Hall.
  rewrite Forall_forall in Hall.
  destruct (Hall _ Hin) as [[H1 H2] [H3 _]]. auto.
Qed.

Lemma C1_keys_and_bags_witness :
  length (split SPACE "love sunny") = 2%nat /\
  Forall (fun word => word <> EmptyString) (split SPACE "love sunny") /\
  [Some "days."; Some "mornings."] <> [].
Proof.
  apply (C1_keys_and_bags corpus 2
           [("I love", [Some "sunny"; Some "rainy"; Some "sunny"]);
            ("love sunny", [Some "days."; Some "mornings."]);
            ("love rainy", [Some "days."])]).
  - lia.
  - vm_compute. reflexivity.
  - vm_compute. reflexivity.
  - cbn. auto.
Defined.

(** Whenever [buildMarkovChain] returns, for an integer order of at least
    1, the bag under a key is the list of the words that follow the
    occurrences of the key in the usable lines, in corpus order and with
    repetitions; a key that occurs nowhere is not in the chain. *)
Theorem buildMarkovChain_successors (text : string) (order : Z) (chain : MarkovChain) :
  1 <= order ->
  Z.of_nat (String.length text) < 2 ^ 53 ->
  buildMarkovChain text (inject_Z order) = Normal chain ->
  forall key,
    assoc key chain =
    match successorsOf key (occurrences (Z.to_nat order) text) with
    | [] => None
    | successors => Some successors
    end.
Proof.
  intros Ho Hlen Hbuild key.
  rewrite <- ofNat_to_nat, buildMarkovChain_int in Hbuild by lia.
  now rewrite (pushes_assoc _ _ _ Hbuild key).
Qed.

Lemma buildMarkovChain_successors_witness :
  assoc "I love" [("I love", [Some "sunny"; Some "rainy"; Some "sunny"]);
                  ("love sunny", [Some "days."; Some "mornings."]);
                  ("love rainy", [Some "days."])] =
  match successorsOf "I love" (occurrences (Z.to_nat 2) corpus) with
  | [] => None
  | successors => Some successors
  end.
Proof.
  apply (buildMarkovChain_successors corpus 2).
  - lia.
  - vm_compute. reflexivity.
  - vm_compute. reflexivity.
Defined.

(** For an integer order of at least 1, [buildMarkovChain] returns a
    chain exactly when no window of a usable line is the name of a
    property of [Object.prototype]; otherwise it throws. *)
Theorem buildMarkovChain_returns (text : string) (order : Z) :
  1 <= order ->
  Z.of_nat (String.length text) < 2 ^ 53 ->
  (exists chain, buildMarkovChain text (inject_Z order) = Normal chain) <->
  Forall (fun p => assoc (fst p) Object_prototype = None)
         (occurrences (Z.to_nat order) text).
Proof.
  intros Ho Hlen. rewrite <- ofNat_to_nat, buildMarkovChain_int by lia. split.
  - intros [chain H]. now apply (pushes_throw _ [] chain).
  - apply pushes_complete.
Qed.

Lemma buildMarkovChain_returns_witness :
  (exists chain, buildMarkovChain corpus (inject_Z 2) = Normal chain) <->
  Forall (fun p => assoc (fst p) Object_prototype = None)
         (occurrences (Z.to_nat 2) corpus).
Proof.
  apply (buildMarkovChain_returns corpus 2).
  - lia.
  - vm_compute. reflexivity.
Defined.

(** The example of the specification: with order 2, the key "I love"
    maps to "sunny", "rainy", "sunny", in this order. *)
Example buildMarkovChain_I_love :
  buildMarkovChain corpus 2 =
  Normal [("I love", [Some "sunny"; Some "rainy"; Some "sunny"]);
          ("love sunny", [Some "days."; Some "mornings."]);
          ("love rainy", [Some "days."])].
Proof. vm_compute. reflexivity. Qed.

(** C2.  The line "constructor is here" is usable at order 1 and holds
    the window "constructor" followed by "is", but [buildMarkovChain]
    returns no chain for it: [chain["constructor"]] is the inherited
    [Object], which is truthy and has no [push]. *)
Theorem C2_inherited_key_throws :
  In ("constructor", Some "is") (occurrences 1 "constructor is here") /\
  buildMarkovChain "constructor is here" 1 =
  TypeError "chain[key].push is not a function".
Proof. split; [vm_compute; auto | vm_compute; reflexivity]. Qed.

(** One cleaned line of at least 10 characters with [order + 1] tokens
    gives one key, the first [order] tokens, with the last token as its
    only successor, unless the key names a property of
    [Object.prototype]. *)
Theorem single_line_one_key (text sentence : string) (order : Z) :
  1 <= order ->
  Z.of_nat (String.length text) < 2 ^ 53 ->
  sentences text = [sentence] ->
  (10 <= String.length (cleanSentence sentence))%nat ->
  length (tokens (cleanSentence sentence)) = (Z.to_nat order + 1)%nat ->
  let words := tokens (cleanSentence sentence) in
  let key := join " " (firstn (Z.to_nat order) words) in
  assoc key Object_prototype = None ->
  buildMarkovChain text (inject_Z order) =
  Normal [(key, [nth_error words (Z.to_nat order)])].
Proof.
  intros Ho Hlen Hs Hclean Htok words key Hkey.
  rewrite <- ofNat_to_nat, buildMarkovChain_int by lia.
  unfold occurrences, usableLines. rewrite Hs. cbn [map filter].
  rewrite (proj2 (Nat.leb_le _ _) Hclean). cbn [map filter].
  rewrite (proj2 (Nat.ltb_lt _ _)) by lia. cbn [flat_map].
  unfold windows. rewrite Htok.
  replace (Z.to_nat order + 1 - Z.to_nat order)%nat with 1%nat by lia.
  cbn [seq map app forEach]. unfold pushPair. cbn [fst snd skipn Nat.add].
  fold words. fold key. now rewrite push_new.
Qed.

Lemma single_line_one_key_witness :
  buildMarkovChain "alpha beta gamma" (inject_Z 2) =
  Normal [("alpha beta", [Some "gamma"])].
Proof.
  apply (single_line_one_key "alpha beta gamma" "alpha beta gamma" 2).
  - lia.
  - vm_compute. reflexivity.
  - vm_compute. reflexivity.
  - vm_compute. repeat constructor.
  - vm_compute. reflexivity.
  - vm_compute. reflexivity.
Defined.

(** C6.  The corpus "constructor abc" is one cleaned line of 15
    characters and two tokens, one more than the order 1, and
    [buildMarkovChain] produces no key for it: it throws. *)
Theorem C6_single_line_throws :
  sentences "constructor abc" = ["constructor abc"] /\
  String.length (cleanSentence "constructor abc") = 15%nat /\
  tokens (cleanSentence "constructor abc") = ["constructor"; "abc"] /\
  buildMarkovChain "constructor abc" 1 =
  TypeError "chain[key].push is not a function".
Proof. repeat split; vm_compute; reflexivity. Qed.

(** C9, as stated: with the order [1 + 2^-52], the binary64 next above
    1, the sums [1 + order] and [2 + order] round to the integers 2 and
    3, and the bags of "bbbb" and "cccc" hold words of the corpus. *)
Lemma C9_rounded_index_counterexample :
  let order := (1 + (1 # 4503599627370496))%Q in
  (1 < order)%Q /\ (order < 2)%Q /\ isInteger order = false /\
  fl order = order /\
  add (ofNat 1) order = 2%Q /\
  buildMarkovChain "aaaa bbbb cccc dddd" order =
  Normal [("aaaa", [None]); ("bbbb", [Some "cccc"]); ("cccc", [Some "dddd"])].
Proof. repeat split; vm_compute; reflexivity. Qed.

(** C9, amended.  For every order between [1 + 2^-20] and [2 - 2^-20],
    such as 1.94, and every corpus of fewer than [2^32] code units, every
    bag of the chain that [buildMarkovChain] returns is non-empty and
    holds [undefined] only: each push reads the words at the index
    [i + order], which is not an integer. *)
Theorem C9_fractional_order_undefined (text : string) (order : Q) (chain : MarkovChain) :
  (1 + (1 # 1048576) <= order)%Q -> (order <= 2 - (1 # 1048576))%Q ->
  Z.of_nat (String.length text) < 2 ^ 32 ->
  buildMarkovChain text order = Normal chain ->
  forall key successors,
    In (key, successors) chain ->
    successors <> [] /\ Forall (fun nextWord => nextWord = None) successors.
Proof.
  intros Ho1 Ho2 Hlen Hbuild key successors Hin.
  rewrite buildMarkovChain_transitions in Hbuild.
  assert (Hp : Forall (fun p => True /\ snd p = None)
                      (flat_map (transitions order) (sentences text))).
  { apply Forall_flat_map. apply Forall_forall. intros sentence Hs.
    apply transitions_fraction; try assumption.
    apply sentences_length in Hs. lia. }
  pose proof (pushes_entries (fun _ => True) (fun w => w = None) _ _ _
                             Hp (Forall_nil _) Hbuild) as Hall.
  rewrite Forall_forall in Hall. now destruct (Hall _ Hin) as [_ H].
Qed.

Lemma C9_fractional_order_undefined_witness :
  ([None; None; None] : list element) <> [] /\
  Forall (fun nextWord : element => nextWord = None) [None; None; None].
Proof.
  apply (C9_fractional_order_undefined corpus (literal 1.94)
           [("I", [None; None; None]); ("love", [None; None; None])] 
           ltac:(vm_compute; discriminate) ltac:(vm_compute; discriminate)
           ltac:(vm_compute; reflexivity) ltac:(vm_compute; reflexivity)
           "love" [None; None; None]).
  cbn. auto.
Defined.

End BuildClaims.

(** ** generateText *)

Module GenerateFacts.
Import JsString JsNumber JsObject Markov Spec.
Import NumberFacts StringFacts ObjectFacts BuildFacts.

Section Generation.

Variable Math_random : nat -> Q.

(** *** Random picks *)

Lemma pick_In {A : Type} (l : list A) (w w' : world) (x : A) :
  pick Math_random l w = (Some x, w') -> In x l.
Proof.
  unfold pick, random, at_. intros H. injection H as H _.
  destruct (_ && _); [ | discriminate]. now apply nth_error_In in H.
Qed.

Lemma pick_world {A : Type} (l : list A) (w : world) :
  snd (pick Math_random l w) = snd (random Math_random w).
Proof. reflexivity. Qed.

(** A draw from the unit interval picks an element. *)
Lemma pick_Some {A : Type} (l : list A) (w : world) :
  unitInterval (Math_random (draws w)) ->
  (0 < Z.of_nat (length l) < 2 ^ 53)%Z ->
  exists x, pick Math_random l w = (Some x, snd (random Math_random w)).
Proof.
  intros [Hr0 Hr1] Hl. unfold pick, random. cbn [snd].
  pose proof (random_index _ _ Hr0 Hr1 Hl) as Hi. fold (ofNat (length l)) in Hi.
  rewrite at_int by lia.
  destruct (nth_error l (Z.to_nat _)) as [x | ] eqn:E; [now exists x | exfalso].
  apply nth_error_None in E. lia.
Qed.

(** *** The walk *)

Lemma drawNextWord_appended (chain : MarkovChain) (currentKey : string)
      (w w' : world) (nextWord : element) :
  drawNextWord Math_random chain currentKey w = Next nextWord w' ->
  appended chain nextWord.
Proof.
  unfold drawNextWord, get.
  destruct (assoc currentKey chain) as [[ | v vs] | ] eqn:E; [discriminate | | ].
  - destruct (pick Math_random (v :: vs) w) as [[picked | ] w1] eqn:Ep.
    + intros [= <- _]. right. exists currentKey, (v :: vs). split; [assumption | ].
      now apply pick_In in Ep.
    + intros [= <- _]. now left.
  - destruct (assoc currentKey Object_prototype) as [[[ | n] | ] | ];
      try discriminate; intros [= <- _]; now left.
Qed.

Lemma lt_ofNat (n : nat) (q : Q) : lt (ofNat n) q = true -> (ofNat n < q)%Q.
Proof.
  unfold lt. intros H. apply negb_true_iff in H.
  destruct (Qlt_le_dec (ofNat n) q) as [ | Hle]; [assumption | exfalso].
  apply Qle_bool_iff in Hle. congruence.
Qed.

Lemma ofNat_S (n : nat) : (ofNat (S n) == ofNat n + 1)%Q.
Proof. unfold ofNat. rewrite Nat2Z.inj_succ, <- Z.add_1_r, inject_Z_plus. reflexivity. Qed.

Lemma ofNat_plus (n m : nat) : (ofNat (n + m) == ofNat n + ofNat m)%Q.
Proof. unfold ofNat. rewrite Nat2Z.inj_add, inject_Z_plus. reflexivity. Qed.

Lemma ofNat_le (n m : nat) : n <= m -> (ofNat n <= ofNat m)%Q.
Proof. intros H. unfold ofNat. rewrite <- Zle_Qle. lia. Qed.

Lemma spaced_last (result : string) (words : list element) (nextWord : element) :
  spaced result (words ++ [nextWord])
  = (spaced result words ++ " " ++ toString nextWord)%string.
Proof. unfold spaced. now rewrite fold_left_app. Qed.

(** [appendedWords] is the trail of [walk]: the walk returns its start
    with the appended words behind it, each of them drawn from the
    chain, and before the last of them was appended the text was
    shorter than [maxLength]. *)
Lemma walk_appendedWords (fuel : nat) (chain : MarkovChain) (maxLength order : Q)
      (result currentKey : string) (w : world) :
  fst (walk Math_random fuel chain maxLength order result currentKey w)
  = spaced result
      (appendedWords Math_random fuel chain maxLength order result currentKey w) /\
  (appendedWords Math_random fuel chain maxLength order result currentKey w = [] \/
   exists earlier nextWord,
     appendedWords Math_random fuel chain maxLength order result currentKey w
     = earlier ++ [nextWord] /\
     appended chain nextWord /\
     lt (ofNat (String.length (spaced result earlier))) maxLength = true).
Proof.
  revert result currentKey w.
  induction fuel as [ | fuel IH]; intros result currentKey w;
    cbn [walk appendedWords].
  - split; [reflexivity | now left].
  - destruct (lt (ofNat (String.length result)) maxLength) eqn:Hlt;
      [ | split; [reflexivity | now left]].
    destruct (drawNextWord Math_random chain currentKey w) as [ | nextWord w1] eqn:Hd;
      [split; [reflexivity | now left] | ].
    apply drawNextWord_appended in Hd.
    assert (Hone : [nextWord] = [] ++ [nextWord] /\
                   appended chain nextWord /\
                   lt (ofNat (String.length (spaced result []))) maxLength = true)
      by (repeat split; assumption).
    cbv zeta.
    destruct (le order _);
      [ | split; [reflexivity | right; now exists [], nextWord]].
    destruct (_ && _); [split; [reflexivity | right; now exists [], nextWord] | ].
    set (result' := (result ++ " " ++ toString nextWord)%string).
    set (currentKey' := join " " _).
    destruct (IH result' currentKey' w1) as [Hr Hw]. split; [exact Hr | right].
    destruct Hw as [-> | [earlier [word [-> [Ha Hl]]]]].
    + now exists [], nextWord.
    + exists (nextWord :: earlier), word. repeat split; assumption.
Qed.

(** *** The clean-up *)

Lemma stopAt_length (words : list string) (indices : list nat) (result : string) :
  String.length (join " " words) <= String.length result ->
  String.length (stopAt words indices result) <= String.length result.
Proof.
  intros H. induction indices as [ | i rest IH]; cbn [stopAt]; [lia | ].
  destruct (endsWithSentenceEnd _); [ | assumption].
  unfold slice. replace (clampIndex (length words) 0) with 0
    by (unfold clampIndex; cbn [Z.ltb Z.compare]; lia).
  cbn [skipn]. rewrite Nat.sub_0_r.
  etransitivity; [apply join_firstn_length | assumption].
Qed.

Lemma tidy_length (result : string) :
  String.length (tidy result) <= String.length result.
Proof.
  unfold tidy. pose proof (trim_length result) as Ht.
  destruct (_ && _); [ | assumption].
  etransitivity; [apply stopAt_length | assumption].
  change " " with (String SPACE EmptyString). now rewrite join_split.
Qed.

(** *** One candidate *)

(** A candidate is the clean-up of a walk from one of the keys; either
    the walk appended nothing to the key, or the text was shorter than
    [maxLength] before the last word of its trail was appended, which
    bounds the candidate by [maxLength] and that word. *)
Lemma candidate_last (chain : MarkovChain) (keys : list string)
      (maxLength : Z) (order : Q) (w : world) (r : string) (w' : world) :
  candidate Math_random chain keys (inject_Z maxLength) order w = (Normal r, w') ->
  exists startKey w0 walked,
    In startKey keys /\
    walk Math_random (Z.to_nat (Qceiling (inject_Z maxLength))) chain
         (inject_Z maxLength) order startKey startKey w0 = (walked, w') /\
    r = tidy walked /\
    ((appendedWords Math_random (Z.to_nat (Qceiling (inject_Z maxLength))) chain
                    (inject_Z maxLength) order startKey startKey w0 = [] /\
      walked = startKey /\
      String.length r <= String.length startKey)
     \/
     exists earlier nextWord,
       appendedWords Math_random (Z.to_nat (Qceiling (inject_Z maxLength))) chain
                     (inject_Z maxLength) order startKey startKey w0
       = earlier ++ [nextWord] /\
       appended chain nextWord /\
       walked = (spaced startKey earlier ++ " " ++ toString nextWord)%string /\
       (Z.of_nat (String.length (spaced startKey earlier)) < maxLength)%Z /\
       (Z.of_nat (String.length r)
        <= maxLength + Z.of_nat (String.length (toString nextWord)))%Z).
Proof.
  unfold candidate.
  destruct (if 0 <? length (filter startsWithCapital keys)
            then pick Math_random (filter startsWithCapital keys) w
            else pick Math_random keys w) as [[startKey | ] w1] eqn:Ep;
    [ | discriminate].
  assert (Hin : In startKey keys).
  { destruct (0 <? _); apply pick_In in Ep; [ | assumption].
    now apply filter_In in Ep as [Ep _]. }
  destruct (walk _ _ _ _ _ _ _ _) as [r0 w2] eqn:Hw. intros [= <- <-].
  exists startKey, w1, r0. repeat split; try assumption.
  destruct (walk_appendedWords (Z.to_nat (Qceiling (inject_Z maxLength))) chain
              (inject_Z maxLength) order startKey startKey w1) as [Hr Hcases].
  rewrite Hw in Hr. cbn [fst] in Hr. pose proof (tidy_length r0) as Ht.
  destruct Hcases as [E | [earlier [nextWord [E [Ha Hl]]]]].
  - left. rewrite E in Hr. cbn in Hr. subst r0. repeat split; assumption.
  - right. exists earlier, nextWord. rewrite E, spaced_last in Hr.
    apply lt_ofNat in Hl. unfold ofNat in Hl. rewrite <- Zlt_Qlt in Hl.
    repeat split; try assumption.
    rewrite Hr in Ht at 2.
    rewrite !length_append in Ht. cbn [String.length] in Ht. lia.
Qed.

(** With draws from the unit interval and at least one key, a candidate
    is generated: the start key is never [undefined]. *)
Lemma candidate_normal (chain : MarkovChain) (keys : list string)
      (maxLength order : Q) (w : world) :
  unitInterval (Math_random (draws w)) ->
  (0 < Z.of_nat (length keys) < 2 ^ 53)%Z ->
  exists r w', candidate Math_random chain keys maxLength order w = (Normal r, w').
Proof.
  intros Hr Hk. unfold candidate.
  assert (Hs : length (filter startsWithCapital keys) <= length keys)
    by apply filter_length_le.
  destruct (0 <? length (filter startsWithCapital keys)) eqn:E.
  - apply Nat.ltb_lt in E.
    destruct (pick_Some (filter startsWithCapital keys) w Hr ltac:(lia)) as [x ->].
    destruct (walk _ _ _ _ _ _ _ _). now eexists _, _.
  - destruct (pick_Some keys w Hr Hk) as [x ->].
    destruct (walk _ _ _ _ _ _ _ _). now eexists _, _.
Qed.

(** *** The duplicate test *)

Lemma codeUnit_listed (c : ascii) : In c (map ascii_of_nat (seq 0 256)).
Proof.
  apply in_map_iff. exists (nat_of_ascii c).
  split; [apply ascii_nat_embedding | ].
  apply in_seq. pose proof (nat_ascii_bounded c). lia.
Qed.

(** Two code units have the same lower-case form exactly when they are
    the same letter: checked on each of the 256 * 256 pairs. *)
Lemma lowerChar_sameLetter (a b : ascii) :
  Ascii.eqb (lowerChar a) (lowerChar b) = sameLetter a b.
Proof.
  assert (H : forallb (fun a =>
                forallb (fun b =>
                  Bool.eqb (Ascii.eqb (lowerChar a) (lowerChar b)) (sameLetter a b))
                  (map ascii_of_nat (seq 0 256)))
                (map ascii_of_nat (seq 0 256)) = true) by (vm_compute; reflexivity).
  rewrite forallb_forall in H. specialize (H a (codeUnit_listed a)).
  rewrite forallb_forall in H. specialize (H b (codeUnit_listed b)).
  now apply Bool.eqb_prop in H.
Qed.

(** What [toLowerCase] identifies are the strings that differ at most
    in the case of their letters. *)
Lemma toLowerCase_equalIgnoringCase (a b : string) :
  toLowerCase a = toLowerCase b <-> equalIgnoringCase a b = true.
Proof.
  revert b. induction a as [ | x a IH]; intros [ | y b];
    cbn [toLowerCase equalIgnoringCase].
  - split; reflexivity.
  - split; discriminate.
  - split; discriminate.
  - rewrite andb_true_iff, <- lowerChar_sameLetter, <- IH, Ascii.eqb_eq. split.
    + intros [= H1 H2]. split; assumption.
    + intros [-> ->]. reflexivity.
Qed.

Lemma some_spec {A : Type} (p : A -> bool) (l : list A) :
  fst (some p l) = true <-> exists x, In x l /\ p x = true.
Proof.
  induction l as [ | x l IH]; cbn.
  - split; [discriminate | now intros [x [[] _]]].
  - destruct (p x) eqn:E; cbn.
    + split; [intros _; exists x; auto | reflexivity].
    + destruct (some p l) as [found n]. cbn in *. rewrite IH. split.
      * intros [y [Hy Hp]]. exists y. auto.
      * intros [y [[<- | Hy] Hp]]; [congruence | now exists y].
Qed.

Lemma isDuplicate_spec (originalText : list string) (result : string) (w : world) :
  fst (isDuplicate originalText result w) = true <->
  exists line, In line originalText /\ toLowerCase (trim line) = toLowerCase result.
Proof.
  unfold isDuplicate.
  destruct (some _ originalText) as [found n] eqn:E. cbn [fst].
  replace found with (fst (some (fun line => String.eqb (toLowerCase (trim line))
                                                       (toLowerCase result))
                                originalText)) by now rewrite E.
  rewrite some_spec. split; intros [line [Hin H]]; exists line; split; auto.
  - now apply String.eqb_eq.
  - now apply String.eqb_eq.
Qed.

Lemma isDuplicate_ignoring_case (originalText : list string) (result : string)
      (w : world) :
  fst (isDuplicate originalText result w) = true <->
  exists line, In line originalText /\ equalIgnoringCase (trim line) result = true.
Proof.
  rewrite isDuplicate_spec.
  split; intros [line [Hin H]]; exists line; split; try assumption;
    now apply toLowerCase_equalIgnoringCase.
Qed.

(** *** The attempts *)

(** The counter of the model and the test of the loop agree. *)
Lemma attemptsLeft_spec (maxAttempts : Q) (attempts : nat) :
  lt (ofNat attempts) maxAttempts = (attempts <? attemptsLeft maxAttempts).
Proof.
  unfold attemptsLeft, lt.
  destruct (attempts <? Z.to_nat (Qceiling maxAttempts)) eqn:E.
  - apply Nat.ltb_lt in E. apply negb_true_iff.
    destruct (Qle_bool maxAttempts (ofNat attempts)) eqn:E'; [exfalso | reflexivity].
    apply Qle_bool_iff in E'. apply Qceiling_resp_le in E'.
    unfold ofNat in E'. rewrite Qceiling_Z in E'. lia.
  - apply Nat.ltb_ge in E. apply negb_false_iff, Qle_bool_iff.
    apply Qle_trans with (inject_Z (Qceiling maxAttempts)); [apply Qle_ceiling | ].
    unfold ofNat. rewrite <- Zle_Qle. lia.
Qed.

(** What holds of the initial result and of every candidate holds of
    what the loop returns. *)
Lemma attempt_result (P : string -> Prop) (chain : MarkovChain) (keys : list string)
      (maxLength order : Q) (originalText : list string) (maxAttempts : Q) :
  (forall w r w',
      candidate Math_random chain keys maxLength order w = (Normal r, w') -> P r) ->
  forall remaining attempts result w r w',
    P result ->
    attempt Math_random remaining attempts chain keys maxLength order
            originalText maxAttempts result w = (Normal r, w') ->
    P r.
Proof.
  intros Hc. induction remaining as [ | remaining IH];
    intros attempts result w r w' Hres; cbn [attempt].
  - now intros [= <- _].
  - destruct (candidate _ _ _ _ _ w) as [[r1 | m] w1] eqn:E; [ | discriminate].
    apply Hc in E.
    destruct (isDuplicate originalText r1 w1) as [duplicate w2].
    destruct duplicate; cbn [negb].
    + now apply IH.
    + now intros [= <- _].
Qed.

(** What the loop returns is a candidate that it generated, unless no
    attempt was allowed. *)
Lemma attempt_candidate (chain : MarkovChain) (keys : list string)
      (maxLength order : Q) (originalText : list string) (maxAttempts : Q)
      (remaining attempts : nat) (result : string) (w : world)
      (r : string) (w' : world) :
  attempt Math_random remaining attempts chain keys maxLength order
          originalText maxAttempts result w = (Normal r, w') ->
  (remaining = 0 /\ r = result) \/
  exists w0 w1, candidate Math_random chain keys maxLength order w0 = (Normal r, w1).
Proof.
  revert attempts result w. induction remaining as [ | remaining IH];
    intros attempts result w; cbn [attempt].
  - intros [= <- _]. left. split; reflexivity.
  - destruct (candidate _ _ _ _ _ w) as [[r1 | m] w1] eqn:E; [ | discriminate].
    destruct (isDuplicate originalText r1 w1) as [duplicate w2].
    destruct duplicate; cbn [negb].
    + intros H. apply IH in H. destruct H as [[_ ->] | H]; right; [ | exact H].
      now exists w, w1.
    + intros [= <- _]. right. now exists w, w1.
Qed.

Lemma last_cons {A : Type} (x d : A) (l : list A) : last (x :: l) d = last l x.
Proof.
  revert x d. induction l as [ | y l IH]; intros x d; [reflexivity | ].
  change (last (x :: y :: l) d) with (last (y :: l) d). now rewrite !IH.
Qed.

(** The loop returns the first candidate that is no duplicate, or, when
    every allowed attempt gave a duplicate, the last of them. *)
Lemma attempt_retries (chain : MarkovChain) (keys : list string)
      (maxLength order : Q) (originalText : list string) (maxAttempts : Q) :
  (forall k, unitInterval (Math_random k)) ->
  (0 < Z.of_nat (length keys) < 2 ^ 53)%Z ->
  forall remaining attempts result w,
  exists duplicates attempts' wd,
    retries Math_random chain keys maxLength order originalText
            attempts w duplicates attempts' wd /\
    attempts' = attempts + length duplicates /\
    ((attempts' < attempts + remaining /\
      exists r w1 w',
        candidate Math_random chain keys maxLength order wd = (Normal r, w1) /\
        isDuplicate originalText r w1 = (false, w') /\
        attempt Math_random remaining attempts chain keys maxLength order
                originalText maxAttempts result w = (Normal r, w'))
     \/
     (attempts' = attempts + remaining /\
      attempt Math_random remaining attempts chain keys maxLength order
              originalText maxAttempts result w
      = (Normal (last duplicates result), log (LogExhausted maxAttempts) wd))).
Proof.
  intros Hr Hk. induction remaining as [ | remaining IH]; intros attempts result w.
  - exists [], attempts, w. split; [constructor | ]. split; [cbn; lia | ].
    right. split; [lia | reflexivity].
  - destruct (candidate_normal chain keys maxLength order w (Hr _) Hk)
      as [r [w1 Hc]].
    destruct (isDuplicate originalText r w1) as [[ | ] w2] eqn:Hd.
    + destruct (IH (S attempts) r (log (LogRetry (S attempts)) w2))
        as [duplicates [attempts' [wd [Hret [Hn Hcases]]]]].
      exists (r :: duplicates), attempts', wd.
      split; [now apply retries_more with (w1 := w1) (w2 := w2) | ].
      split; [cbn [length]; lia | ].
      cbn [attempt]. rewrite Hc, Hd. cbn [negb]. rewrite last_cons.
      destruct Hcases as [[Hlt H] | [Heq H]]; [left | right]; (split; [lia | exact H]).
    + exists [], attempts, w. split; [constructor | ]. split; [cbn; lia | ].
      left. split; [lia | ]. exists r, w1, w2. repeat split; try assumption.
      cbn [attempt]. now rewrite Hc, Hd.
Qed.

(** *** The fuel of the walk *)

Lemma lt_ceiling (n : nat) (q : Q) :
  lt (ofNat n) q = true -> n < Z.to_nat (Qceiling q).
Proof.
  intros H. apply lt_ofNat in H.
  assert (H' : (ofNat n < inject_Z (Qceiling q))%Q)
    by (eapply Qlt_le_trans; [exact H | apply Qle_ceiling]).
  unfold ofNat in H'. rewrite <- Zlt_Qlt in H'. lia.
Qed.

(** More fuel than [maxLength] allows turns changes nothing: the walk
    never stops for lack of fuel. *)
Lemma walk_fuel (fuel fuel' : nat) (chain : MarkovChain) (maxLength order : Q)
      (result currentKey : string) (w : world) :
  Z.to_nat (Qceiling maxLength) - String.length result <= fuel ->
  Z.to_nat (Qceiling maxLength) - String.length result <= fuel' ->
  walk Math_random fuel chain maxLength order result currentKey w =
  walk Math_random fuel' chain maxLength order result currentKey w.
Proof.
  revert fuel' result currentKey w.
  induction fuel as [ | fuel IH]; intros [ | fuel'] result currentKey w H H';
    cbn [walk]; try reflexivity.
  - destruct (lt _ maxLength) eqn:E; [ | reflexivity]. apply lt_ceiling in E. lia.
  - destruct (lt _ maxLength) eqn:E; [ | reflexivity]. apply lt_ceiling in E. lia.
  - destruct (lt _ maxLength) eqn:E; [ | reflexivity]. apply lt_ceiling in E.
    destruct (drawNextWord _ _ _ _); [reflexivity | ].
    destruct (le order _); [ | reflexivity].
    destruct (_ && _); [reflexivity | ].
    apply IH; rewrite !length_append; cbn [String.length]; lia.
Qed.

End Generation.

End GenerateFacts.

(** ** generateText: the result *)

Module GenerateClaims.
Import JsString JsNumber JsObject Markov Spec.
Import NumberFacts StringFacts ObjectFacts BuildFacts GenerateFacts.

(** C3.  When [Object.keys(chain)] is empty, [generateText] returns the
    sentence "Not enough data to generate text" whatever its other
    arguments are, and leaves the world as it was: no value drawn from
    [Math.random], nothing logged, no string compared. *)
Theorem C3_no_keys_sentinel (Math_random : nat -> Q) (chain : MarkovChain)
        (maxLength order : Q) (originalText : list string) (maxAttempts : Q)
        (w : world) :
  length (Object_keys chain) = 0 ->
  generateText Math_random chain maxLength order originalText maxAttempts w =
  (Normal "Not enough data to generate text", w).
Proof. intros H. unfold generateText. now rewrite H. Qed.

Lemma C3_no_keys_sentinel_witness :
  generateText (fun _ => (1 # 2)%Q) [] 280 2 ["I love sunny days."] 10 (World 0 [] 0) =
  (Normal "Not enough data to generate text", World 0 [] 0).
Proof. apply C3_no_keys_sentinel. reflexivity. Defined.



(** The duplicate test on letters: capitals and surrounding whitespace
    of a line do not count, a missing full stop does. *)
Example isDuplicate_letter_case :
  fst (isDuplicate ["  I LOVE Sunny Days. "] "i love sunny days." (World 0 [] 0))
  = true /\
  fst (isDuplicate ["I love sunny days"] "I love sunny days." (World 0 [] 0))
  = false.
Proof. split; vm_compute; reflexivity. Qed.

(** A walk through an inherited property: after "constructor" the
    chain yields the function [Object], whose [length] is 1 and whose
    element 0 is [undefined]. *)
Example generateText_inherited :
  generateText (fun _ => (1 # 2)%Q) [("Hello", [Some "constructor"])] 40 1 [] 1
               (World 0 [] 0)
  = (Normal "Hello constructor undefined", World 3 [] 0).
Proof. vm_compute. reflexivity. Qed.

(** The clean-up: a result of 106 code units that does not end a
    sentence is cut after the last of its final ten words that does. *)
Example generateText_cleanup :
  let cs := "cccccccccccccccccccccccccccccccccccccccccccccccccc" in
  let ds := "dddddddddddddddddddddddddddddddddddddddddddddddddd" in
  generateText (fun _ => 0%Q)
               [("A", [Some "b."]); ("b.", [Some cs]); (cs, [Some ds])]
               280 1 [] 1 (World 0 [] 0)
  = (Normal "A b.", World 4 [] 0).
Proof. vm_compute. reflexivity. Qed.

(** The trail of a walk: with [maxLength] 5 the walk from "A" appends
    "b" twice and stops at 5 code units; the long word in the bag of
    another key plays no part. *)
Example generateText_trail :
  let chain := [("A", [Some "b"]); ("b", [Some "b"]);
                ("z", [Some "cccccccccccccccccccccccccccccc"])] in
  generateText (fun _ => 0%Q) chain 5 1 [] 1 (World 0 [] 0)
  = (Normal "A b b", World 3 [] 0) /\
  appendedWords (fun _ => 0%Q) (Z.to_nat (Qceiling 5)) chain 5 1 "A" "A" (World 1 [] 0)
  = [Some "b"; Some "b"].
Proof. split; vm_compute; reflexivity. Qed.

(** C5, as stated: with [maxLength] 1 the start key "Hello world" is
    returned as it is, 11 code units long.  No iteration of the walk
    appended a word, and [maxLength] plus the length of any word that
    the walk could have appended, "again" or "undefined", stays below
    11. *)
Lemma C5_start_key_counterexample :
  generateText (fun _ => 0%Q) [("Hello world", [Some "again"])] 1 2 [] 1
               (World 0 [] 0)
  = (Normal "Hello world", World 1 [] 0) /\
  appendedWords (fun _ => 0%Q) (Z.to_nat (Qceiling 1))
                [("Hello world", [Some "again"])] 1 2
                "Hello world" "Hello world" (World 1 [] 0) = [] /\
  forall nextWord,
    appended [("Hello world", [Some "again"])] nextWord ->
    (1 + Z.of_nat (String.length (toString nextWord))
     < Z.of_nat (String.length "Hello world"))%Z.
Proof.
  split; [vm_compute; reflexivity | ]. split; [vm_compute; reflexivity | ].
  intros nextWord [-> | [key [successors [Ha Hin]]]].
  - cbn. lia.
  - cbn [assoc] in Ha. destruct (String.eqb "Hello world" key); [ | discriminate].
    injection Ha as <-. destruct Hin as [<- | []]. cbn. lia.
Qed.

(** C5, amended.  When the chain has a key, the string that
    [generateText] returns is empty, no attempt being allowed, or it is
    the clean-up of a walk from one of the keys, the start key.  Either
    no iteration of that walk appended a word, and the string is no
    longer than the start key, whatever [maxLength] is; or the final
    iteration that appended a word appended [nextWord], the last word
    of the trail: the walked text is the text before that iteration,
    which was shorter than [maxLength], a space and [nextWord], and the
    string returned is no longer than [maxLength] plus the length of
    [nextWord]. *)
Theorem C5_length_bound (Math_random : nat -> Q) (chain : MarkovChain)
        (maxLength : Z) (order : Q) (originalText : list string) (maxAttempts : Q)
        (w : world) (result : string) (w' : world) :
  0 < length (Object_keys chain) ->
  generateText Math_random chain (inject_Z maxLength) order originalText
               maxAttempts w = (Normal result, w') ->
  (attemptsLeft maxAttempts = 0 /\ result = EmptyString) \/
  exists startKey w0 walked w1,
    In startKey (Object_keys chain) /\
    walk Math_random (Z.to_nat (Qceiling (inject_Z maxLength))) chain
         (inject_Z maxLength) order startKey startKey w0 = (walked, w1) /\
    result = tidy walked /\
    ((appendedWords Math_random (Z.to_nat (Qceiling (inject_Z maxLength))) chain
                    (inject_Z maxLength) order startKey startKey w0 = [] /\
      walked = startKey /\
      String.length result <= String.length startKey)
     \/
     exists earlier nextWord,
       appendedWords Math_random (Z.to_nat (Qceiling (inject_Z maxLength))) chain
                     (inject_Z maxLength) order startKey startKey w0
       = earlier ++ [nextWord] /\
       appended chain nextWord /\
       walked = (spaced startKey earlier ++ " " ++ toString nextWord)%string /\
       (Z.of_nat (String.length (spaced startKey earlier)) < maxLength)%Z /\
       (Z.of_nat (String.length result)
        <= maxLength + Z.of_nat (String.length (toString nextWord)))%Z).
Proof.
  intros Hk. unfold generateText.
  replace (length (Object_keys chain) =? 0) with false
    by (symmetry; apply Nat.eqb_neq; lia).
  intros H. apply attempt_candidate in H.
  destruct H as [[H0 ->] | [w0 [w1 Hc]]]; [left; split; [exact H0 | reflexivity] | right].
  apply candidate_last in Hc.
  destruct Hc as [startKey [w2 [walked [Hin [Hw [Hr Hcases]]]]]].
  exists startKey, w2, walked, w1. repeat split; assumption.
Qed.

Lemma C5_length_bound_witness :
  (attemptsLeft 1 = 0 /\ "Hello world again" = EmptyString) \/
  exists startKey w0 walked w1,
    In startKey (Object_keys [("Hello world", [Some "again"])]) /\
    walk (fun _ => 0%Q) (Z.to_nat (Qceiling (inject_Z 280)))
         [("Hello world", [Some "again"])] (inject_Z 280) 2 startKey startKey w0
    = (walked, w1) /\
    "Hello world again" = tidy walked /\
    ((appendedWords (fun _ => 0%Q) (Z.to_nat (Qceiling (inject_Z 280)))
                    [("Hello world", [Some "again"])] (inject_Z 280) 2
                    startKey startKey w0 = [] /\
      walked = startKey /\
      String.length "Hello world again" <= String.length startKey)
     \/
     exists earlier nextWord,
       appendedWords (fun _ => 0%Q) (Z.to_nat (Qceiling (inject_Z 280)))
                     [("Hello world", [Some "again"])] (inject_Z 280) 2
                     startKey startKey w0
       = earlier ++ [nextWord] /\
       appended [("Hello world", [Some "again"])] nextWord /\
       walked = (spaced startKey earlier ++ " " ++ toString nextWord)%string /\
       (Z.of_nat (String.length (spaced startKey earlier)) < 280)%Z /\
       (Z.of_nat (String.length "Hello world again")
        <= 280 + Z.of_nat (String.length (toString nextWord)))%Z).
Proof.
  apply (C5_length_bound (fun _ => 0%Q) [("Hello world", [Some "again"])] 280 2 [] 1
                         (World 0 [] 0) "Hello world again" (World 2 [] 0)).
  - vm_compute. constructor.
  - vm_compute. reflexivity.
Defined.

End GenerateClaims.

(** ** getRandomMarkovOrder and analyzeText *)

Module AnalysisClaims.
Import JsString JsNumber JsObject Markov Spec.
Import NumberFacts StringFacts.

Lemma lt_spec (a b : Q) : lt a b = true <-> (a < b)%Q.
Proof.
  unfold lt. rewrite negb_true_iff. split.
  - intros H. destruct (Qlt_le_dec a b) as [ | Hle]; [assumption | ].
    apply Qle_bool_iff in Hle. congruence.
  - intros H. destruct (Qle_bool b a) eqn:E; [ | reflexivity].
    apply Qle_bool_iff in E. exfalso. now apply (Qlt_not_le a b).
Qed.

Lemma lt_false (a b : Q) : lt a b = false <-> (b <= a)%Q.
Proof.
  unfold lt. rewrite negb_false_iff. apply Qle_bool_iff.
Qed.

(** The thresholds are the binary64 numbers next to 0.10 and 0.95. *)
Lemma literal_thresholds :
  literal 0.10 = (3602879701896397 # 36028797018963968)%Q /\
  literal 0.95 = (4278419646001971 # 4503599627370496)%Q.
Proof. split; vm_compute; reflexivity. Qed.

(** C7.  [getRandomMarkovOrder] returns 1, 2 or 3: 1 exactly when the
    draw is below the number that the literal [0.10] denotes, 2 exactly
    when it is at least that and below the number that [0.95] denotes,
    and 3 exactly when it is at least the latter. *)
Theorem C7_order_thresholds (rand : Q) :
  (getRandomMarkovOrder rand = 1 \/ getRandomMarkovOrder rand = 2
   \/ getRandomMarkovOrder rand = 3)%Z /\
  (getRandomMarkovOrder rand = 1%Z <-> (rand < literal 0.10)%Q) /\
  (getRandomMarkovOrder rand = 2%Z <->
   (literal 0.10 <= rand)%Q /\ (rand < literal 0.95)%Q) /\
  (getRandomMarkovOrder rand = 3%Z <-> (literal 0.95 <= rand)%Q).
Proof.
  assert (Hlit : (literal 0.10 < literal 0.95)%Q) by (vm_compute; reflexivity).
  unfold getRandomMarkovOrder. revert Hlit.
  generalize (literal 0.10) (literal 0.95). intros low high Hlit.
  destruct (lt rand low) eqn:E1; [apply lt_spec in E1 | apply lt_false in E1].
  - split; [now left | ]. split; [now split | ]. split.
    + split; [discriminate | intros [H _]; lra].
    + split; [discriminate | intros H; lra].
  - destruct (lt rand high) eqn:E2; [apply lt_spec in E2 | apply lt_false in E2].
    + split; [right; now left | ]. split; [ | split].
      * split; [discriminate | intros H; lra].
      * split; [now split | reflexivity].
      * split; [discriminate | intros H; lra].
    + split; [right; now right | ]. split; [ | split].
      * split; [discriminate | intros H; lra].
      * split; [discriminate | intros [_ H]; lra].
      * split; [trivial | reflexivity].
Qed.

(** *** Counting words *)

Lemma splitGaps_cons (afterGap : bool) (s : string) :
  exists w ws, splitGaps afterGap s = w :: ws.
Proof.
  revert afterGap. induction s as [ | c s IH]; intros afterGap; cbn.
  - now eexists _, _.
  - destruct (isWhitespace c).
    + destruct afterGap; [apply IH | now eexists _, _].
    + destruct (IH false) as [w [ws ->]]. now eexists _, _.
Qed.

Lemma totalWords_positive (text : string) : 1 <= length (splitWhitespace text).
Proof.
  unfold splitWhitespace. destruct (splitGaps_cons false text) as [w [ws H]].
  rewrite H. cbn [length]. lia.
Qed.

(** C8, as stated: the empty corpus has no usable line, and
    [analyzeText] divides its word count, 1, by the line count, 0;
    [avgWordsPerPost] is the quotient [Infinity], not zero or another
    finite number. *)
Lemma C8_empty_corpus_counterexample :
  totalPosts (analyzeText EmptyString) = 0 /\
  avgWordsPerPost (analyzeText EmptyString) = Math_round (div 1 0) /\
  Math_round (div 1 0) = Infinity /\
  forall q, avgWordsPerPost (analyzeText EmptyString) <> Finite q.
Proof. repeat split. discriminate. Qed.

(** C8, amended.  For a corpus with no usable line, [avgWordsPerPost]
    is [Infinity]: the word count is at least 1 and the division by the
    line count is not guarded, so the result is never [NaN], and never
    zero or another finite number either. *)
Theorem C8_zero_lines_infinity (text : string) :
  totalPosts (analyzeText text) = 0 ->
  avgWordsPerPost (analyzeText text) = Infinity.
Proof.
  unfold analyzeText. cbn [totalPosts avgWordsPerPost]. intros ->.
  pose proof (totalWords_positive text) as H.
  unfold div, ofNat. cbn [Z.of_nat]. change (Qeq_bool (inject_Z 0) 0) with true.
  cbv beta iota.
  replace (Qeq_bool (inject_Z (Z.of_nat (length (splitWhitespace text)))) 0) with false.
  - replace (Qle_bool 0 (inject_Z (Z.of_nat (length (splitWhitespace text))))) with true;
      [reflexivity | ].
    symmetry. apply Qle_bool_iff. change 0%Q with (inject_Z 0). rewrite <- Zle_Qle. lia.
  - symmetry. destruct (Qeq_bool _ 0) eqn:E; [exfalso | reflexivity].
    apply Qeq_bool_eq in E. unfold Qeq in E. cbn [Qnum Qden inject_Z] in E. lia.
Qed.

Lemma C8_zero_lines_infinity_witness :
  avgWordsPerPost (analyzeText (String LF " ")) = Infinity.
Proof. apply C8_zero_lines_infinity. reflexivity. Defined.

Lemma splitGaps_gap (gap : string) :
  allWhitespace gap = true -> splitGaps true gap = [EmptyString].
Proof.
  induction gap as [ | g gap IH]; cbn; [reflexivity | ].
  intros H. apply andb_prop in H as [Hg Hgap]. rewrite Hg. now apply IH.
Qed.

Lemma splitGaps_skip (gap s : string) :
  allWhitespace gap = true -> splitGaps true (gap ++ s) = splitGaps true s.
Proof.
  induction gap as [ | g gap IH]; cbn; [reflexivity | ].
  intros H. apply andb_prop in H as [Hg Hgap]. rewrite Hg. now apply IH.
Qed.

(** Whitespace before the first word gives an empty first token. *)
Lemma splitWhitespace_leading (gap : string) (c : ascii) (rest : string) :
  gap <> EmptyString -> allWhitespace gap = true -> isWhitespace c = false ->
  splitWhitespace (gap ++ String c rest) = EmptyString :: splitWhitespace (String c rest).
Proof.
  intros Hne Hgap Hc. destruct gap as [ | g gap]; [congruence | ].
  cbn in Hgap. apply andb_prop in Hgap as [Hg Hgap].
  unfold splitWhitespace. cbn [String.append splitGaps]. rewrite Hg.
  rewrite splitGaps_skip by assumption. cbn [splitGaps]. now rewrite Hc.
Qed.

(** Whitespace after the last word gives an empty last token. *)
Lemma splitGaps_trailing (afterGap : bool) (body : string) (c : ascii) (gap : string) :
  gap <> EmptyString -> allWhitespace gap = true -> isWhitespace c = false ->
  splitGaps afterGap (body ++ String c gap) =
  splitGaps afterGap (body ++ String c EmptyString) ++ [EmptyString].
Proof.
  intros Hne Hgap Hc. revert afterGap.
  induction body as [ | a body IH]; intros afterGap; cbn [String.append splitGaps].
  - rewrite Hc. destruct gap as [ | g gap]; [congruence | ].
    cbn in Hgap. apply andb_prop in Hgap as [Hg Hgap].
    cbn [splitGaps]. rewrite Hg, splitGaps_gap by assumption. reflexivity.
  - destruct (isWhitespace a).
    + destruct afterGap; rewrite IH; reflexivity.
    + rewrite IH. destruct (splitGaps_cons false (body ++ String c EmptyString))
        as [w [ws ->]]. reflexivity.
Qed.

(** C10.  [analyzeText] counts the pieces of [text.split(/\s+/)], empty
    ones included: the empty corpus has one word and no post; whitespace
    before the first word adds an empty first piece, and whitespace
    after the last word an empty last piece, each counted as a word. *)
Theorem C10_empty_tokens_counted :
  (totalWords (analyzeText EmptyString) = 1 /\
   totalPosts (analyzeText EmptyString) = 0) /\
  (forall gap c rest,
      gap <> EmptyString -> allWhitespace gap = true -> isWhitespace c = false ->
      splitWhitespace (gap ++ String c rest)
      = EmptyString :: splitWhitespace (String c rest) /\
      totalWords (analyzeText (gap ++ String c rest))
      = S (totalWords (analyzeText (String c rest)))) /\
  (forall body c gap,
      gap <> EmptyString -> allWhitespace gap = true -> isWhitespace c = false ->
      splitWhitespace (body ++ String c gap)
      = splitWhitespace (body ++ String c EmptyString) ++ [EmptyString] /\
      totalWords (analyzeText (body ++ String c gap))
      = S (totalWords (analyzeText (body ++ String c EmptyString)))).
Proof.
  split; [split; reflexivity | ]. split.
  - intros gap c rest Hne Hgap Hc.
    pose proof (splitWhitespace_leading gap c rest Hne Hgap Hc) as H.
    split; [assumption | ]. unfold analyzeText. cbn [totalWords]. now rewrite H.
  - intros body c gap Hne Hgap Hc.
    pose proof (splitGaps_trailing false body c gap Hne Hgap Hc) as H.
    fold (splitWhitespace (body ++ String c gap)) in H.
    fold (splitWhitespace (body ++ String c EmptyString)) in H.
    split; [assumption | ]. unfold analyzeText. cbn [totalWords].
    rewrite H, length_app. cbn [length]. lia.
Qed.

Lemma C10_empty_tokens_counted_witness :
  splitWhitespace " I love " = [EmptyString; "I"; "love"; EmptyString] /\
  totalWords (analyzeText " I love ") = 4 /\
  totalPosts (analyzeText " I love ") = 1.
Proof.
  destruct C10_empty_tokens_counted as [_ [Hlead Htrail]].
  destruct (Hlead " " "I"%char " love ") as [H1 _];
    [discriminate | reflexivity | reflexivity | ].
  destruct (Htrail "I lov" "e"%char " ") as [H2 _];
    [discriminate | reflexivity | reflexivity | ].
  cbn [String.append] in H1, H2.
  split; [ | split; reflexivity].
  rewrite H1, H2. reflexivity.
Defined.

End AnalysisClaims.

(** * Further properties *)

(** ** buildMarkovChain: keys and words *)

Module ChainFacts.
Import JsString JsNumber JsObject Markov Spec Posts Download Cli Terms.
Import NumberFacts StringFacts ObjectFacts BuildFacts.

Lemma ofNat_Z (z : Z) : (0 <= z)%Z -> ofNat (Z.to_nat z) = inject_Z z.
Proof. intros H. unfold ofNat. now rewrite Z2Nat.id. Qed.

(** *** The own keys *)

Lemma assoc_None {V : Type} (o : object V) (k : string) :
  assoc k o = None <-> ~ In k (map fst o).
Proof.
  induction o as [ | [k' v] o IH]; cbn [assoc map fst In].
  - tauto.
  - destruct (String.eqb k' k) eqn:E.
    + apply String.eqb_eq in E. split; [discriminate | tauto].
    + apply String.eqb_neq in E. rewrite IH. tauto.
Qed.

Lemma keys_set {V : Type} (o : object V) (key : string) (v : V) :
  map fst (set o key v) =
  match assoc key o with
  | Some _ => map fst o
  | None => map fst o ++ [key]
  end.
Proof.
  induction o as [ | [k old] o IH]; cbn [set assoc map fst app]; [reflexivity | ].
  destruct (String.eqb k key) eqn:E; [reflexivity | ].
  cbn [map fst]. rewrite IH. now destruct (assoc key o).
Qed.

Lemma existsb_eqb (k : string) (seen : list string) :
  existsb (String.eqb k) seen = true <-> In k seen.
Proof.
  rewrite existsb_exists. split.
  - intros [x [Hx E]]. apply String.eqb_eq in E. now subst.
  - intros H. exists k. split; [assumption | apply String.eqb_refl].
Qed.

Lemma distinct_ext (seen seen' l : list string) :
  (forall k, In k seen <-> In k seen') -> distinct seen l = distinct seen' l.
Proof.
  revert seen seen'. induction l as [ | k l IH]; intros seen seen' H; cbn [distinct];
    [reflexivity | ].
  assert (E : existsb (String.eqb k) seen = existsb (String.eqb k) seen').
  { apply eq_true_iff_eq. rewrite !existsb_eqb. apply H. }
  rewrite E. destruct (existsb _ seen'); [now apply IH | ].
  f_equal. apply IH. intros x. cbn [In]. rewrite H. tauto.
Qed.

(** The own keys after a run of pushes: the old ones, then the new ones
    in the order of their first push. *)
Lemma pushes_keys (pairs : list (string * element)) (chain chain' : MarkovChain) :
  forEach pushPair pairs chain = Normal chain' ->
  map fst chain' = map fst chain ++ distinct (map fst chain) (map fst pairs).
Proof.
  revert chain. induction pairs as [ | [k w] pairs IH]; intros chain H.
  - cbn in H. injection H as <-. cbn. now rewrite app_nil_r.
  - first_push H chain k w c1 Hpush. apply push_normal in Hpush.
    rewrite (IH _ H). cbn [map fst distinct].
    rewrite Hpush, keys_set.
    destruct (assoc k chain) as [b | ] eqn:Eb.
    + assert (Hin : In k (map fst chain)).
      { apply In_assoc in Eb. now apply (in_map fst) in Eb. }
      now rewrite (proj2 (existsb_eqb _ _) Hin).
    + assert (Hin : ~ In k (map fst chain)) by now apply assoc_None.
      destruct (existsb (String.eqb k) (map fst chain)) eqn:E;
        [apply existsb_eqb in E; contradiction | ].
      rewrite <- app_assoc. cbn [app]. do 2 f_equal.
      apply distinct_ext. intros x. rewrite in_app_iff. cbn [In]. tauto.
Qed.

Lemma distinct_spec (seen l : list string) :
  NoDup (distinct seen l) /\
  forall k, In k (distinct seen l) <-> In k l /\ ~ In k seen.
Proof.
  revert seen. induction l as [ | k l IH]; intros seen; cbn [distinct].
  - split; [constructor | ]. intros k. cbn. tauto.
  - destruct (existsb (String.eqb k) seen) eqn:E.
    + apply existsb_eqb in E. destruct (IH seen) as [H1 H2]. split; [assumption | ].
      intros x. rewrite H2. cbn [In]. split; [tauto | ].
      intros [[<- | H] Hn]; [contradiction | tauto].
    + assert (Hk : ~ In k seen).
      { intros H. apply existsb_eqb in H. congruence. }
      destruct (IH (k :: seen)) as [H1 H2]. split.
      * constructor; [ | assumption]. rewrite H2. cbn [In]. tauto.
      * intros x. cbn [In]. rewrite H2. cbn [In].
        destruct (string_dec k x) as [<- | Hne]; tauto.
Qed.

Lemma NoDup_assoc {V : Type} (o : object V) (k : string) (v : V) :
  NoDup (map fst o) -> In (k, v) o -> assoc k o = Some v.
Proof.
  induction o as [ | [k' v'] o IH]; cbn [map fst assoc In]; [intros _ [] | ].
  intros Hnd [H | H].
  - injection H as -> ->. now rewrite String.eqb_refl.
  - inversion Hnd as [ | ? ? Hk Hnd']; subst.
    destruct (String.eqb k' k) eqn:E.
    + apply String.eqb_eq in E. subst k'. exfalso. apply Hk.
      now apply (in_map fst) in H.
    + now apply IH.
Qed.

Lemma distinct_length (seen l : list string) : length (distinct seen l) <= length l.
Proof.
  revert seen. induction l as [ | k l IH]; intros seen; cbn [distinct length]; [lia | ].
  destruct (existsb _ seen); [specialize (IH seen) | specialize (IH (k :: seen))];
    cbn [length]; lia.
Qed.

(** A chain has no more keys than pushes were made. *)
Lemma pushes_size (pairs : list (string * element)) (chain : MarkovChain) :
  forEach pushPair pairs [] = Normal chain -> length chain <= length pairs.
Proof.
  intros H. rewrite <- (length_map fst chain), (pushes_keys _ _ _ H). cbn [map app].
  rewrite <- (length_map fst pairs). apply distinct_length.
Qed.

(** *** The own keys and [Object.keys] *)

Lemma insertByIndex_In (n : N) (key : string) (l : list (N * string)) (p : N * string) :
  In p (insertByIndex n key l) <-> p = (n, key) \/ In p l.
Proof.
  induction l as [ | [m k] l IH]; cbn [insertByIndex In].
  - split; [intros [H | []]; auto | intros [H | []]; auto].
  - destruct (n <? m)%N; cbn [In]; [intuition congruence | ].
    rewrite IH. intuition congruence.
Qed.

Lemma insertByIndex_length (n : N) (key : string) (l : list (N * string)) :
  length (insertByIndex n key l) = S (length l).
Proof.
  induction l as [ | [m k] l IH]; cbn [insertByIndex length]; [reflexivity | ].
  destruct (n <? m)%N; cbn [length]; [reflexivity | now rewrite IH].
Qed.

Lemma indexKeys_In (keys : list string) (k : string) :
  In k (map snd (indexKeys keys)) <-> In k keys /\ arrayIndex k <> None.
Proof.
  induction keys as [ | k' keys IH]; cbn [indexKeys map In]; [tauto | ].
  destruct (arrayIndex k') as [n | ] eqn:E.
  - rewrite in_map_iff. split.
    + intros [[m x] [Hx Hin]]. cbn in Hx. subst x.
      apply insertByIndex_In in Hin as [Hin | Hin].
      * injection Hin as -> ->. split; [now left | congruence].
      * assert (H : In k (map snd (indexKeys keys)))
          by (apply in_map_iff; now exists (m, k)).
        apply IH in H. tauto.
    + intros [[<- | Hin] Hk].
      * exists (n, k'). split; [reflexivity | apply insertByIndex_In; now left].
      * assert (H : In k (map snd (indexKeys keys))) by (apply IH; tauto).
        apply in_map_iff in H as [[m x] [Hx H]]. cbn in Hx. subst x.
        exists (m, k). split; [reflexivity | apply insertByIndex_In; now right].
  - rewrite IH. split; [tauto | ]. intros [[<- | Hin] Hk]; [congruence | tauto].
Qed.

(** [Object.keys] enumerates the own keys, each once. *)
Lemma Object_keys_In {V : Type} (o : object V) (k : string) :
  In k (Object_keys o) <-> In k (map fst o).
Proof.
  unfold Object_keys. rewrite in_app_iff, indexKeys_In, filter_In.
  destruct (arrayIndex k); intuition congruence.
Qed.

Lemma Object_keys_length {V : Type} (o : object V) :
  length (Object_keys o) = length o.
Proof.
  unfold Object_keys. rewrite length_app, length_map.
  rewrite <- (length_map fst o).
  induction (map fst o) as [ | k keys IH]; cbn [indexKeys filter length]; [reflexivity | ].
  destruct (arrayIndex k); cbn [length]; [rewrite insertByIndex_length | ]; lia.
Qed.

Lemma digits_no_space (acc : N) (s : string) (n : N) :
  digits acc s = Some n -> hasChar SPACE s = false.
Proof.
  revert acc. induction s as [ | c s IH]; intros acc; cbn [digits hasChar];
    [reflexivity | ].
  destruct (isDigit c) eqn:E; [ | discriminate]. intros H.
  rewrite (IH _ H), orb_false_r.
  destruct (Ascii.eqb c SPACE) eqn:Ec; [ | reflexivity].
  apply Ascii.eqb_eq in Ec. subst c. discriminate.
Qed.

Lemma arrayIndex_space (key : string) :
  hasChar SPACE key = true -> arrayIndex key = None.
Proof.
  intros H. unfold arrayIndex. destruct key as [ | c rest]; [reflexivity | ].
  destruct (_ && _); [reflexivity | ].
  destruct (digits 0 (String c rest)) as [n | ] eqn:E; [ | reflexivity].
  apply digits_no_space in E. congruence.
Qed.

Lemma Object_keys_plain {V : Type} (o : object V) :
  Forall (fun k => arrayIndex k = None) (map fst o) -> Object_keys o = map fst o.
Proof.
  unfold Object_keys. induction (map fst o) as [ | k keys IH]; intros H;
    [reflexivity | ].
  inversion H as [ | ? ? Hk Hks]; subst. cbn [indexKeys filter]. rewrite Hk.
  specialize (IH Hks). destruct (indexKeys keys) as [ | p ps] eqn:E.
  - cbn [map app] in *. now rewrite IH.
  - exfalso. assert (Hin : In (snd p) (map snd (p :: ps))) by (left; reflexivity).
    rewrite <- E in Hin.
    apply indexKeys_In in Hin as [Hin Hp]. rewrite Forall_forall in Hks.
    now apply Hp, Hks.
Qed.

(** A key of two or more words holds a space. *)
Lemma key_space (key : string) :
  (2 <= length (split SPACE key))%nat -> hasChar SPACE key = true.
Proof.
  intros H. destruct (hasChar SPACE key) eqn:E; [reflexivity | ].
  rewrite split_word in H by assumption. cbn in H. lia.
Qed.

(** *** Code units *)

Lemma every_append (p : ascii -> bool) (a b : string) :
  every p (a ++ b) = every p a && every p b.
Proof.
  induction a as [ | c a IH]; cbn; [reflexivity | ]. now rewrite IH, andb_assoc.
Qed.

Lemma every_trimStart (p : ascii -> bool) (s : string) :
  every p s = true -> every p (trimStart s) = true.
Proof.
  induction s as [ | c s IH]; cbn; [reflexivity | ].
  intros H. destruct (isWhitespace c); [ | exact H].
  apply andb_prop in H as [_ H]. now apply IH.
Qed.

Lemma every_trimEnd (p : ascii -> bool) (s : string) :
  every p s = true -> every p (trimEnd s) = true.
Proof.
  induction s as [ | c s IH]; cbn [trimEnd every]; [reflexivity | ].
  intros H. apply andb_prop in H as [Hc H]. specialize (IH H).
  destruct (trimEnd s) as [ | d t].
  - destruct (isWhitespace c); cbn; [reflexivity | now rewrite Hc].
  - cbn [every] in *. now rewrite Hc, IH.
Qed.

Lemma every_trim (p : ascii -> bool) (s : string) :
  every p s = true -> every p (trim s) = true.
Proof. intros H. unfold trim. now apply every_trimEnd, every_trimStart. Qed.

Lemma every_split (p : ascii -> bool) (sep : ascii) (s : string) :
  every p s = true -> Forall (fun w => every p w = true) (split sep s).
Proof.
  induction s as [ | c s IH]; cbn [split every].
  - intros _. now constructor.
  - intros H. apply andb_prop in H as [Hc H]. specialize (IH H).
    destruct (Ascii.eqb c sep); [now constructor | ].
    destruct (split sep s) as [ | w ws].
    + constructor; [cbn; now rewrite Hc | constructor].
    + inversion IH; subst. constructor; [cbn; now rewrite Hc | assumption].
Qed.

(** Normalising the whitespace leaves no whitespace but spaces. *)
Lemma every_normalised (skip : nat) (s : string) :
  every spaceOrInk (replaceFrom matchWhitespace " " skip s) = true.
Proof.
  revert skip. induction s as [ | c s IH]; intros skip; cbn [replaceFrom];
    [reflexivity | ].
  destruct skip as [ | k]; [ | apply IH].
  unfold matchWhitespace. cbn [span].
  destruct (isWhitespace c) eqn:E.
  - rewrite every_append, IH. reflexivity.
  - cbn [every]. rewrite IH. unfold spaceOrInk. now rewrite E.
Qed.

Lemma every_cleanSentence (sentence : string) :
  every spaceOrInk (cleanSentence sentence) = true.
Proof. unfold cleanSentence, replaceAll. apply every_trim, every_normalised. Qed.

Lemma no_whitespace (w : string) :
  every spaceOrInk w = true -> hasChar SPACE w = false -> hasWhitespace w = false.
Proof.
  induction w as [ | c w IH]; cbn; [reflexivity | ].
  intros H1 H2. apply andb_prop in H1 as [Hc H1]. apply orb_false_elim in H2 as [Hs H2].
  rewrite (IH H1 H2), orb_false_r. unfold spaceOrInk in Hc. rewrite Hs in Hc.
  rewrite orb_false_r in Hc. now apply negb_true_iff.
Qed.

(** The tokens of a cleaned sentence: not empty, no whitespace inside. *)
Lemma tokens_clean (sentence : string) :
  Forall (fun w => hasWhitespace w = false /\ w <> EmptyString)
         (tokens (cleanSentence sentence)).
Proof.
  pose proof (tokens_words (cleanSentence sentence)) as Hw.
  pose proof (every_split spaceOrInk SPACE _ (every_cleanSentence sentence)) as He.
  rewrite Forall_forall in *. intros w Hin. destruct (Hw w Hin) as [H1 H2].
  split; [ | assumption]. apply no_whitespace; [ | assumption].
  apply He. unfold tokens in Hin. now apply filter_In in Hin as [Hin _].
Qed.

Lemma hasWhitespace_space (w : string) :
  hasWhitespace w = false -> hasChar SPACE w = false.
Proof.
  induction w as [ | c w IH]; cbn; [reflexivity | ].
  intros H. apply orb_false_elim in H as [Hc H]. rewrite (IH H), orb_false_r.
  destruct (Ascii.eqb c SPACE) eqn:E; [ | reflexivity].
  apply Ascii.eqb_eq in E. subst c. discriminate.
Qed.

(** *** Windows *)

Lemma In_windows (order : nat) (words : list string) (p : string * element) :
  In p (windows order words) <->
  exists i, i + order < length words /\
            p = (join " " (firstn order (skipn i words)), nth_error words (i + order)).
Proof.
  unfold windows. rewrite in_map_iff. split.
  - intros [i [<- Hi]]. apply in_seq in Hi. exists i. split; [lia | reflexivity].
  - intros [i [Hi ->]]. exists i. split; [reflexivity | apply in_seq; lia].
Qed.

Lemma In_occurrences (order : nat) (text : string) (p : string * element) :
  In p (occurrences order text) <->
  exists words, In words (usableLines order text) /\ In p (windows order words).
Proof. unfold occurrences. apply in_flat_map. Qed.

Lemma usableLines_clean (order : nat) (text : string) (words : list string) :
  In words (usableLines order text) ->
  order < length words /\
  Forall (fun w => hasWhitespace w = false /\ w <> EmptyString) words.
Proof.
  unfold usableLines. intros H. apply filter_In in H as [H Hlen].
  apply Nat.ltb_lt in Hlen. split; [assumption | ].
  apply in_map_iff in H as [line [<- H]]. apply filter_In in H as [H _].
  apply in_map_iff in H as [sentence [<- _]]. apply tokens_clean.
Qed.

Lemma Forall_window {A : Type} (P : A -> Prop) (order i : nat) (words : list A) :
  Forall P words -> Forall P (firstn order (skipn i words)).
Proof.
  intros H. apply Forall_forall. intros w Hin. rewrite Forall_forall in H.
  apply H. now apply In_firstn, In_skipn in Hin.
Qed.

(** A window of clean words splits back into these words. *)
Lemma split_window (order i : nat) (words : list string) :
  1 <= order -> i + order <= length words ->
  Forall (fun w => hasWhitespace w = false /\ w <> EmptyString) words ->
  split SPACE (join " " (firstn order (skipn i words))) = firstn order (skipn i words).
Proof.
  intros Ho Hi Hw. change " " with (String SPACE EmptyString). apply split_join.
  - intros E. apply (f_equal (@length _)) in E.
    rewrite length_firstn, length_skipn in E. cbn in E. lia.
  - apply Forall_window. eapply Forall_impl; [ | exact Hw].
    intros w [H _]. now apply hasWhitespace_space.
Qed.

Lemma windows_nil (order : nat) (words : list string) :
  (order < length words)%nat -> windows order words <> [].
Proof.
  intros H E. apply (f_equal (@length _)) in E. unfold windows in E.
  rewrite length_map, length_seq in E. cbn in E. lia.
Qed.

Lemma occurrences_nil (order : nat) (text : string) :
  occurrences order text = [] <-> usableLines order text = [].
Proof.
  unfold occurrences. split; [ | now intros ->].
  destruct (usableLines order text) as [ | words rest] eqn:E; [reflexivity | ].
  cbn [flat_map]. intros H. apply app_eq_nil in H as [H _]. exfalso.
  assert (Hin : In words (usableLines order text)) by (rewrite E; now left).
  unfold usableLines in Hin. apply filter_In in Hin as [_ Hlen].
  apply Nat.ltb_lt in Hlen. now apply (windows_nil order words).
Qed.

(** *** Sizes *)

Lemma split_total (sep : ascii) (s : string) :
  total (split sep s) <= String.length s.
Proof.
  unfold total, list_sum. induction s as [ | c s IH]; cbn [split String.length]; [cbn; lia | ].
  destruct (Ascii.eqb c sep); [cbn [map list_sum fold_right String.length]; lia | ].
  destruct (split sep s) as [ | w ws]; cbn [map list_sum fold_right String.length] in *; lia.
Qed.

Lemma filter_total (p : string -> bool) (l : list string) :
  total (filter p l) <= total l.
Proof.
  unfold total, list_sum. induction l as [ | x l IH]; cbn [filter map list_sum fold_right]; [lia | ].
  destruct (p x); cbn [map list_sum fold_right]; lia.
Qed.

Lemma windows_length (order : nat) (words : list string) :
  length (windows order words) <= length words.
Proof. unfold windows. rewrite length_map, length_seq. lia. Qed.

Lemma occurrences_length (order : nat) (text : string) :
  length (occurrences order text) <= String.length text.
Proof.
  etransitivity; [ | apply (split_total LF text)].
  etransitivity; [ | apply (filter_total (fun line => 0 <? String.length (trim line)))].
  fold (sentences text). unfold occurrences, usableLines, total, list_sum.
  induction (sentences text) as [ | s l IH]; cbn [map filter flat_map list_sum fold_right length];
    [lia | ].
  destruct (10 <=? _); cbn [map filter]; [ | lia].
  destruct (_ <? _); cbn [flat_map]; [ | lia].
  rewrite length_app. pose proof (windows_length order (tokens (cleanSentence s))).
  pose proof (tokens_length s). lia.
Qed.

Lemma successorsOf_length {A : Type} (key : string) (pairs : list (string * A)) :
  length (successorsOf key pairs) <= length pairs.
Proof. unfold successorsOf. rewrite length_map. apply filter_length_le. Qed.

Lemma chain_size (text : string) (order : nat) (chain : MarkovChain) :
  (Z.of_nat (String.length text) < 2 ^ 53)%Z ->
  forEach pushPair (occurrences order text) [] = Normal chain ->
  (Z.of_nat (length chain) < 2 ^ 53)%Z.
Proof.
  intros Hlen H. apply pushes_size in H.
  pose proof (occurrences_length order text). lia.
Qed.

End ChainFacts.

Module ChainProperties.
Import JsString JsNumber JsObject Markov Spec Posts Download Cli Terms.
Import NumberFacts StringFacts ObjectFacts BuildFacts ChainFacts.
Local Open Scope Z_scope.

(** Whatever the order, the chain that [buildMarkovChain] returns holds
    each key once: an entry is in the chain exactly when looking its key
    up yields its bag. *)
Theorem chain_keys_unique (text : string) (order : Q) (chain : MarkovChain) :
  buildMarkovChain text order = Normal chain ->
  NoDup (map fst chain) /\
  forall key successors,
    In (key, successors) chain <-> assoc key chain = Some successors.
Proof.
  intros H. rewrite buildMarkovChain_transitions in H.
  apply pushes_keys in H. cbn [map app] in H.
  assert (Hnd : NoDup (map fst chain)) by (rewrite H; apply distinct_spec).
  split; [assumption | ]. intros key successors. split.
  - now apply NoDup_assoc.
  - apply In_assoc.
Qed.

Lemma chain_keys_unique_witness :
  NoDup (map fst [("I love", [Some "sunny"; Some "rainy"; Some "sunny"]);
                  ("love sunny", [Some "days."; Some "mornings."]);
                  ("love rainy", [Some "days."])]).
Proof.
  apply (chain_keys_unique corpus 2). vm_compute. reflexivity.
Defined.

(** For an integer order of at least 1, the own keys of the chain stand
    in the order in which the windows first occur in the corpus; from
    order 2 on, this is also the order in which [Object.keys] lists
    them. *)
Theorem chain_keys_first_occurrence (text : string) (order : Z) (chain : MarkovChain) :
  1 <= order ->
  Z.of_nat (String.length text) < 2 ^ 53 ->
  buildMarkovChain text (inject_Z order) = Normal chain ->
  map fst chain = distinct [] (map fst (occurrences (Z.to_nat order) text)) /\
  (2 <= order -> Object_keys chain = map fst chain).
Proof.
  intros Ho Hlen H.
  rewrite <- ofNat_Z, buildMarkovChain_int in H by lia.
  pose proof (pushes_keys _ _ _ H) as Hk. cbn [map app] in Hk.
  split; [assumption | ]. intros Ho2. apply Object_keys_plain.
  rewrite Hk. apply Forall_forall. intros k Hin.
  apply distinct_spec in Hin as [Hin _]. apply in_map_iff in Hin as [p [<- Hp]].
  pose proof (occurrences_keys (Z.to_nat order) text ltac:(lia)) as Hall.
  rewrite Forall_forall in Hall. destruct (Hall p Hp) as [Hl _].
  apply arrayIndex_space, key_space. lia.
Qed.

Lemma chain_keys_first_occurrence_witness :
  map fst [("I love", [Some "sunny"; Some "rainy"; Some "sunny"]);
           ("love sunny", [Some "days."; Some "mornings."]);
           ("love rainy", [Some "days."])]
  = distinct [] (map fst (occurrences (Z.to_nat 2) corpus)).
Proof.
  apply (chain_keys_first_occurrence corpus 2).
  - lia.
  - vm_compute. reflexivity.
  - vm_compute. reflexivity.
Defined.

(** For an integer order of at least 1, [buildMarkovChain] returns the
    empty chain exactly when the corpus has no usable line: no cleaned
    line of at least 10 characters with more than [order] tokens. *)
Theorem chain_empty_iff (text : string) (order : Z) :
  1 <= order ->
  Z.of_nat (String.length text) < 2 ^ 53 ->
  buildMarkovChain text (inject_Z order) = Normal [] <->
  usableLines (Z.to_nat order) text = [].
Proof.
  intros Ho Hlen. rewrite <- ofNat_Z, buildMarkovChain_int by lia.
  rewrite <- occurrences_nil. split.
  - intros H. apply pushes_keys in H. cbn [map app] in H.
    destruct (occurrences _ text) as [ | [k w] pairs]; [reflexivity | ].
    cbn in H. discriminate.
  - now intros ->.
Qed.

Lemma chain_empty_iff_witness :
  buildMarkovChain "too short" (inject_Z 1) = Normal [] <->
  usableLines (Z.to_nat 1) "too short" = [].
Proof.
  apply (chain_empty_iff "too short" 1).
  - lia.
  - vm_compute. reflexivity.
Defined.

(** For an integer order of at least 1, every word stored in the chain
    is a proper word: the words of a key hold no whitespace, and every
    successor is a string, never [undefined], that is not empty and
    holds no whitespace. *)
Theorem chain_words_clean (text : string) (order : Z) (chain : MarkovChain) :
  1 <= order ->
  Z.of_nat (String.length text) < 2 ^ 53 ->
  buildMarkovChain text (inject_Z order) = Normal chain ->
  forall key successors,
    In (key, successors) chain ->
    Forall (fun word => hasWhitespace word = false) (split SPACE key) /\
    Forall (fun nextWord =>
              exists word, nextWord = Some word /\ word <> EmptyString /\
                           hasWhitespace word = false)
           successors.
Proof.
  intros Ho Hlen H key successors Hin.
  rewrite <- ofNat_Z, buildMarkovChain_int in H by lia.
  set (K := fun key => Forall (fun word => hasWhitespace word = false) (split SPACE key)).
  set (E := fun nextWord : element =>
              exists word, nextWord = Some word /\ word <> EmptyString /\
                           hasWhitespace word = false).
  assert (Hp : Forall (fun p => K (fst p) /\ E (snd p))
                      (occurrences (Z.to_nat order) text)).
  { apply Forall_forall. intros p Hp.
    apply In_occurrences in Hp as [words [Hw Hp]].
    apply usableLines_clean in Hw as [Hl Hw].
    apply In_windows in Hp as [i [Hi ->]]. cbn [fst snd]. unfold K, E. split.
    - rewrite split_window by (try assumption; lia).
      apply Forall_window. eapply Forall_impl; [ | exact Hw]. now intros w [Hws _].
    - destruct (nth_error words (i + Z.to_nat order)) as [word | ] eqn:Hn.
      + exists word. apply nth_error_In in Hn. rewrite Forall_forall in Hw.
        destruct (Hw word Hn). auto.
      + apply nth_error_None in Hn. lia. }
  pose proof (pushes_entries K E _ _ _ Hp (Forall_nil _) H) as Hall.
  rewrite Forall_forall in Hall. destruct (Hall _ Hin) as [H1 [_ H2]]. auto.
Qed.

Lemma chain_words_clean_witness :
  Forall (fun word => hasWhitespace word = false) (split SPACE "love sunny") /\
  Forall (fun nextWord =>
            exists word, nextWord = Some word /\ word <> EmptyString /\
                         hasWhitespace word = false)
         [Some "days."; Some "mornings."].
Proof.
  apply (chain_words_clean corpus 2
           [("I love", [Some "sunny"; Some "rainy"; Some "sunny"]);
            ("love sunny", [Some "days."; Some "mornings."]);
            ("love rainy", [Some "days."])]).
  - lia.
  - vm_compute. reflexivity.
  - vm_compute. reflexivity.
  - cbn. auto.
Defined.

End ChainProperties.

(** ** buildMarkovChain: two corpora *)

Module ComposeFacts.
Import JsString JsNumber JsObject Markov Spec Posts Download Cli Terms.
Import NumberFacts StringFacts ObjectFacts BuildFacts ChainFacts.

Lemma split_concat (sep : ascii) (a b : string) :
  split sep (a ++ String sep b) = split sep a ++ split sep b.
Proof.
  induction a as [ | c a IH]; cbn [String.append split].
  - now rewrite Ascii.eqb_refl.
  - rewrite IH. destruct (Ascii.eqb c sep); [reflexivity | ].
    destruct (split_cons sep a) as [w [ws ->]]. reflexivity.
Qed.

(** The lines of two corpora put one after the other. *)
Lemma sentences_concat (a b : string) :
  sentences (a ++ String LF b) = sentences a ++ sentences b.
Proof. unfold sentences. now rewrite split_concat, filter_app. Qed.

Lemma successorsOf_app {A : Type} (key : string) (p q : list (string * A)) :
  successorsOf key (p ++ q) = successorsOf key p ++ successorsOf key q.
Proof. unfold successorsOf. now rewrite filter_app, map_app. Qed.

(** The bags of a chain built from nothing are what was pushed. *)
Lemma pushes_bagOf (pairs : list (string * element)) (chain : MarkovChain) (key : string) :
  forEach pushPair pairs [] = Normal chain ->
  bagOf chain key = successorsOf key pairs.
Proof.
  intros H. unfold bagOf. rewrite (pushes_assoc _ _ _ H key). cbn [assoc bagOf app].
  now destruct (successorsOf key pairs).
Qed.

End ComposeFacts.

Module ComposeProperties.
Import JsString JsNumber JsObject Markov Spec Posts Download Cli Terms.
Import NumberFacts StringFacts ObjectFacts BuildFacts ChainFacts ComposeFacts.

(** Corpora compose: whatever the order, when [buildMarkovChain]
    returns a chain for each of two corpora, it returns one for the two
    put one after the other with a line feed between them, and under
    every key the bag of that chain is the bag of the first chain
    followed by the bag of the second. *)
Theorem buildMarkovChain_concat (a b : string) (order : Q)
        (chain_a chain_b : MarkovChain) :
  buildMarkovChain a order = Normal chain_a ->
  buildMarkovChain b order = Normal chain_b ->
  exists chain,
    buildMarkovChain (a ++ String LF b) order = Normal chain /\
    forall key, bagOf chain key = bagOf chain_a key ++ bagOf chain_b key.
Proof.
  intros Ha Hb. rewrite buildMarkovChain_transitions in *.
  rewrite sentences_concat, flat_map_app.
  set (pa := flat_map (transitions order) (sentences a)) in *.
  set (pb := flat_map (transitions order) (sentences b)) in *.
  assert (Hp : Forall (fun p => assoc (fst p) Object_prototype = None) (pa ++ pb)).
  { apply Forall_app. split.
    - now apply (pushes_throw pa [] chain_a).
    - now apply (pushes_throw pb [] chain_b). }
  destruct (pushes_complete _ [] Hp) as [chain Hc].
  exists chain. split; [assumption | ]. intros key.
  rewrite (pushes_bagOf _ _ key Hc), (pushes_bagOf _ _ key Ha), (pushes_bagOf _ _ key Hb).
  apply successorsOf_app.
Qed.

Lemma buildMarkovChain_concat_witness :
  exists chain,
    buildMarkovChain ("I love sunny days." ++ String LF "You love rainy days.") 1
    = Normal chain /\
    forall key,
      bagOf chain key =
      bagOf [("I", [Some "love"]); ("love", [Some "sunny"]); ("sunny", [Some "days."])] key
      ++ bagOf [("You", [Some "love"]); ("love", [Some "rainy"]); ("rainy", [Some "days."])]
               key.
Proof.
  apply (buildMarkovChain_concat "I love sunny days." "You love rainy days." 1).
  - vm_compute. reflexivity.
  - vm_compute. reflexivity.
Defined.

End ComposeProperties.

(** ** Texts *)

Module TextFacts.
Import JsString JsNumber JsObject Markov Spec Posts Download Cli Terms.
Import NumberFacts StringFacts ObjectFacts BuildFacts ChainFacts GenerateFacts.

(** *** Joining and splitting clean words *)

Lemma append_assoc (a b c : string) : ((a ++ b) ++ c = a ++ (b ++ c))%string.
Proof. induction a as [ | x a IH]; cbn; [reflexivity | now rewrite IH]. Qed.

Lemma join_snoc (sep : string) (ws : list string) (w : string) :
  ws <> [] -> join sep (ws ++ [w]) = (join sep ws ++ sep ++ w)%string.
Proof.
  induction ws as [ | v ws IH]; [congruence | ]. intros _.
  destruct ws as [ | u us].
  - cbn [app]. rewrite join_cons by congruence. reflexivity.
  - change ((v :: u :: us) ++ [w]) with (v :: ((u :: us) ++ [w])).
    rewrite join_cons by (destruct us; discriminate).
    rewrite IH by congruence. rewrite (join_cons sep v (u :: us)) by congruence.
    now rewrite !append_assoc.
Qed.

Lemma split_clean (ws : list string) :
  ws <> [] -> Forall clean ws -> split SPACE (join " " ws) = ws.
Proof.
  intros Hne Hc. change " " with (String SPACE EmptyString). apply split_join;
    [assumption | ].
  eapply Forall_impl; [ | exact Hc]. intros w [H _]. now apply hasWhitespace_space.
Qed.

Lemma hasChar_append (c : ascii) (a b : string) :
  hasChar c (a ++ b) = hasChar c a || hasChar c b.
Proof. induction a as [ | x a IH]; cbn; [reflexivity | ]. now rewrite IH, orb_assoc. Qed.

(** Two or more words joined hold a space. *)
Lemma join_space (ws : list string) :
  2 <= length ws -> hasChar SPACE (join " " ws) = true.
Proof.
  destruct ws as [ | w [ | v vs]]; cbn [length]; try lia. intros _.
  rewrite join_cons by congruence. rewrite hasChar_append. cbn [hasChar String.append].
  rewrite Ascii.eqb_refl. cbn. apply orb_true_r.
Qed.

(** No property of [Object.prototype] has a space in its name. *)
Lemma prototype_space (key : string) :
  hasChar SPACE key = true -> assoc key Object_prototype = None.
Proof.
  intros H. destruct (assoc key Object_prototype) as [i | ] eqn:E; [exfalso | reflexivity].
  apply In_assoc in E. cbn in E.
  repeat (destruct E as [E | E]; [injection E as <- _; discriminate | ]).
  contradiction.
Qed.

(** *** Trimming *)

Lemma trimStart_head (c : ascii) (s : string) :
  isWhitespace c = false -> trimStart (String c s) = String c s.
Proof. intros H. cbn. now rewrite H. Qed.

Lemma trimEnd_append (a b : string) :
  trimEnd b <> EmptyString -> trimEnd (a ++ b) = (a ++ trimEnd b)%string.
Proof.
  intros H. induction a as [ | c a IH]; cbn [String.append trimEnd]; [reflexivity | ].
  rewrite IH. destruct (a ++ trimEnd b)%string eqn:E; [ | reflexivity].
  destruct a; cbn in E; [congruence | discriminate].
Qed.

Lemma trimEnd_word (w : string) : hasWhitespace w = false -> trimEnd w = w.
Proof.
  induction w as [ | c w IH]; cbn [hasWhitespace trimEnd]; [reflexivity | ].
  intros H. apply orb_false_elim in H as [Hc H]. rewrite (IH H), Hc.
  now destruct w.
Qed.

Lemma join_nonempty (ws : list string) :
  ws <> [] -> Forall clean ws -> join " " ws <> EmptyString.
Proof.
  destruct ws as [ | w ws]; [congruence | ]. intros _ H.
  inversion H as [ | ? ? [_ Hw] _]; subst.
  destruct ws as [ | v vs]; [exact Hw | ].
  rewrite join_cons by congruence. destruct w; [congruence | discriminate].
Qed.

Lemma trimEnd_join (ws : list string) :
  ws <> [] -> Forall clean ws -> trimEnd (join " " ws) = join " " ws.
Proof.
  induction ws as [ | w ws IH]; [congruence | ]. intros _ H.
  inversion H as [ | ? ? [Hw Hne] Hws]; subst.
  destruct ws as [ | v vs].
  - cbn. now apply trimEnd_word.
  - rewrite join_cons by congruence.
    assert (Hj : trimEnd (join " " (v :: vs)) = join " " (v :: vs))
      by (apply IH; [congruence | assumption]).
    assert (Hn : join " " (v :: vs) <> EmptyString)
      by (apply join_nonempty; [congruence | assumption]).
    rewrite trimEnd_append.
    + f_equal. change (trimEnd (String " " (join " " (v :: vs)))
                       = String " " (join " " (v :: vs))).
      cbn [trimEnd]. rewrite Hj. now destruct (join " " (v :: vs)).
    + cbn [String.append trimEnd]. rewrite Hj. now destruct (join " " (v :: vs)).
Qed.

Lemma trimStart_join (ws : list string) :
  ws <> [] -> Forall clean ws -> trimStart (join " " ws) = join " " ws.
Proof.
  destruct ws as [ | w ws]; [congruence | ]. intros _ H.
  inversion H as [ | ? ? [Hw Hne] _]; subst.
  destruct w as [ | c w]; [congruence | ]. cbn in Hw.
  apply orb_false_elim in Hw as [Hc _].
  destruct ws as [ | v vs].
  - cbn [join String.concat]. now apply trimStart_head.
  - rewrite join_cons by congruence. cbn [String.append]. now apply trimStart_head.
Qed.

(** Clean words joined by single spaces are already trimmed. *)
Lemma trim_join (ws : list string) :
  ws <> [] -> Forall clean ws -> trim (join " " ws) = join " " ws.
Proof.
  intros Hne Hc. unfold trim. rewrite trimStart_join by assumption.
  now apply trimEnd_join.
Qed.

Lemma trimEnd_head (c : ascii) (s : string) :
  isWhitespace c = false -> exists r, trimEnd (String c s) = String c r.
Proof.
  intros H. cbn [trimEnd]. destruct (trimEnd s); [ | now eexists].
  rewrite H. now eexists.
Qed.

Lemma trimStart_cases (s : string) :
  trimStart s = EmptyString \/
  exists c r, trimStart s = String c r /\ isWhitespace c = false.
Proof.
  induction s as [ | c s IH]; cbn [trimStart]; [now left | ].
  destruct (isWhitespace c) eqn:E; [assumption | ]. right. now exists c, s.
Qed.

(** A trimmed string is empty or starts with a code unit that is no
    whitespace. *)
Lemma trim_cases (s : string) :
  trim s = EmptyString \/ exists c r, trim s = String c r /\ isWhitespace c = false.
Proof.
  unfold trim. destruct (trimStart_cases s) as [-> | [c [r [-> Hc]]]]; [now left | ].
  right. destruct (trimEnd_head c r Hc) as [r' ->]. now exists c, r'.
Qed.

Lemma trim_head (c : ascii) (s : string) :
  isWhitespace c = false -> trim (String c s) <> EmptyString.
Proof.
  intros H. unfold trim. cbn [trimStart]. rewrite H.
  destruct (trimEnd_head c s H) as [r ->]. discriminate.
Qed.

Lemma trimEnd_trimEnd (s : string) : trimEnd (trimEnd s) = trimEnd s.
Proof.
  induction s as [ | c s IH]; [reflexivity | ]. cbn [trimEnd].
  destruct (trimEnd s) as [ | d t] eqn:E.
  - destruct (isWhitespace c) eqn:Ec; [reflexivity | ]. cbn [trimEnd]. now rewrite Ec.
  - cbn [trimEnd]. cbn [trimEnd] in IH. rewrite IH. reflexivity.
Qed.

Lemma trim_trim (s : string) : trim (trim s) = trim s.
Proof.
  unfold trim. destruct (trimStart_cases s) as [-> | [c [r [-> Hc]]]]; [reflexivity | ].
  destruct (trimEnd_head c r Hc) as [r' E]. rewrite E.
  rewrite trimStart_head by assumption. rewrite <- E. apply trimEnd_trimEnd.
Qed.

(** A string that ends a sentence ends with no whitespace. *)
Lemma trimEnd_sentence (w : string) :
  endsWithSentenceEnd w = true -> trimEnd w = w.
Proof.
  induction w as [ | c w IH]; [discriminate | ]. cbn [endsWithSentenceEnd trimEnd].
  destruct w as [ | d w'].
  - intros H. cbn [trimEnd]. destruct (isWhitespace c) eqn:E; [ | reflexivity].
    exfalso. unfold isSentenceEnd in H.
    apply orb_prop in H as [H | H]; [apply orb_prop in H as [H | H] | ];
      apply Ascii.eqb_eq in H; subst c; discriminate.
  - intros H. rewrite (IH H). reflexivity.
Qed.

(** *** The last words *)

Lemma sliceFrom_last {A : Type} (l : list A) (order : nat) :
  1 <= order <= length l ->
  sliceFrom l (- Z.of_nat order) = skipn (length l - order) l.
Proof.
  intros H. unfold sliceFrom, slice, clampIndex.
  rewrite (proj2 (Z.ltb_lt (- Z.of_nat order) 0)) by lia.
  rewrite (proj2 (Z.ltb_ge (Z.of_nat (length l)) 0)) by lia.
  rewrite Z.min_id, Nat2Z.id.
  replace (Z.to_nat (Z.max (Z.of_nat (length l) + - Z.of_nat order) 0))
    with (length l - order) by lia.
  apply firstn_all2. rewrite length_skipn. lia.
Qed.

Lemma firstn_snoc {A : Type} (l : list A) (i : nat) (x : A) :
  nth_error l i = Some x -> firstn (S i) l = firstn i l ++ [x].
Proof.
  revert i. induction l as [ | a l IH]; intros [ | i] H; cbn [nth_error] in H;
    try discriminate.
  - injection H as ->. reflexivity.
  - change (firstn (S (S i)) (a :: l)) with (a :: firstn (S i) l).
    rewrite (IH _ H). reflexivity.
Qed.

(** *** Windows of a growing list *)

Lemma windows_snoc (order : nat) (ws : list string) (w : string) (p : string * element) :
  order <= length ws ->
  In p (windows order (ws ++ [w])) ->
  In p (windows order ws) \/
  p = (join " " (skipn (length ws - order) ws), Some w).
Proof.
  intros Ho Hp. apply In_windows in Hp as [i [Hi ->]].
  rewrite length_app in Hi. cbn [length] in Hi.
  destruct (Nat.eq_dec (i + order) (length ws)) as [E | E].
  - right. f_equal.
    + f_equal. rewrite skipn_app, firstn_app, length_skipn.
      replace (order - (length ws - i)) with 0 by lia. cbn [firstn].
      rewrite app_nil_r. replace (length ws - order) with i by lia.
      apply firstn_all2. rewrite length_skipn. lia.
    + rewrite nth_error_app2 by lia. replace (i + order - length ws) with 0 by lia.
      reflexivity.
  - left. apply In_windows. exists i. split; [lia | ]. f_equal.
    + f_equal. rewrite skipn_app, firstn_app, length_skipn.
      replace (order - (length ws - i)) with 0 by lia. cbn [firstn].
      now rewrite app_nil_r.
    + apply nth_error_app1. lia.
Qed.

Lemma windows_firstn (order k : nat) (ws : list string) (p : string * element) :
  In p (windows order (firstn k ws)) -> In p (windows order ws).
Proof.
  intros Hp. apply In_windows in Hp as [i [Hi ->]].
  rewrite length_firstn in Hi. apply In_windows. exists i. split; [lia | ].
  f_equal.
  - f_equal. rewrite skipn_firstn_comm, firstn_firstn. f_equal. lia.
  - rewrite nth_error_firstn. now rewrite (proj2 (Nat.ltb_lt _ _)) by lia.
Qed.

(** *** The head of a text *)

Lemma inked_append (a b : string) : inked a = true -> inked (a ++ b) = true.
Proof. destruct a; [discriminate | trivial]. Qed.

Lemma inked_trim (s : string) : inked s = true -> inked (trim s) = true.
Proof.
  destruct s as [ | c s]; [discriminate | ]. cbn [inked]. intros H.
  apply negb_true_iff in H. unfold trim. rewrite trimStart_head by assumption.
  destruct (trimEnd_head c s H) as [r ->]. cbn [inked]. now rewrite H.
Qed.

Lemma trimStart_inked (s : string) : inked s = true -> trimStart s = s.
Proof.
  destruct s as [ | c s]; [discriminate | ]. cbn [inked]. intros H.
  apply negb_true_iff in H. now apply trimStart_head.
Qed.

Lemma trim_inked (s : string) : inked (trim s) = true \/ trim s = EmptyString.
Proof.
  destruct (trim_cases s) as [-> | [c [r [-> Hc]]]]; [now right | left].
  cbn [inked]. now rewrite Hc.
Qed.

(** The first [k] words of an inked text, joined: the same head. *)
Lemma head_firstn (t : string) (k : nat) :
  0 < k -> inked t = true ->
  exists c r r', t = String c r /\ join " " (firstn k (split SPACE t)) = String c r'.
Proof.
  intros Hk H. destruct t as [ | c t]; [discriminate | ]. cbn [inked] in H.
  apply negb_true_iff in H. exists c, t. cbn [split].
  destruct (Ascii.eqb c SPACE) eqn:E.
  { apply Ascii.eqb_eq in E. subst c. discriminate. }
  destruct (split_cons SPACE t) as [w [ws ->]].
  destruct k as [ | k]; [lia | ]. cbn [firstn].
  destruct (firstn k ws) as [ | v vs] eqn:Ef.
  - exists w. split; reflexivity.
  - rewrite join_cons by congruence. eexists. split; reflexivity.
Qed.

Lemma capital_inked (s : string) : startsWithCapital s = true -> inked s = true.
Proof.
  destruct s as [ | c s]; [discriminate | ]. cbn [startsWithCapital inked].
  intros H. destruct c as [[] [] [] [] [] [] [] []]; try discriminate H; reflexivity.
Qed.

Lemma capital_append (a b : string) :
  startsWithCapital a = true -> startsWithCapital (a ++ b) = true.
Proof. destruct a; [discriminate | trivial]. Qed.

(** *** The clean-up *)

(** The clean-up leaves the text as it is, or cuts it after a word that
    ends a sentence. *)
Lemma stopAt_found (words : list string) (indices : list nat) (result : string) :
  stopAt words indices result = result \/
  exists i word,
    nth_error words i = Some word /\ endsWithSentenceEnd word = true /\
    stopAt words indices result = join " " (firstn (S i) words).
Proof.
  induction indices as [ | i rest IH]; cbn [stopAt]; [now left | ].
  destruct (nth_error words i) as [word | ] eqn:E; cbn [toString].
  2:{ change (endsWithSentenceEnd "undefined") with false. exact IH. }
  destruct (endsWithSentenceEnd word) eqn:Ew; [ | assumption].
  right. exists i, word. repeat split; try assumption.
  unfold slice.
  replace (clampIndex (length words) 0) with 0
    by (unfold clampIndex; cbn [Z.ltb Z.compare]; lia).
  cbn [skipn]. rewrite Nat.sub_0_r. f_equal.
  assert (Hi : i < length words) by (apply nth_error_Some; congruence).
  unfold clampIndex. rewrite (proj2 (Z.ltb_ge _ 0)) by lia.
  rewrite Z.min_l by lia. f_equal. lia.
Qed.

Lemma sentence_nonempty (w : string) : endsWithSentenceEnd w = true -> w <> EmptyString.
Proof. now destruct w. Qed.

(** The words up to one that ends a sentence, joined, end with it. *)
Lemma trimEnd_firstn (words : list string) (i : nat) (word : string) :
  nth_error words i = Some word -> endsWithSentenceEnd word = true ->
  trimEnd (join " " (firstn (S i) words)) = join " " (firstn (S i) words).
Proof.
  intros Hi Hw. rewrite (firstn_snoc _ _ _ Hi).
  pose proof (trimEnd_sentence _ Hw) as Ht. pose proof (sentence_nonempty _ Hw) as Hne.
  destruct (firstn i words) as [ | v vs] eqn:E.
  - exact Ht.
  - rewrite join_snoc by congruence.
    assert (Hb : trimEnd (" " ++ word) = (" " ++ word)%string).
    { rewrite trimEnd_append; [now rewrite Ht | now rewrite Ht]. }
    rewrite trimEnd_append; [now rewrite Hb | ].
    rewrite Hb. discriminate.
Qed.

(** The clean-up leaves a trimmed text. *)
Lemma tidy_trimmed (result : string) : trim (tidy result) = tidy result.
Proof.
  unfold tidy. destruct (_ && _) eqn:E; [ | apply trim_trim].
  apply andb_prop in E as [_ E]. apply Nat.ltb_lt in E.
  destruct (stopAt_found (split SPACE (trim result))
                         (lastTen (length (split SPACE (trim result)))) (trim result))
    as [-> | [i [word [Hi [Hw ->]]]]]; [apply trim_trim | ].
  destruct (trim_inked result) as [Hk | Hk]; [ | rewrite Hk in E; cbn in E; lia].
  destruct (head_firstn (trim result) (S i) ltac:(lia) Hk) as [c [r [r' [Ht Hj]]]].
  unfold trim at 1. rewrite trimStart_inked.
  - now apply (trimEnd_firstn _ _ word).
  - rewrite Hj. rewrite Ht in Hk. exact Hk.
Qed.

(** The clean-up keeps a capital at the head. *)
Lemma tidy_capital (result : string) :
  startsWithCapital result = true -> startsWithCapital (tidy result) = true.
Proof.
  intros H. pose proof (capital_inked _ H) as Hk.
  assert (Ht : startsWithCapital (trim result) = true).
  { destruct result as [ | c s]; [discriminate | ]. cbn [inked] in Hk.
    apply negb_true_iff in Hk. unfold trim. rewrite trimStart_head by assumption.
    destruct (trimEnd_head c s Hk) as [r ->]. exact H. }
  unfold tidy. destruct (_ && _); [ | assumption].
  destruct (stopAt_found (split SPACE (trim result))
                         (lastTen (length (split SPACE (trim result)))) (trim result))
    as [-> | [i [word [_ [_ ->]]]]]; [assumption | ].
  destruct (head_firstn (trim result) (S i) ltac:(lia) (inked_trim _ Hk))
    as [c [r [r' [E ->]]]].
  rewrite E in Ht. exact Ht.
Qed.

End TextFacts.

(** ** generateText: the walk on the chain of a corpus *)

Module MarkovFacts.
Import JsString JsNumber JsObject Markov Spec Posts Download Cli Terms.
Import NumberFacts StringFacts ObjectFacts BuildFacts ChainFacts GenerateFacts TextFacts.

Section Walk.

Variable Math_random : nat -> Q.
Hypothesis Hrandom : forall k, unitInterval (Math_random k).

Variables (text : string) (order : nat) (chain : MarkovChain).
Hypothesis Horder : 1 <= order.
Hypothesis Hlength : (Z.of_nat (String.length text) < 2 ^ 53)%Z.
Hypothesis Hbuild : forEach pushPair (occurrences order text) [] = Normal chain.
Hypothesis Hplain :
  order = 1 ->
  forall key word,
    In (key, Some word) (occurrences 1 text) -> assoc word Object_prototype = None.

Lemma occurrence_parts (p : string * element) :
  In p (occurrences order text) ->
  exists line i,
    In line (usableLines order text) /\ i + order < length line /\
    Forall clean line /\
    fst p = join " " (firstn order (skipn i line)) /\
    exists word, snd p = Some word /\ In word line.
Proof.
  intros Hp. apply In_occurrences in Hp as [line [Hl Hp]].
  pose proof (usableLines_clean _ _ _ Hl) as [_ Hc].
  apply In_windows in Hp as [i [Hi ->]]. exists line, i. cbn [fst snd].
  repeat split; try assumption.
  destruct (nth_error line (i + order)) as [word | ] eqn:E.
  - exists word. split; [reflexivity | now apply nth_error_In in E].
  - apply nth_error_None in E. lia.
Qed.

Lemma chain_bag (key : string) :
  assoc key chain =
  match successorsOf key (occurrences order text) with
  | [] => None
  | successors => Some successors
  end.
Proof. now rewrite (pushes_assoc _ _ _ Hbuild key). Qed.

Lemma chain_key (key : string) :
  In key (map fst chain) -> exists p, In p (occurrences order text) /\ fst p = key.
Proof.
  intros H. rewrite (pushes_keys _ _ _ Hbuild) in H. cbn [map app] in H.
  apply distinct_spec in H as [H _]. apply in_map_iff in H as [p [E H]]. now exists p.
Qed.

(** What a turn of the walk draws is a word that follows the current
    key somewhere in the corpus. *)
Lemma drawNextWord_occurrence (currentKey : string) (w w' : world) (nextWord : element) :
  (assoc currentKey chain = None -> assoc currentKey Object_prototype = None) ->
  drawNextWord Math_random chain currentKey w = Next nextWord w' ->
  exists word, nextWord = Some word /\
               In (currentKey, Some word) (occurrences order text).
Proof.
  intros Hk. unfold drawNextWord, get.
  destruct (assoc currentKey chain) as [[ | v vs] | ] eqn:E; [discriminate | | ].
  - assert (Hb : (0 < Z.of_nat (length (v :: vs)) < 2 ^ 53)%Z).
    { split; [cbn [length]; lia | ]. rewrite chain_bag in E.
      destruct (successorsOf currentKey (occurrences order text)) as [ | x xs] eqn:Es;
        [discriminate | ].
      injection E as <- <-. rewrite <- Es.
      pose proof (successorsOf_length currentKey (occurrences order text)).
      pose proof (occurrences_length order text). lia. }
    destruct (pick_Some Math_random (v :: vs) w (Hrandom _) Hb) as [x Hx].
    rewrite Hx. intros [= <- _]. apply pick_In in Hx.
    rewrite chain_bag in E.
    destruct (successorsOf currentKey (occurrences order text)) as [ | y ys] eqn:Es;
      [discriminate | ].
    injection E as E1 E2. rewrite <- E1, <- E2, <- Es in Hx. unfold successorsOf in Hx.
    apply in_map_iff in Hx as [[k e] [He Hx]]. cbn [snd] in He. subst e.
    apply filter_In in Hx as [Hx Hkey]. cbn [fst] in Hkey.
    apply String.eqb_eq in Hkey. subst k.
    destruct (occurrence_parts _ Hx) as [_ [_ [_ [_ [_ [_ [word [Hw _]]]]]]]].
    cbn [snd] in Hw. subst x. exists word. split; [reflexivity | exact Hx].
  - rewrite (Hk eq_refl). discriminate.
Qed.

Lemma chained_snoc (ws : list string) (word : string) :
  chained order text ws -> order <= length ws ->
  In (join " " (skipn (length ws - order) ws), Some word) (occurrences order text) ->
  chained order text (ws ++ [word]).
Proof.
  intros [Hne [Hc [Hin Hw]]] Ho Hp.
  destruct (occurrence_parts _ Hp) as [line [i [Hl [Hi [Hcl [_ [word' [E Hword]]]]]]]].
  cbn [snd] in E. injection E as <-.
  split; [now destruct ws | ]. split; [ | split].
  - apply Forall_app. split; [assumption | ]. constructor; [ | constructor].
    rewrite Forall_forall in Hcl. now apply Hcl.
  - apply Forall_app. split; [assumption | ]. constructor; [ | constructor].
    now exists line.
  - intros p Hin'. apply windows_snoc in Hin' as [Hin' | ->]; [ | assumption | assumption].
    now apply Hw.
Qed.

Lemma chained_firstn (ws : list string) (k : nat) :
  chained order text ws -> 0 < k -> chained order text (firstn k ws).
Proof.
  intros [Hne [Hc [Hin Hw]]] Hk. split; [ | split; [ | split]].
  - destruct ws; [congruence | ]. destruct k; [lia | discriminate].
  - apply Forall_forall. intros w Hw'. rewrite Forall_forall in Hc.
    now apply Hc, (In_firstn w k).
  - apply Forall_forall. intros w Hw'. rewrite Forall_forall in Hin.
    now apply Hin, (In_firstn w k).
  - intros p Hp. now apply Hw, (windows_firstn order k).
Qed.

Lemma le_order (n : nat) :
  le (inject_Z (Z.of_nat order)) (ofNat n) = (order <=? n).
Proof.
  unfold ofNat. rewrite le_int. destruct (order <=? n) eqn:E.
  - apply Nat.leb_le in E. apply Z.leb_le. lia.
  - apply Nat.leb_gt in E. apply Z.leb_gt. lia.
Qed.

(** The walk keeps the text chained. *)
Lemma walk_chained (fuel : nat) (maxLength : Q) (ws : list string)
      (currentKey : string) (w : world) (r : string) (w' : world) :
  chained order text ws -> order <= length ws ->
  currentKey = join " " (skipn (length ws - order) ws) ->
  (assoc currentKey chain = None -> assoc currentKey Object_prototype = None) ->
  walk Math_random fuel chain maxLength (inject_Z (Z.of_nat order))
       (join " " ws) currentKey w = (r, w') ->
  exists ws', r = join " " ws' /\ chained order text ws'.
Proof.
  revert ws currentKey w.
  induction fuel as [ | fuel IH]; intros ws currentKey w Hch Ho Hkey Hown; cbn [walk].
  - intros [= <- _]. now exists ws.
  - destruct (lt _ maxLength); [ | intros [= <- _]; now exists ws].
    destruct (drawNextWord Math_random chain currentKey w) as [ | nextWord w1] eqn:Hd;
      [intros [= <- _]; now exists ws | ].
    apply drawNextWord_occurrence in Hd as [word [-> Hocc]]; [ | assumption].
    cbn [toString]. subst currentKey.
    pose proof (chained_snoc ws word Hch Ho Hocc) as Hch'.
    assert (Hne : ws <> []) by apply Hch.
    rewrite <- (join_snoc " " ws word Hne).
    rewrite split_clean by apply Hch'.
    rewrite le_order, length_app. cbn [length].
    rewrite (proj2 (Nat.leb_le _ _)) by lia.
    destruct (_ && _); [intros [= <- _]; now exists (ws ++ [word]) | ].
    apply IH; try assumption.
    + rewrite length_app. cbn [length]. lia.
    + change (- inject_Z (Z.of_nat order))%Q with (inject_Z (- Z.of_nat order)).
      rewrite truncate_int, sliceFrom_last; [reflexivity | ].
      rewrite length_app. cbn [length]. lia.
    + intros _.
      change (- inject_Z (Z.of_nat order))%Q with (inject_Z (- Z.of_nat order)).
      rewrite truncate_int, sliceFrom_last
        by (rewrite length_app; cbn [length]; lia).
      destruct (Nat.eq_dec order 1) as [E1 | E1].
      * rewrite length_app. cbn [length]. rewrite E1.
        replace (length ws + 1 - 1) with (length ws) by lia.
        rewrite skipn_app, skipn_all, Nat.sub_diag. cbn [skipn app join String.concat].
        apply (Hplain E1 (join " " (skipn (length ws - order) ws))).
        now rewrite <- E1.
      * apply prototype_space, join_space. rewrite length_skipn, length_app.
        cbn [length]. lia.
Qed.

Lemma tidy_chained (ws : list string) :
  chained order text ws ->
  exists ws', tidy (join " " ws) = join " " ws' /\ chained order text ws'.
Proof.
  intros Hch. unfold tidy. rewrite trim_join by apply Hch.
  destruct (_ && _); [ | now exists ws].
  rewrite split_clean by apply Hch.
  destruct (stopAt_found ws (lastTen (length ws)) (join " " ws))
    as [-> | [i [word [_ [_ ->]]]]]; [now exists ws | ].
  exists (firstn (S i) ws). split; [reflexivity | ].
  apply chained_firstn; [assumption | lia].
Qed.

(** Every candidate is a text of the chain. *)
Lemma candidate_chained (maxLength : Q) (w : world) (r : string) (w' : world) :
  candidate Math_random chain (Object_keys chain) maxLength
            (inject_Z (Z.of_nat order)) w = (Normal r, w') ->
  exists ws, r = join " " ws /\ chained order text ws.
Proof.
  unfold candidate.
  destruct (if 0 <? length (filter startsWithCapital (Object_keys chain))
            then pick Math_random (filter startsWithCapital (Object_keys chain)) w
            else pick Math_random (Object_keys chain) w) as [[startKey | ] w1] eqn:Ep;
    [ | discriminate].
  assert (Hin : In startKey (map fst chain)).
  { apply Object_keys_In. destruct (0 <? _); apply pick_In in Ep; [ | assumption].
    now apply filter_In in Ep as [Ep _]. }
  destruct (walk _ _ _ _ _ _ _ _) as [r0 w2] eqn:Hw. intros [= <- _].
  destruct (chain_key _ Hin) as [p [Hp Hkey]].
  destruct (occurrence_parts _ Hp) as [line [i [Hl [Hi [Hcl [Hfst _]]]]]].
  rewrite Hkey in Hfst. set (ws := firstn order (skipn i line)) in *.
  assert (Hlen : length ws = order).
  { unfold ws. rewrite length_firstn, length_skipn. lia. }
  assert (Hws : chained order text ws).
  { split; [ | split; [ | split]].
    - intros E. rewrite E in Hlen. cbn in Hlen. lia.
    - now apply Forall_window.
    - apply Forall_forall. intros word Hword. exists line. split; [assumption | ].
      unfold ws in Hword. now apply In_firstn, In_skipn in Hword.
    - unfold windows. rewrite Hlen, Nat.sub_diag. intros x []. }
  rewrite Hfst in Hw at 1.
  apply (walk_chained _ _ ws) in Hw as [ws' [-> Hch]]; try assumption.
  - now apply tidy_chained.
  - lia.
  - now rewrite Hlen, Nat.sub_diag.
  - intros E. apply in_map_iff in Hin as [[k b] [Ek Hb]]. cbn [fst] in Ek. subst k.
    apply assoc_In in Hb as [b' Hb]. congruence.
Qed.

End Walk.

End MarkovFacts.

(** ** generateText and generatePost: how they end *)

Module PostFacts.
Import JsString JsNumber JsObject Markov Spec Posts Download Cli Terms.
Import NumberFacts StringFacts ObjectFacts BuildFacts ChainFacts GenerateFacts TextFacts.
Import AnalysisClaims.

Lemma attemptsLeft_positive (maxAttempts : Q) :
  (0 < maxAttempts)%Q -> exists n, attemptsLeft maxAttempts = S n.
Proof.
  intros H. unfold attemptsLeft.
  assert (Hc : (0 < Qceiling maxAttempts)%Z).
  { rewrite Zlt_Qlt. eapply Qlt_le_trans; [exact H | apply Qle_ceiling]. }
  exists (Z.to_nat (Qceiling maxAttempts) - 1). lia.
Qed.

Lemma compared_0 (w : world) : compared 0 w = w.
Proof. destruct w as [d c n]. unfold compared. cbn. f_equal. lia. Qed.

Section Generation.

Variable Math_random : nat -> Q.

(** The loop returns a text that copies no original line, or logs that
    it gave up. *)
Lemma attempt_no_copy (chain : MarkovChain) (keys : list string)
      (maxLength order : Q) (originalText : list string) (maxAttempts : Q)
      (remaining attempts : nat) (result : string) (w : world) (r : string) (w' : world) :
  attempt Math_random remaining attempts chain keys maxLength order
          originalText maxAttempts result w = (Normal r, w') ->
  (forall line, In line originalText -> equalIgnoringCase (trim line) r = false) \/
  last (console w') (LogRetry 0) = LogExhausted maxAttempts.
Proof.
  revert attempts result w. induction remaining as [ | remaining IH];
    intros attempts result w; cbn [attempt].
  - intros [= _ <-]. right. unfold log. cbn [console]. apply last_last.
  - destruct (candidate _ _ _ _ _ w) as [[r1 | m] w1]; [ | discriminate].
    destruct (isDuplicate originalText r1 w1) as [duplicate w2] eqn:Hd.
    destruct duplicate; cbn [negb]; [apply IH | ].
    intros [= <- _]. left. intros line Hin.
    destruct (equalIgnoringCase (trim line) r1) eqn:E; [exfalso | reflexivity].
    assert (H : fst (isDuplicate originalText r1 w1) = true)
      by (apply isDuplicate_ignoring_case; now exists line).
    rewrite Hd in H. discriminate.
Qed.

(** [generateText] does not throw on draws from the unit interval. *)
Lemma generateText_normal (chain : MarkovChain) (maxLength order : Q)
      (originalText : list string) (maxAttempts : Q) (w : world) :
  (forall k, unitInterval (Math_random k)) ->
  (Z.of_nat (length chain) < 2 ^ 53)%Z ->
  exists r w',
    generateText Math_random chain maxLength order originalText maxAttempts w
    = (Normal r, w').
Proof.
  intros Hr Hc. unfold generateText.
  destruct (length (Object_keys chain) =? 0) eqn:E; [now eexists _, _ | ].
  apply Nat.eqb_neq in E.
  assert (Hk : (0 < Z.of_nat (length (Object_keys chain)) < 2 ^ 53)%Z).
  { rewrite Object_keys_length in *. lia. }
  destruct (attempt_retries Math_random chain (Object_keys chain) maxLength order
                            originalText maxAttempts Hr Hk
                            (attemptsLeft maxAttempts) 0 EmptyString w)
    as [duplicates [attempts [wd [_ [_ [[_ [r [w1 [w' [_ [_ H]]]]]] | [_ H]]]]]]].
  - rewrite H. eexists _, _. reflexivity.
  - rewrite H. eexists _, _. reflexivity.
Qed.

Lemma walk_prefix (fuel : nat) (chain : MarkovChain) (maxLength order : Q)
      (result currentKey : string) (w : world) (r : string) (w' : world) :
  walk Math_random fuel chain maxLength order result currentKey w = (r, w') ->
  exists rest, r = (result ++ rest)%string.
Proof.
  assert (Hnil : forall s : string, (s ++ "")%string = s).
  { induction s as [ | c s IH]; cbn; [reflexivity | now rewrite IH]. }
  revert result currentKey w.
  induction fuel as [ | fuel IH]; intros result currentKey w; cbn [walk].
  - intros [= <- _]. exists EmptyString. now rewrite Hnil.
  - destruct (lt _ maxLength); [ | intros [= <- _]; exists EmptyString; now rewrite Hnil].
    destruct (drawNextWord _ _ _ _) as [ | nextWord w1];
      [intros [= <- _]; exists EmptyString; now rewrite Hnil | ].
    destruct (le order _); [ | intros [= <- _]; now eexists].
    destruct (_ && _); [intros [= <- _]; now eexists | ].
    intros H. apply IH in H as [rest ->]. rewrite append_assoc. now eexists.
Qed.

(** With a key that starts with a capital, so does every candidate. *)
Lemma candidate_capital (chain : MarkovChain) (keys : list string)
      (maxLength order : Q) (w : world) (r : string) (w' : world) :
  (exists key, In key keys /\ startsWithCapital key = true) ->
  candidate Math_random chain keys maxLength order w = (Normal r, w') ->
  startsWithCapital r = true.
Proof.
  intros [key [Hin Hcap]]. unfold candidate.
  assert (Hs : (0 <? length (filter startsWithCapital keys)) = true).
  { apply Nat.ltb_lt.
    assert (H : In key (filter startsWithCapital keys)).
    { apply filter_In. split; assumption. }
    destruct (filter startsWithCapital keys); [contradiction | cbn; lia]. }
  rewrite Hs.
  destruct (pick Math_random _ w) as [[startKey | ] w1] eqn:Ep; [ | discriminate].
  apply pick_In, filter_In in Ep as [_ Ep].
  destruct (walk _ _ _ _ _ _ _ _) as [r0 w2] eqn:Hw. intros [= <- _].
  apply walk_prefix in Hw as [rest ->]. now apply tidy_capital, capital_append.
Qed.

Lemma candidate_trimmed (chain : MarkovChain) (keys : list string)
      (maxLength order : Q) (w : world) (r : string) (w' : world) :
  candidate Math_random chain keys maxLength order w = (Normal r, w') ->
  trim r = r.
Proof.
  unfold candidate.
  destruct (if 0 <? _ then _ else _) as [[startKey | ] w1]; [ | discriminate].
  destruct (walk _ _ _ _ _ _ _ _) as [r0 w2]. intros [= <- _]. apply tidy_trimmed.
Qed.

End Generation.

(** The only error of a run of pushes. *)
Lemma pushes_message (pairs : list (string * element)) (chain : MarkovChain)
      (message : string) :
  forEach pushPair pairs chain = TypeError message ->
  message = "chain[key].push is not a function".
Proof.
  revert chain. induction pairs as [ | [k x] pairs IH]; intros chain; cbn [forEach];
    [discriminate | ].
  unfold pushPair at 1. cbn [fst snd].
  destruct (push chain k x) as [c1 | m] eqn:E; [apply IH | ].
  intros [= <-]. unfold push in E.
  destruct (match get chain k with Undefined => set chain k [] | _ => chain end) as [ | e c];
    destruct (get _ k); congruence.
Qed.

Lemma usableLines_more (order : nat) (text : string) :
  1 <= order -> usableLines 1 text = [] -> usableLines order text = [].
Proof.
  unfold usableLines. intros Ho.
  induction (map tokens _) as [ | words l IH]; cbn [filter]; [reflexivity | ].
  destruct (1 <? length words) eqn:E; [discriminate | ]. intros H.
  apply Nat.ltb_ge in E. rewrite (proj2 (Nat.ltb_ge _ _)) by lia. now apply IH.
Qed.

Lemma getRandomMarkovOrder_range (rand : Q) :
  (1 <= getRandomMarkovOrder rand <= 3)%Z.
Proof.
  unfold getRandomMarkovOrder. generalize (literal 0.10) (literal 0.95). intros a b.
  destruct (lt rand a); [lia | ]. destruct (lt rand b); lia.
Qed.

Lemma Qeq_bool_int (z : Z) : (1 <= z)%Z -> Qeq_bool (inject_Z z) 0 = false.
Proof.
  intros H. destruct (Qeq_bool _ 0) eqn:E; [exfalso | reflexivity].
  apply Qeq_bool_eq in E. unfold Qeq in E. cbn [Qnum Qden inject_Z] in E. lia.
Qed.

Lemma buildMarkovChain_empty (order : Z) (text : string) :
  (1 <= order)%Z ->
  (Z.of_nat (String.length text) < 2 ^ 53)%Z ->
  usableLines 1 text = [] ->
  buildMarkovChain text (inject_Z order) = Normal [].
Proof.
  intros Ho Hlen H. rewrite <- (Z2Nat.id order) by lia.
  fold (ofNat (Z.to_nat order)). rewrite buildMarkovChain_int by assumption.
  apply (usableLines_more (Z.to_nat order)) in H; [ | lia].
  apply occurrences_nil in H. now rewrite H.
Qed.

(** With an integer order of at least 2 no window is the name of a
    property of [Object.prototype]. *)
Lemma occurrences_plain (order : nat) (text : string) :
  2 <= order ->
  Forall (fun p => assoc (fst p) Object_prototype = None) (occurrences order text).
Proof.
  intros Ho. pose proof (occurrences_keys order text ltac:(lia)) as H.
  eapply Forall_impl; [ | exact H]. intros p [Hl _].
  apply prototype_space, key_space. lia.
Qed.

(** An integer order of at least 2: the chain is built, and a text
    generated from it. *)
Lemma build_and_generate (Math_random : nat -> Q) (userPosts : string) (order : Z) :
  (2 <= order)%Z ->
  (Z.of_nat (String.length userPosts) < 2 ^ 53)%Z ->
  (forall k, unitInterval (Math_random k)) ->
  exists chain,
    buildMarkovChain userPosts (inject_Z order) = Normal chain /\
    (forall maxLength originalText maxAttempts w,
        exists r w',
          generateText Math_random chain maxLength (inject_Z order) originalText
                       maxAttempts w = (Normal r, w')) /\
    (forall maxLength w,
        exists r w',
          Legacy.generateText Math_random chain maxLength (inject_Z order) w
          = (Normal r, w')).
Proof.
  intros Ho Hlen Hr.
  assert (Hb : buildMarkovChain userPosts (inject_Z order)
               = forEach pushPair (occurrences (Z.to_nat order) userPosts) []).
  { rewrite <- buildMarkovChain_int by assumption. unfold ofNat.
    now rewrite Z2Nat.id by lia. }
  destruct (pushes_complete _ [] (occurrences_plain (Z.to_nat order) userPosts ltac:(lia)))
    as [chain Hc].
  exists chain. rewrite Hb. split; [assumption | ].
  pose proof (chain_size userPosts (Z.to_nat order) chain Hlen Hc) as Hs.
  split.
  - intros maxLength originalText maxAttempts w. now apply generateText_normal.
  - intros maxLength w. unfold Legacy.generateText.
    destruct (length (Object_keys chain) =? 0) eqn:E; [now eexists _, _ | ].
    apply Nat.eqb_neq in E. apply candidate_normal; [apply Hr | ].
    rewrite Object_keys_length in *. lia.
Qed.

Lemma getRandomMarkovOrder_two (rand : Q) :
  (literal 0.10 <= rand)%Q -> (2 <= getRandomMarkovOrder rand)%Z.
Proof.
  unfold getRandomMarkovOrder. generalize (literal 0.10) (literal 0.95). intros a b H.
  apply lt_false in H. rewrite H. destruct (lt rand b); lia.
Qed.

End PostFacts.

(** ** generateText: the clean-up *)

Module CleanupFacts.
Import JsString JsNumber JsObject Markov Spec Posts Download Cli Terms.
Import NumberFacts StringFacts ObjectFacts BuildFacts ChainFacts GenerateFacts TextFacts.

Lemma endsWithSentenceEnd_append (a w : string) :
  w <> EmptyString -> endsWithSentenceEnd (a ++ w) = endsWithSentenceEnd w.
Proof.
  intros Hw. induction a as [ | c a IH]; [reflexivity | ].
  cbn [String.append endsWithSentenceEnd]. rewrite IH.
  destruct (a ++ w)%string eqn:E; [ | reflexivity].
  destruct a; cbn in E; [congruence | discriminate].
Qed.

(** The words up to one that ends a sentence, joined, end that sentence. *)
Lemma endsWithSentenceEnd_firstn (words : list string) (i : nat) (word : string) :
  nth_error words i = Some word -> endsWithSentenceEnd word = true ->
  endsWithSentenceEnd (join " " (firstn (S i) words)) = true.
Proof.
  intros Hi Hw. rewrite (firstn_snoc _ _ _ Hi).
  pose proof (sentence_nonempty _ Hw) as Hne.
  destruct (firstn i words) as [ | v vs]; [exact Hw | ].
  rewrite join_snoc by congruence. rewrite <- append_assoc.
  now rewrite endsWithSentenceEnd_append.
Qed.

Lemma slice_firstn {A : Type} (words : list A) (i : nat) (word : A) :
  nth_error words i = Some word ->
  slice words 0 (Z.of_nat i + 1) = firstn (S i) words.
Proof.
  intros Hi. assert (Hlt : i < length words) by (apply nth_error_Some; congruence).
  unfold slice.
  replace (clampIndex (length words) 0) with 0
    by (unfold clampIndex; cbn [Z.ltb Z.compare]; lia).
  cbn [skipn]. rewrite Nat.sub_0_r.
  unfold clampIndex. rewrite (proj2 (Z.ltb_ge _ 0)) by lia.
  rewrite Z.min_l by lia. f_equal. lia.
Qed.

(** The loop of the clean-up cuts the text after a word that ends a
    sentence, or has found no such word where it looked. *)
Lemma stopAt_searched (words : list string) (indices : list nat) (result : string) :
  (stopAt words indices result = result /\
   forall i word, In i indices -> nth_error words i = Some word ->
                  endsWithSentenceEnd word = false) \/
  exists i word,
    nth_error words i = Some word /\ endsWithSentenceEnd word = true /\
    stopAt words indices result = join " " (firstn (S i) words).
Proof.
  induction indices as [ | i rest IH]; [left; split; [reflexivity | intros ? ? []] | ].
  cbn [stopAt]. destruct (nth_error words i) as [word | ] eqn:En; cbn [toString].
  - destruct (endsWithSentenceEnd word) eqn:E.
    + right. exists i, word. repeat split; try assumption.
      now rewrite (slice_firstn _ _ _ En).
    + destruct IH as [[IH1 IH2] | IH]; [left | right; assumption].
      split; [assumption | ]. intros j wj [<- | Hj] Hn; [ | now apply (IH2 j)].
      rewrite En in Hn. injection Hn as <-. exact E.
  - change (endsWithSentenceEnd "undefined") with false. cbv iota.
    destruct IH as [[IH1 IH2] | IH]; [left | right; assumption].
    split; [assumption | ]. intros j wj [<- | Hj] Hn; [ | now apply (IH2 j)].
    rewrite En in Hn. discriminate.
Qed.

Lemma lastTen_In (len i : nat) : len - 10 <= i < len -> In i (lastTen len).
Proof. intros H. unfold lastTen. apply in_rev. rewrite rev_involutive. apply in_seq. lia. Qed.

(** What the clean-up returns is tidied. *)
Lemma tidy_tidied (result : string) : tidied (tidy result).
Proof.
  unfold tidy, tidied.
  destruct (endsWithSentenceEnd (trim result)) eqn:E; cbn [negb andb]; [now left | ].
  destruct (100 <? String.length (trim result)) eqn:El;
    [ | apply Nat.ltb_ge in El; right; now left].
  destruct (stopAt_searched (split SPACE (trim result))
                            (lastTen (length (split SPACE (trim result)))) (trim result))
    as [[-> Hnone] | [i [word [Hi [Hw ->]]]]].
  - right. right. unfold noStopInLastTen. apply forallb_forall. intros word Hin.
    apply In_nth_error in Hin as [i Hi]. rewrite nth_error_skipn in Hi.
    apply negb_true_iff.
    apply (Hnone (length (split SPACE (trim result)) - 10 + i) word); [ | exact Hi].
    apply lastTen_In. split; [lia | ]. apply nth_error_Some. congruence.
  - left. now apply (endsWithSentenceEnd_firstn _ _ word).
Qed.

End CleanupFacts.

(** ** generateText: the text *)

Module GenerateProperties.
Import JsString JsNumber JsObject Markov Spec Posts Download Cli Terms.
Import NumberFacts StringFacts ObjectFacts BuildFacts ChainFacts GenerateFacts.
Import TextFacts MarkovFacts PostFacts CleanupFacts.

(** With no original lines to compare with and at least one attempt
    allowed, [generateText] is the [generateText] of the earlier
    markov.ts: the same result, the same draws, nothing logged. *)
Theorem generateText_legacy (Math_random : nat -> Q) (chain : MarkovChain)
        (maxLength order maxAttempts : Q) (w : world) :
  (0 < maxAttempts)%Q ->
  generateText Math_random chain maxLength order [] maxAttempts w =
  Legacy.generateText Math_random chain maxLength order w.
Proof.
  intros H. unfold generateText, Legacy.generateText.
  destruct (length (Object_keys chain) =? 0); [reflexivity | ].
  destruct (attemptsLeft_positive _ H) as [n ->]. cbn [attempt].
  destruct (candidate _ _ _ _ _ w) as [[r | m] w1]; [ | reflexivity].
  unfold isDuplicate. cbn [some negb]. now rewrite compared_0.
Qed.

Lemma generateText_legacy_witness :
  generateText (fun _ => 0%Q) [("Hello world", [Some "again"])] 280 2 [] 10 (World 0 [] 0) =
  Legacy.generateText (fun _ => 0%Q) [("Hello world", [Some "again"])] 280 2 (World 0 [] 0).
Proof. apply generateText_legacy. reflexivity. Defined.

(** The text generated from the chain of a corpus is made of the
    corpus: with an integer order of at least 1, draws from the unit
    interval and at least one attempt allowed, [generateText] returns
    the sentence "Not enough data to generate text" when the corpus has
    no usable line, and otherwise a text whose words are words of usable
    lines and in which every run of [order + 1] words is a window of a
    usable line followed by its successor there.  At order 1 this needs
    that no successor is the name of a property of [Object.prototype]. *)
Theorem generateText_markov (Math_random : nat -> Q) (text : string) (order : Z)
        (chain : MarkovChain) (maxLength : Q) (originalText : list string)
        (maxAttempts : Q) (w : world) (result : string) (w' : world) :
  (1 <= order)%Z ->
  (Z.of_nat (String.length text) < 2 ^ 53)%Z ->
  (forall k, unitInterval (Math_random k)) ->
  (0 < maxAttempts)%Q ->
  buildMarkovChain text (inject_Z order) = Normal chain ->
  (order = 1%Z ->
   forall key word,
     In (key, Some word) (occurrences 1 text) -> assoc word Object_prototype = None) ->
  generateText Math_random chain maxLength (inject_Z order) originalText
               maxAttempts w = (Normal result, w') ->
  (usableLines (Z.to_nat order) text = [] /\
   result = "Not enough data to generate text") \/
  (Forall (fun word =>
             exists line, In line (usableLines (Z.to_nat order) text) /\ In word line)
          (split SPACE result) /\
   incl (windows (Z.to_nat order) (split SPACE result))
        (occurrences (Z.to_nat order) text)).
Proof.
  intros Ho Hlen Hr Ha Hbuild Hplain.
  assert (Hb : forEach pushPair (occurrences (Z.to_nat order) text) [] = Normal chain).
  { rewrite <- buildMarkovChain_int by assumption. unfold ofNat.
    now rewrite Z2Nat.id by lia. }
  assert (Hp : Z.to_nat order = 1 ->
               forall key word,
                 In (key, Some word) (occurrences 1 text) ->
                 assoc word Object_prototype = None).
  { intros E. apply Hplain. lia. }
  set (P := fun r =>
              Forall (fun word =>
                        exists line,
                          In line (usableLines (Z.to_nat order) text) /\ In word line)
                     (split SPACE r) /\
              incl (windows (Z.to_nat order) (split SPACE r))
                   (occurrences (Z.to_nat order) text)).
  assert (Hc : forall w0 r w1,
             candidate Math_random chain (Object_keys chain) maxLength
                       (inject_Z order) w0 = (Normal r, w1) -> P r).
  { intros w0 r w1 Hcand. rewrite <- (Z2Nat.id order) in Hcand by lia.
    apply (candidate_chained Math_random Hr text (Z.to_nat order) chain
                             ltac:(lia) Hlen Hb Hp) in Hcand
      as [ws [-> [Hne [Hcl [Hin Hw]]]]].
    unfold P. rewrite split_clean by assumption. split; assumption. }
  unfold generateText. destruct (length (Object_keys chain) =? 0) eqn:Ek.
  - intros [= <- _]. left. split; [ | reflexivity].
    apply Nat.eqb_eq, length_zero_iff_nil, Object_keys_nil in Ek. subst chain.
    apply occurrences_nil.
    destruct (occurrences (Z.to_nat order) text) as [ | [k x] pairs]; [reflexivity | ].
    apply pushes_keys in Hb. cbn in Hb. discriminate.
  - destruct (attemptsLeft_positive _ Ha) as [n ->]. cbn [attempt].
    destruct (candidate _ _ _ _ _ w) as [[r1 | m] w1] eqn:E1; [ | discriminate].
    apply Hc in E1.
    destruct (isDuplicate originalText r1 w1) as [[ | ] w2]; cbn [negb].
    + intros H. right.
      apply (attempt_result Math_random P _ _ _ _ _ _ Hc _ _ _ _ _ _ E1 H).
    + intros [= <- _]. now right.
Qed.

Lemma generateText_markov_witness :
  (usableLines (Z.to_nat 2) corpus = [] /\
   "I love rainy days." = "Not enough data to generate text") \/
  (Forall (fun word =>
             exists line, In line (usableLines (Z.to_nat 2) corpus) /\ In word line)
          (split SPACE "I love rainy days.") /\
   incl (windows (Z.to_nat 2) (split SPACE "I love rainy days."))
        (occurrences (Z.to_nat 2) corpus)).
Proof.
  apply (generateText_markov (fun _ => (1 # 2)%Q) corpus 2
           [("I love", [Some "sunny"; Some "rainy"; Some "sunny"]);
            ("love sunny", [Some "days."; Some "mornings."]);
            ("love rainy", [Some "days."])]
           280 [] 10 (World 0 [] 0) "I love rainy days." (World 3 [] 0)).
  - lia.
  - vm_compute. reflexivity.
  - intros k. split; vm_compute; discriminate.
  - reflexivity.
  - vm_compute. reflexivity.
  - intros E. discriminate E.
  - vm_compute. reflexivity.
Defined.

(** Whatever the chain, the order and the draws, the text that
    [generateText] returns is trimmed: no whitespace before or after
    it, also when the clean-up has cut it after a sentence. *)
Theorem generateText_trimmed (Math_random : nat -> Q) (chain : MarkovChain)
        (maxLength order : Q) (originalText : list string) (maxAttempts : Q)
        (w : world) (result : string) (w' : world) :
  generateText Math_random chain maxLength order originalText maxAttempts w
  = (Normal result, w') ->
  trim result = result.
Proof.
  unfold generateText. destruct (length (Object_keys chain) =? 0).
  - intros [= <- _]. reflexivity.
  - apply (attempt_result Math_random (fun r => trim r = r)); [ | reflexivity].
    intros w0 r w1. apply candidate_trimmed.
Qed.

Lemma generateText_trimmed_witness :
  trim "Hello world again" = "Hello world again".
Proof.
  apply (generateText_trimmed (fun _ => 0%Q) [("Hello world", [Some "again"])] 280 2 [] 1
                              (World 0 [] 0) "Hello world again" (World 2 [] 0)).
  vm_compute. reflexivity.
Defined.

(** When a key of the chain starts with a capital letter A-Z and at
    least one attempt is allowed, the text that [generateText] returns
    starts with a capital letter: the start key is taken among such
    keys, and neither the walk nor the clean-up touches its head. *)
Theorem generateText_capital (Math_random : nat -> Q) (chain : MarkovChain)
        (maxLength order : Q) (originalText : list string) (maxAttempts : Q)
        (w : world) (result : string) (w' : world) :
  (exists key, In key (Object_keys chain) /\ startsWithCapital key = true) ->
  (0 < maxAttempts)%Q ->
  generateText Math_random chain maxLength order originalText maxAttempts w
  = (Normal result, w') ->
  startsWithCapital result = true.
Proof.
  intros Hkey Ha. unfold generateText.
  destruct (length (Object_keys chain) =? 0) eqn:E.
  { destruct Hkey as [key [Hin _]]. apply Nat.eqb_eq, length_zero_iff_nil in E.
    rewrite E in Hin. contradiction. }
  destruct (attemptsLeft_positive _ Ha) as [n ->]. cbn [attempt].
  destruct (candidate _ _ _ _ _ w) as [[r1 | m] w1] eqn:E1; [ | discriminate].
  apply candidate_capital in E1; [ | assumption].
  destruct (isDuplicate originalText r1 w1) as [[ | ] w2]; cbn [negb].
  - apply (attempt_result Math_random (fun r => startsWithCapital r = true));
      [ | assumption].
    intros w0 r w3. now apply candidate_capital.
  - now intros [= <- _].
Qed.

Lemma generateText_capital_witness :
  startsWithCapital "Hello world again" = true.
Proof.
  apply (generateText_capital (fun _ => 0%Q)
           [("it rains", [Some "again"]); ("Hello world", [Some "again"])] 280 2 [] 1
           (World 0 [] 0) "Hello world again" (World 2 [] 0)).
  - exists "Hello world". split; [vm_compute; auto | reflexivity].
  - reflexivity.
  - vm_compute. reflexivity.
Defined.

(** Whatever the chain, the order and the draws, a text that
    [generateText] returns and that is longer than 100 code units
    without ending in a full stop, an exclamation mark or a question
    mark had nowhere to be cut: none of its last ten words ends in one
    of them. *)
Theorem generateText_sentence_end (Math_random : nat -> Q) (chain : MarkovChain)
        (maxLength order : Q) (originalText : list string) (maxAttempts : Q)
        (w : world) (result : string) (w' : world) :
  generateText Math_random chain maxLength order originalText maxAttempts w
  = (Normal result, w') ->
  100 < String.length result ->
  endsWithSentenceEnd result = false ->
  noStopInLastTen result = true.
Proof.
  intros H Hlen Hend.
  assert (Ht : tidied result).
  { revert H. unfold generateText. destruct (length (Object_keys chain) =? 0).
    - intros [= <- _]. right. left. cbn. lia.
    - apply (attempt_result Math_random tidied).
      + intros w0 r w1. unfold candidate.
        destruct (if 0 <? _ then _ else _) as [[startKey | ] w2]; [ | discriminate].
        destruct (walk _ _ _ _ _ _ _ _) as [r0 w3]. intros [= <- _]. apply tidy_tidied.
      + right. left. cbn. lia. }
  destruct Ht as [Ht | [Ht | Ht]]; [congruence | lia | assumption].
Qed.

Lemma generateText_sentence_end_witness :
  noStopInLastTen
    ("A cccccccccccccccccccccccccccccccccccccccccccccccccc"
     ++ " dddddddddddddddddddddddddddddddddddddddddddddddddd") = true.
Proof.
  apply (generateText_sentence_end (fun _ => 0%Q) longWords 280 1 [] 1 (World 0 [] 0)
           ("A cccccccccccccccccccccccccccccccccccccccccccccccccc"
            ++ " dddddddddddddddddddddddddddddddddddddddddddddddddd")
           (World 3 [] 0)).
  - vm_compute. reflexivity.
  - vm_compute. lia.
  - vm_compute. reflexivity.
Defined.

End GenerateProperties.

(** ** generatePost *)

Module PostProperties.
Import JsString JsNumber JsObject Markov Spec Posts Download Cli Terms.
Import NumberFacts StringFacts ObjectFacts BuildFacts ChainFacts GenerateFacts.
Import TextFacts MarkovFacts PostFacts.

(** A corpus in which no cleaned line of at least 10 characters has two
    tokens gives no post: for an order that is left out or an integer of
    at least 1, [generatePost] is fulfilled with the sentence "Not enough
    data to generate text", in this markov.ts and in the earlier one. *)
Theorem generatePost_not_enough_data (Math_random : nat -> Q) (username : string)
        (markovOrder : option Q) (userPosts : string) (w : world) :
  (Z.of_nat (String.length userPosts) < 2 ^ 53)%Z ->
  markovOrder = None \/
  (exists order, (1 <= order)%Z /\ markovOrder = Some (inject_Z order)) ->
  usableLines 1 userPosts = [] ->
  fst (generatePost Math_random username markovOrder (Fulfilled userPosts) w)
  = Fulfilled "Not enough data to generate text" /\
  fst (Legacy.generatePost Math_random username markovOrder (Fulfilled userPosts) w)
  = Fulfilled "Not enough data to generate text".
Proof.
  intros Hlen Ho Hu.
  assert (Hb : forall order, (1 <= order)%Z ->
                 buildMarkovChain userPosts (inject_Z order) = Normal []).
  { intros order H. now apply buildMarkovChain_empty. }
  unfold generatePost, Legacy.generatePost, orderOrRandom.
  destruct Ho as [-> | [order [Ho ->]]].
  - split.
    + cbn [random]. rewrite (Hb _ (proj1 (getRandomMarkovOrder_range _))). reflexivity.
    + change 2%Q with (inject_Z 2). rewrite Hb by lia. reflexivity.
  - rewrite Qeq_bool_int by assumption. rewrite Hb by assumption. split; reflexivity.
Qed.

Lemma generatePost_not_enough_data_witness :
  fst (generatePost (fun _ => (1 # 2)%Q) "alice" None (Fulfilled "hello") (World 0 [] 0))
  = Fulfilled "Not enough data to generate text" /\
  fst (Legacy.generatePost (fun _ => (1 # 2)%Q) "alice" None (Fulfilled "hello")
                           (World 0 [] 0))
  = Fulfilled "Not enough data to generate text".
Proof.
  apply generatePost_not_enough_data.
  - vm_compute. reflexivity.
  - now left.
  - vm_compute. reflexivity.
Defined.

(** Whether [generatePost] is fulfilled, for an integer order of at
    least 1 and draws from the unit interval, is decided by the corpus:
    it is rejected, with the message of the [TypeError] of
    [buildMarkovChain] and no draw made, exactly when a window of a usable
    line is the name of a property of [Object.prototype], which cannot
    happen from order 2 on. *)
Theorem generatePost_settled (Math_random : nat -> Q) (username : string)
        (order : Z) (userPosts : string) (w : world) :
  (1 <= order)%Z ->
  (Z.of_nat (String.length userPosts) < 2 ^ 53)%Z ->
  (forall k, unitInterval (Math_random k)) ->
  let posted := generatePost Math_random username (Some (inject_Z order))
                             (Fulfilled userPosts) w in
  let plain := Forall (fun p => assoc (fst p) Object_prototype = None)
                      (occurrences (Z.to_nat order) userPosts) in
  ((2 <= order)%Z -> plain) /\
  (plain -> exists generatedPost w', posted = (Fulfilled generatedPost, w')) /\
  (~ plain ->
   posted = (Rejected (failure username "chain[key].push is not a function"), w)).
Proof.
  intros Ho Hlen Hr posted plain.
  assert (Hb : buildMarkovChain userPosts (inject_Z order)
               = forEach pushPair (occurrences (Z.to_nat order) userPosts) []).
  { rewrite <- buildMarkovChain_int by assumption. unfold ofNat.
    now rewrite Z2Nat.id by lia. }
  split; [intros Ho2; apply occurrences_plain; lia | ].
  unfold posted, generatePost, orderOrRandom. rewrite Qeq_bool_int by assumption.
  rewrite Hb. split.
  - intros Hp. destruct (pushes_complete _ [] Hp) as [chain Hc]. rewrite Hc.
    assert (Hs : (Z.of_nat (length chain) < 2 ^ 53)%Z).
    { apply (chain_size userPosts (Z.to_nat order) chain Hlen Hc). }
    destruct (generateText_normal Math_random chain 280 (inject_Z order)
                (sentences userPosts) 10 w Hr Hs) as [r [w' ->]].
    now exists r, w'.
  - intros Hn.
    destruct (forEach pushPair _ []) as [chain | message] eqn:Hc.
    + exfalso. apply Hn. now apply (pushes_throw _ [] chain).
    + now rewrite (pushes_message _ _ _ Hc).
Qed.

Lemma generatePost_settled_witness :
  generatePost (fun _ => (1 # 2)%Q) "alice" (Some (inject_Z 1))
               (Fulfilled "constructor is here") (World 0 [] 0)
  = (Rejected (failure "alice" "chain[key].push is not a function"), World 0 [] 0).
Proof.
  apply (generatePost_settled (fun _ => (1 # 2)%Q) "alice" 1 "constructor is here").
  - lia.
  - vm_compute. reflexivity.
  - intros k. split; vm_compute; discriminate.
  - intros H. inversion H as [ | ? ? Hk _]. vm_compute in Hk. discriminate.
Defined.

(** What [generatePost] fulfils its promise with is no copy of a line of
    the corpus, whatever the order and the draws: it is the sentence
    "Not enough data to generate text", or no non-blank line of the
    corpus, trimmed, is as long as it and differs from it at most in the
    case of its letters, or the last thing logged is the warning that
    ten attempts gave no unique text. *)
Theorem generatePost_no_copy (Math_random : nat -> Q) (username : string)
        (markovOrder : option Q) (userPosts : string) (w : world)
        (generatedPost : string) (w' : world) :
  generatePost Math_random username markovOrder (Fulfilled userPosts) w
  = (Fulfilled generatedPost, w') ->
  generatedPost = "Not enough data to generate text" \/
  (forall line,
      In line (sentences userPosts) ->
      equalIgnoringCase (trim line) generatedPost = false) \/
  last (console w') (LogRetry 0) = LogExhausted 10.
Proof.
  unfold generatePost.
  destruct (orderOrRandom Math_random markovOrder w) as [order w0].
  destruct (buildMarkovChain userPosts order) as [chain | m]; [ | discriminate].
  destruct (generateText _ _ _ _ _ _ w0) as [[r | m] w1] eqn:Hg; [ | discriminate].
  intros [= <- <-]. unfold generateText in Hg.
  destruct (length (Object_keys chain) =? 0); [left; congruence | right].
  now apply attempt_no_copy in Hg.
Qed.

Lemma generatePost_no_copy_witness :
  "I love rainy days." = "Not enough data to generate text" \/
  (forall line,
      In line (sentences twoLines) ->
      equalIgnoringCase (trim line) "I love rainy days." = false) \/
  last (console (World 4 [] 2)) (LogRetry 0) = LogExhausted 10.
Proof.
  apply (generatePost_no_copy thirdHalf "alice" (Some 1%Q) twoLines (World 0 [] 0)).
  vm_compute. reflexivity.
Defined.

(** Called without an order, as the posting script calls it, and with
    draws from the unit interval, [generatePost] of the earlier markov.ts
    builds the chain with order 2 and is always fulfilled; [generatePost]
    of this markov.ts draws the order first and is fulfilled whenever
    that draw is not below 0.10, that is, whenever the order is not 1. *)
Theorem generatePost_default (Math_random : nat -> Q) (username userPosts : string)
        (w : world) :
  (Z.of_nat (String.length userPosts) < 2 ^ 53)%Z ->
  (forall k, unitInterval (Math_random k)) ->
  (exists generatedPost w',
      Legacy.generatePost Math_random username None (Fulfilled userPosts) w
      = (Fulfilled generatedPost, w')) /\
  ((literal 0.10 <= Math_random (draws w))%Q ->
   exists generatedPost w',
     generatePost Math_random username None (Fulfilled userPosts) w
     = (Fulfilled generatedPost, w')).
Proof.
  intros Hlen Hr. split.
  - unfold Legacy.generatePost. change 2%Q with (inject_Z 2).
    destruct (build_and_generate Math_random userPosts 2 ltac:(lia) Hlen Hr)
      as [chain [-> [_ Hg]]].
    destruct (Hg 280%Q w) as [r [w' ->]]. now exists r, w'.
  - intros Hd. unfold generatePost, orderOrRandom, random.
    pose proof (getRandomMarkovOrder_two _ Hd) as Ho.
    destruct (build_and_generate Math_random userPosts _ Ho Hlen Hr)
      as [chain [-> [Hg _]]].
    destruct (Hg 280%Q (sentences userPosts) 10%Q
                 (World (S (draws w)) (console w) (comparisons w))) as [r [w' ->]].
    now exists r, w'.
Qed.

Lemma generatePost_default_witness :
  exists generatedPost w',
    Legacy.generatePost (fun _ => (1 # 2)%Q) "alice" None (Fulfilled corpus) (World 0 [] 0)
    = (Fulfilled generatedPost, w').
Proof.
  apply (generatePost_default (fun _ => (1 # 2)%Q) "alice" corpus (World 0 [] 0)).
  - vm_compute. reflexivity.
  - intros k. split; vm_compute; discriminate.
Defined.

End PostProperties.

(** ** Mentions *)

Module MentionFacts.
Import JsString JsNumber JsObject Markov Spec Posts Download Cli Terms.
Import NumberFacts StringFacts ObjectFacts BuildFacts ChainFacts GenerateFacts TextFacts.

Lemma hasMention_cons (c : ascii) (s : string) :
  hasMention (String c s) = (Ascii.eqb c "@"%char && negb (noHandleAhead s)) || hasMention s.
Proof. destruct s as [ | d s]; cbn [hasMention noHandleAhead]; [reflexivity | ]. now rewrite negb_involutive. Qed.

Lemma span_drop (p : ascii -> bool) (s : string) :
  match drop (span p s) s with
  | String d _ => p d = false
  | EmptyString => True
  end.
Proof.
  induction s as [ | c s IH]; cbn [span]; [exact I | ].
  destruct (p c) eqn:E; cbn [drop]; [exact IH | exact E].
Qed.

Lemma hasMention_drop (n : nat) (s : string) :
  hasMention s = false -> hasMention (drop n s) = false.
Proof.
  revert s. induction n as [ | n IH]; intros s H; [now destruct s | ].
  destruct s as [ | c s]; [reflexivity | ]. cbn [drop]. apply IH.
  rewrite hasMention_cons in H. now apply orb_false_elim in H as [_ H].
Qed.

(** *** Removing the mentions *)

Lemma mentions_removed (skip : nat) (s : string) :
  hasMention (replaceFrom matchMention "" skip s) = false /\
  (noHandleAhead (drop skip s) = true ->
   noHandleAhead (replaceFrom matchMention "" skip s) = true).
Proof.
  revert skip. induction s as [ | c s IH]; intros skip.
  - cbn [replaceFrom]. split; [reflexivity | ]. intros _. reflexivity.
  - cbn [replaceFrom]. destruct skip as [ | k]; [ | cbn [drop]; apply IH].
    cbn [matchMention drop].
    destruct (Ascii.eqb c "@"%char) eqn:Ec.
    + pose proof (span_drop isHandleChar s) as Hs.
      destruct (span isHandleChar s) as [ | k] eqn:E.
      * cbn [drop] in Hs. destruct (IH 0) as [IH1 IH2]. cbn [drop] in IH2.
        assert (Hn : noHandleAhead s = true).
        { destruct s as [ | d s']; [reflexivity | ]. cbn [noHandleAhead]. now rewrite Hs. }
        split.
        -- rewrite hasMention_cons, IH1, (IH2 Hn). cbn. now rewrite andb_false_r.
        -- intros H. exact H.
      * cbn [String.append]. destruct (IH (S k)) as [IH1 IH2]. split; [assumption | ].
        intros _. apply IH2.
        destruct (drop (S k) s) as [ | d s']; [reflexivity | ].
        cbn [noHandleAhead]. now rewrite Hs.
    + destruct (IH 0) as [IH1 IH2]. split.
      * rewrite hasMention_cons, IH1, Ec. reflexivity.
      * intros H. exact H.
Qed.

(** *** Normalising the whitespace *)

Lemma handle_ink (d : ascii) : isHandleChar d = true -> isWhitespace d = false.
Proof.
  intros H. destruct d as [[] [] [] [] [] [] [] []]; try discriminate H; reflexivity.
Qed.

Lemma matchWhitespace_cons (c : ascii) (s : string) :
  matchWhitespace (String c s) =
  if isWhitespace c then Some (S (span isWhitespace s)) else None.
Proof. unfold matchWhitespace. cbn [span]. now destruct (isWhitespace c). Qed.

Lemma whitespace_normalised (skip : nat) (s : string) :
  hasMention s = false ->
  hasMention (replaceFrom matchWhitespace " " skip s) = false /\
  (skip = 0 -> noHandleAhead s = true ->
   noHandleAhead (replaceFrom matchWhitespace " " skip s) = true).
Proof.
  revert skip. induction s as [ | c s IH]; intros skip H.
  - cbn [replaceFrom]. split; [reflexivity | ]. intros _ _. reflexivity.
  - rewrite hasMention_cons in H. apply orb_false_elim in H as [Hc H].
    cbn [replaceFrom]. destruct skip as [ | k].
    + rewrite matchWhitespace_cons. destruct (isWhitespace c) eqn:Ec.
      * cbn [String.append]. destruct (IH (span isWhitespace s) H) as [IH1 _].
        split; [ | intros _ _; reflexivity].
        rewrite hasMention_cons, IH1. reflexivity.
      * destruct (IH 0 H) as [IH1 IH2]. split; [ | intros _ Hn; exact Hn].
        rewrite hasMention_cons, IH1, orb_false_r.
        destruct (Ascii.eqb c "@"%char) eqn:Eat; [ | reflexivity].
        cbn [andb] in Hc. apply negb_false_iff in Hc.
        now rewrite (IH2 eq_refl Hc).
    + destruct (IH k H) as [IH1 _]. split; [assumption | discriminate].
Qed.

(** *** Trimming and splitting *)

Lemma hasMention_trimStart (s : string) :
  hasMention s = false -> hasMention (trimStart s) = false.
Proof.
  induction s as [ | c s IH]; cbn [trimStart]; [trivial | ].
  destruct (isWhitespace c); [ | trivial]. intros H. apply IH.
  rewrite hasMention_cons in H. now apply orb_false_elim in H as [_ H].
Qed.

Lemma noHandleAhead_trimEnd (s : string) :
  noHandleAhead s = true -> noHandleAhead (trimEnd s) = true.
Proof.
  destruct s as [ | c s]; [trivial | ]. cbn [trimEnd noHandleAhead]. intros H.
  destruct (trimEnd s); [destruct (isWhitespace c) | ]; cbn [noHandleAhead]; trivial.
Qed.

Lemma hasMention_trimEnd (s : string) :
  hasMention s = false -> hasMention (trimEnd s) = false.
Proof.
  induction s as [ | c s IH]; [trivial | ]. intros H.
  rewrite hasMention_cons in H. apply orb_false_elim in H as [Hc H].
  specialize (IH H). cbn [trimEnd].
  destruct (trimEnd s) as [ | d t] eqn:E.
  - destruct (isWhitespace c); [reflexivity | ]. cbn. now rewrite andb_false_r.
  - rewrite hasMention_cons, IH, orb_false_r.
    destruct (Ascii.eqb c "@"%char); [ | reflexivity]. cbn [andb] in *.
    apply negb_false_iff in Hc. rewrite <- E.
    now rewrite (noHandleAhead_trimEnd _ Hc).
Qed.

Lemma hasMention_split (sep : ascii) (s : string) :
  hasMention s = false -> Forall (fun w => hasMention w = false) (split sep s).
Proof.
  induction s as [ | c s IH]; cbn [split].
  - intros _. now constructor.
  - intros H. rewrite hasMention_cons in H. apply orb_false_elim in H as [Hc H].
    specialize (IH H). destruct (Ascii.eqb c sep) eqn:Es; [now constructor | ].
    destruct (split sep s) as [ | w ws] eqn:E.
    + constructor; [ | constructor]. cbn. now rewrite andb_false_r.
    + inversion IH as [ | ? ? Hw Hws]; subst. constructor; [ | assumption].
      rewrite hasMention_cons, Hw, orb_false_r.
      destruct (Ascii.eqb c "@"%char); [ | reflexivity]. cbn [andb] in *.
      apply negb_false_iff in Hc. apply negb_false_iff.
      destruct s as [ | d s']; [cbn in E; injection E as <- _; reflexivity | ].
      cbn [split] in E. cbn [noHandleAhead] in Hc.
      destruct (Ascii.eqb d sep); [injection E as <- _; reflexivity | ].
      destruct (split sep s'); injection E as <- _; cbn [noHandleAhead]; exact Hc.
Qed.

(** A cleaned sentence holds no mention. *)
Lemma cleanSentence_plain (sentence : string) :
  hasMention (cleanSentence sentence) = false.
Proof.
  unfold cleanSentence, replaceAll, trim.
  apply hasMention_trimEnd, hasMention_trimStart.
  apply whitespace_normalised. apply mentions_removed.
Qed.

(** A link can survive the cleaning, when removing a mention makes it. *)
Example cleanSentence_link :
  cleanSentence "see http@alice://example.com/x here" = "see http://example.com/x here".
Proof. vm_compute. reflexivity. Qed.

(** *** Joining *)

Lemma hasMention_append (a b : string) :
  hasMention a = false -> hasMention b = false -> noHandleAhead b = true ->
  hasMention (a ++ b) = false.
Proof.
  intros Ha Hb Hn. induction a as [ | c a IH]; [exact Hb | ].
  rewrite hasMention_cons in Ha. apply orb_false_elim in Ha as [Hc Ha].
  cbn [String.append]. rewrite hasMention_cons, (IH Ha), orb_false_r.
  destruct (Ascii.eqb c "@"%char); [ | reflexivity]. cbn [andb] in *.
  apply negb_false_iff in Hc. apply negb_false_iff.
  destruct a; [exact Hn | exact Hc].
Qed.

Lemma hasMention_join (ws : list string) :
  Forall (fun w => hasMention w = false) ws -> hasMention (join " " ws) = false.
Proof.
  induction ws as [ | w ws IH]; [reflexivity | ]. intros H.
  inversion H as [ | ? ? Hw Hws]; subst. destruct ws as [ | v vs]; [exact Hw | ].
  rewrite join_cons by congruence. apply hasMention_append; [assumption | | reflexivity].
  cbn [String.append]. rewrite hasMention_cons. now rewrite (IH Hws).
Qed.

(** *** The chain and the text *)

Lemma tokens_plain (sentence : string) :
  Forall (fun w => hasMention w = false) (tokens (cleanSentence sentence)).
Proof.
  unfold tokens. apply Forall_forall. intros w Hw. apply filter_In in Hw as [Hw _].
  pose proof (hasMention_split SPACE _ (cleanSentence_plain sentence)) as H.
  rewrite Forall_forall in H. now apply H.
Qed.

(** Whatever the order, no push carries a mention. *)
Lemma transitions_plain (order : Q) (sentence : string) :
  Forall (fun p => hasMention (fst p) = false /\ hasMention (toString (snd p)) = false)
         (transitions order sentence).
Proof.
  unfold transitions. destruct (_ <? 10); [constructor | ].
  destruct (le _ order); [constructor | ].
  pose proof (tokens_plain sentence) as Hw.
  apply Forall_forall. intros p Hp. apply in_map_iff in Hp as [i [<- _]].
  cbn [fst snd]. split.
  - apply hasMention_join. unfold slice. now apply Forall_window.
  - unfold at_. destruct (_ && _); [ | reflexivity].
    destruct (nth_error _ _) as [word | ] eqn:E; [ | reflexivity].
    apply nth_error_In in E. rewrite Forall_forall in Hw. now apply Hw.
Qed.

Lemma buildMarkovChain_plain (text : string) (order : Q) (chain : MarkovChain) :
  buildMarkovChain text order = Normal chain -> plain chain.
Proof.
  intros H. rewrite buildMarkovChain_transitions in H.
  apply (pushes_entries (fun key => hasMention key = false)
                        (fun nextWord => hasMention (toString nextWord) = false)
                        (flat_map (transitions order) (sentences text)) [] chain);
    [ | constructor | assumption].
  apply Forall_flat_map, Forall_forall. intros sentence _. apply transitions_plain.
Qed.

Lemma hasMention_trim (s : string) : hasMention s = false -> hasMention (trim s) = false.
Proof. intros H. unfold trim. now apply hasMention_trimEnd, hasMention_trimStart. Qed.

Lemma tidy_plain (result : string) :
  hasMention result = false -> hasMention (tidy result) = false.
Proof.
  intros H. apply hasMention_trim in H. unfold tidy.
  destruct (_ && _); [ | assumption].
  destruct (stopAt_found (split SPACE (trim result))
                         (lastTen (length (split SPACE (trim result)))) (trim result))
    as [-> | [i [word [_ [_ ->]]]]]; [assumption | ].
  apply hasMention_join. apply Forall_forall. intros w Hw. apply In_firstn in Hw.
  pose proof (hasMention_split SPACE _ H) as Hs. rewrite Forall_forall in Hs.
  now apply Hs.
Qed.

Section Generation.

Variable Math_random : nat -> Q.
Variable chain : MarkovChain.
Hypothesis Hplain : plain chain.

Lemma appended_plain (nextWord : element) :
  appended chain nextWord -> hasMention (toString nextWord) = false.
Proof.
  intros [-> | [key [successors [Ha Hin]]]]; [reflexivity | ].
  apply In_assoc in Ha. unfold plain in Hplain. rewrite Forall_forall in Hplain.
  destruct (Hplain _ Ha) as [_ [_ Hs]]. cbn [snd] in Hs.
  rewrite Forall_forall in Hs. now apply Hs.
Qed.

Lemma walk_plain (fuel : nat) (maxLength order : Q) (result currentKey : string)
      (w : world) (r : string) (w' : world) :
  hasMention result = false ->
  walk Math_random fuel chain maxLength order result currentKey w = (r, w') ->
  hasMention r = false.
Proof.
  revert result currentKey w.
  induction fuel as [ | fuel IH]; intros result currentKey w Hr; cbn [walk].
  - now intros [= <- _].
  - destruct (lt _ maxLength); [ | now intros [= <- _]].
    destruct (drawNextWord Math_random chain currentKey w) as [ | nextWord w1] eqn:Hd;
      [now intros [= <- _] | ].
    apply drawNextWord_appended, appended_plain in Hd.
    assert (Hn : hasMention (result ++ " " ++ toString nextWord) = false).
    { apply hasMention_append; [assumption | | reflexivity].
      cbn [String.append]. rewrite hasMention_cons, Hd. reflexivity. }
    destruct (le order _); [ | now intros [= <- _]].
    destruct (_ && _); [now intros [= <- _] | ].
    now apply IH.
Qed.

Lemma candidate_plain (maxLength order : Q) (w : world) (r : string) (w' : world) :
  candidate Math_random chain (Object_keys chain) maxLength order w = (Normal r, w') ->
  hasMention r = false.
Proof.
  unfold candidate.
  destruct (if 0 <? length (filter startsWithCapital (Object_keys chain))
            then pick Math_random (filter startsWithCapital (Object_keys chain)) w
            else pick Math_random (Object_keys chain) w) as [[startKey | ] w1] eqn:Ep;
    [ | discriminate].
  assert (Hin : In startKey (map fst chain)).
  { apply Object_keys_In. destruct (0 <? _); apply pick_In in Ep; [ | assumption].
    now apply filter_In in Ep as [Ep _]. }
  destruct (walk _ _ _ _ _ _ _ _) as [r0 w2] eqn:Hw. intros [= <- _].
  apply tidy_plain. apply walk_plain in Hw; [assumption | ].
  apply in_map_iff in Hin as [e [<- He]]. unfold plain in Hplain.
  rewrite Forall_forall in Hplain. now destruct (Hplain _ He).
Qed.

Lemma generateText_plain (maxLength order : Q) (originalText : list string)
      (maxAttempts : Q) (w : world) (r : string) (w' : world) :
  generateText Math_random chain maxLength order originalText maxAttempts w
  = (Normal r, w') ->
  hasMention r = false.
Proof.
  unfold generateText. destruct (length (Object_keys chain) =? 0).
  - now intros [= <- _].
  - apply (attempt_result Math_random (fun r => hasMention r = false)); [ | reflexivity].
    intros w0 r0 w1. apply candidate_plain.
Qed.

End Generation.

End MentionFacts.

Module MentionProperties.
Import JsString JsNumber JsObject Markov Spec Posts Download Cli Terms.
Import NumberFacts StringFacts ObjectFacts BuildFacts ChainFacts GenerateFacts TextFacts.
Import MentionFacts.

(** Whatever the order, integer or not, no mention gets into the chain
    that [buildMarkovChain] returns: no key holds an at sign followed by
    a code unit of a handle, and no successor does. *)
Theorem chain_no_mention (text : string) (order : Q) (chain : MarkovChain) :
  buildMarkovChain text order = Normal chain ->
  forall key successors,
    In (key, successors) chain ->
    hasMention key = false /\
    Forall (fun nextWord => hasMention (toString nextWord) = false) successors.
Proof.
  intros H key successors Hin. apply buildMarkovChain_plain in H.
  unfold plain in H. rewrite Forall_forall in H.
  destruct (H _ Hin) as [Hk [_ Hs]]. split; assumption.
Qed.

Lemma chain_no_mention_witness :
  hasMention "hello from" = false /\
  Forall (fun nextWord => hasMention (toString nextWord) = false) [Some "@"].
Proof.
  apply (chain_no_mention "hello @alice.example from @ @bob" 2
           [("hello from", [Some "@"])]).
  - vm_compute. reflexivity.
  - now left.
Defined.

(** The posts mention nobody: whatever the order, the draws and the
    corpus, the text that [generatePost] is fulfilled with, in this
    markov.ts and in the earlier one, holds no at sign followed by a code
    unit of a handle. *)
Theorem generatePost_no_mention (Math_random : nat -> Q) (username : string)
        (markovOrder : option Q) (userPosts : string) (w : world)
        (generatedPost : string) (w' : world) :
  generatePost Math_random username markovOrder (Fulfilled userPosts) w
  = (Fulfilled generatedPost, w') \/
  Legacy.generatePost Math_random username markovOrder (Fulfilled userPosts) w
  = (Fulfilled generatedPost, w') ->
  hasMention generatedPost = false.
Proof.
  intros [H | H].
  - unfold generatePost in H.
    destruct (orderOrRandom Math_random markovOrder w) as [order w0].
    destruct (buildMarkovChain userPosts order) as [chain | m] eqn:Hb; [ | discriminate].
    apply buildMarkovChain_plain in Hb.
    destruct (generateText _ _ _ _ _ _ w0) as [[r | m] w1] eqn:Hg; [ | discriminate].
    injection H as <- _. now apply generateText_plain in Hg.
  - unfold Legacy.generatePost in H.
    destruct (buildMarkovChain userPosts _) as [chain | m] eqn:Hb; [ | discriminate].
    apply buildMarkovChain_plain in Hb.
    destruct (Legacy.generateText _ _ _ _ w) as [[r | m] w1] eqn:Hg; [ | discriminate].
    injection H as <- _. unfold Legacy.generateText in Hg.
    destruct (length (Object_keys chain) =? 0).
    + now injection Hg as <- _.
    + now apply candidate_plain in Hg.
Qed.

Lemma generatePost_no_mention_witness :
  hasMention "Hello from @ here is more" = false.
Proof.
  apply (generatePost_no_mention (fun _ => 0%Q) "alice" (Some 2%Q)
           "Hello @alice.example from @ @bob here is more" (World 0 [] 0)
           "Hello from @ here is more" (World 5 [] 1)).
  left. vm_compute. reflexivity.
Defined.

End MentionProperties.

(** ** scrollPosts and getUserPosts *)

Module DownloadFacts.
Import JsString JsNumber JsObject Markov Spec Posts Download Cli Terms.
Import NumberFacts StringFacts ObjectFacts BuildFacts ChainFacts TextFacts.

(** *** One post *)

Lemma newlines_replaced (skip : nat) (s : string) :
  hasChar LF (replaceFrom matchNewline " " skip s) = false.
Proof.
  revert skip. induction s as [ | c s IH]; intros skip; cbn [replaceFrom];
    [reflexivity | ].
  destruct skip as [ | k]; [ | apply IH]. cbn [matchNewline].
  destruct (Ascii.eqb c LF) eqn:E.
  - cbn [String.append hasChar]. now rewrite IH.
  - cbn [hasChar]. now rewrite E, IH.
Qed.

Lemma newlines_head (c : ascii) (s : string) :
  isWhitespace c = false ->
  replaceAll matchNewline " " (String c s) = String c (replaceAll matchNewline " " s).
Proof.
  intros H. unfold replaceAll. cbn [replaceFrom matchNewline].
  destruct (Ascii.eqb c LF) eqn:E; [ | reflexivity].
  apply Ascii.eqb_eq in E. subst c. discriminate.
Qed.

Lemma singleLineText_oneLine (user : string) (post : feedItem) (t : string) :
  singleLineText user post = Some t -> oneLine t.
Proof.
  unfold singleLineText. destruct (text post) as [text | ]; [ | discriminate].
  destruct (_ && _) eqn:E; [ | discriminate]. intros [= <-].
  apply andb_prop in E as [_ E]. apply Nat.ltb_lt in E.
  split; [apply newlines_replaced | ].
  destruct (trim_cases text) as [H | [c [r [H Hc]]]].
  - rewrite H in E. cbn in E. lia.
  - rewrite H, newlines_head by assumption. now apply trim_head.
Qed.

Lemma keep_oneLine (user : string) (feed : list feedItem) :
  Forall oneLine (keep user feed).
Proof.
  unfold keep. apply Forall_flat_map, Forall_forall. intros post _.
  destruct (singleLineText user post) as [t | ] eqn:E; [ | constructor].
  constructor; [ | constructor]. now apply singleLineText_oneLine in E.
Qed.

Lemma keep_app (user : string) (a b : list feedItem) :
  keep user (a ++ b) = keep user a ++ keep user b.
Proof. unfold keep. apply flat_map_app. Qed.

(** *** The corpus *)

(** Texts of one line each, joined by line feeds, are the usable lines
    of the corpus they make. *)
Lemma sentences_join (texts : list string) :
  Forall oneLine texts -> sentences (join (String LF EmptyString) texts) = texts.
Proof.
  intros H. unfold sentences. destruct texts as [ | t texts]; [reflexivity | ].
  rewrite split_join; [ | congruence | ].
  - apply forallb_filter_id. apply forallb_forall. intros x Hx.
    rewrite Forall_forall in H. destruct (H x Hx) as [_ Hn].
    apply Nat.ltb_lt. destruct (trim x); [congruence | cbn; lia].
  - eapply Forall_impl; [ | exact H]. now intros x [Hx _].
Qed.

(** *** The requests *)

Section Server.

Variable getAuthorFeed : nat -> response.
Variable join_path : string -> string -> string.
Variable writable : string -> bool.

Lemma explain_session (e : error) (s : session) :
  requests (explain e s) = requests s /\ files (explain e s) = files s.
Proof.
  unfold explain. destruct (status e) as [[ | p | p] | ]; try (split; reflexivity).
  do 10 (destruct p as [p | p | ]; try (split; reflexivity)).
Qed.

Lemma received_S (from n : nat) :
  received getAuthorFeed from (S n) =
  feedOf (getAuthorFeed from) ++ received getAuthorFeed (S from) n.
Proof. reflexivity. Qed.

(** What the loop returns, how many requests it made for it, with which
    cursors, and that it leaves the disk alone. *)
Lemma scroll_returned (fuel : nat) (user : string) (limit : Q)
      (allPostTexts : list string) (currentCursor : option string)
      (totalPosts : nat) (s : session) (posts : string) (s' : session) :
  scroll getAuthorFeed fuel user limit allPostTexts currentCursor totalPosts s
  = Some (Returned posts, s') ->
  exists n,
    requests s' =
    requests s ++ currentCursor
      :: map (fun k => cursorOf (getAuthorFeed k)) (seq (length (requests s)) n) /\
    posts = join (String LF EmptyString)
                 (allPostTexts
                  ++ keep user (received getAuthorFeed (length (requests s)) (S n))) /\
    files s' = files s /\
    (forall k, length (requests s) <= k < length (requests s) + n ->
               feedOf (getAuthorFeed k) <> [] /\
               noCursor (cursorOf (getAuthorFeed k)) = false) /\
    (feedOf (getAuthorFeed (length (requests s) + n)) = [] \/
     noCursor (cursorOf (getAuthorFeed (length (requests s) + n))) = true).
Proof.
  revert allPostTexts currentCursor totalPosts s.
  induction fuel as [ | fuel IH]; intros allPostTexts currentCursor totalPosts s;
    cbn [scroll]; [discriminate | ].
  unfold request. cbn [print requests printed files].
  destruct (getAuthorFeed (length (requests s))) as [feed cursor | e] eqn:E;
    [ | discriminate].
  assert (Hone : received getAuthorFeed (length (requests s)) 1 = feed).
  { unfold received. cbn [seq flat_map]. rewrite E. cbn [feedOf]. apply app_nil_r. }
  destruct (length feed =? 0) eqn:E0.
  - intros [= <- <-]. exists 0. cbn [seq map print requests files].
    apply Nat.eqb_eq, length_zero_iff_nil in E0. rewrite Hone, E0. cbn [keep flat_map].
    rewrite app_nil_r, Nat.add_0_r, E, E0. cbn [feedOf].
    repeat split; try reflexivity; [lia | lia | now left].
  - destruct (noCursor cursor) eqn:Ec.
    + intros [= <- <-]. exists 0. cbn [seq map print requests files].
      rewrite Hone, Nat.add_0_r, E. cbn [cursorOf].
      repeat split; try reflexivity; [lia | lia | now right].
    + intros H. apply IH in H as [n [Hr [Hp [Hf [Hmid Hlast]]]]].
      cbn [print requests printed files] in Hr, Hp, Hf, Hmid, Hlast.
      rewrite length_app in Hr, Hp, Hmid, Hlast. cbn [length] in Hr, Hp, Hmid, Hlast.
      rewrite Nat.add_1_r in Hr, Hp, Hmid, Hlast.
      exists (S n). split; [ | split; [ | split; [assumption | split]]].
      * rewrite Hr, <- app_assoc. cbn [app seq map]. now rewrite E.
      * rewrite Hp, (received_S (length (requests s)) (S n)), E. cbn [feedOf].
        now rewrite keep_app, app_assoc.
      * intros k Hk. destruct (Nat.eq_dec k (length (requests s))) as [-> | Hne].
        -- rewrite E. cbn [feedOf cursorOf]. split; [ | assumption].
           intros E'. rewrite E' in E0. discriminate.
        -- apply Hmid. lia.
      * now rewrite Nat.add_succ_r.
Qed.

(** What the loop throws is the answer to its last request, and the
    disk is left alone. *)
Lemma scroll_thrown (fuel : nat) (user : string) (limit : Q)
      (allPostTexts : list string) (currentCursor : option string)
      (totalPosts : nat) (s : session) (e : error) (s' : session) :
  scroll getAuthorFeed fuel user limit allPostTexts currentCursor totalPosts s
  = Some (Thrown e, s') ->
  length (requests s) < length (requests s') /\
  getAuthorFeed (length (requests s') - 1) = Failure e /\
  files s' = files s.
Proof.
  revert allPostTexts currentCursor totalPosts s.
  induction fuel as [ | fuel IH]; intros allPostTexts currentCursor totalPosts s;
    cbn [scroll]; [discriminate | ].
  unfold request. cbn [print requests printed files].
  destruct (getAuthorFeed (length (requests s))) as [feed cursor | e0] eqn:E.
  - destruct (length feed =? 0); [discriminate | ].
    destruct (noCursor cursor); [discriminate | ].
    intros H. apply IH in H as [Hk [He Hf]].
    cbn [print requests printed files] in Hk, Hf. rewrite length_app in Hk.
    split; [lia | split; assumption].
  - intros [= <- <-]. destruct (explain_session e0
        (print (ErrorFetching e0)
           (Session (requests s ++ [currentCursor])
                    (printed s ++ [Fetching (batch totalPosts limit) user])
                    (files s)))) as [Hr Hf].
    rewrite Hr, Hf. cbn [print requests files]. rewrite length_app. cbn [length].
    replace (length (requests s) + 1 - 1) with (length (requests s)) by lia.
    split; [lia | split; [assumption | reflexivity]].
Qed.

(** The loop asks the server at least once. *)
Lemma scroll_requests (fuel : nat) (user : string) (limit : Q)
      (allPostTexts : list string) (currentCursor : option string)
      (totalPosts : nat) (s : session) (r : settled string) (s' : session) :
  scroll getAuthorFeed fuel user limit allPostTexts currentCursor totalPosts s
  = Some (r, s') ->
  length (requests s) < length (requests s').
Proof.
  revert allPostTexts currentCursor totalPosts s.
  induction fuel as [ | fuel IH]; intros allPostTexts currentCursor totalPosts s;
    cbn [scroll]; [discriminate | ].
  unfold request. cbn [print requests printed files].
  destruct (getAuthorFeed (length (requests s))) as [feed cursor | e].
  - destruct (length feed =? 0);
      [intros [= _ <-]; cbn [print requests]; rewrite length_app; cbn [length]; lia | ].
    destruct (noCursor cursor);
      [intros [= _ <-]; cbn [print requests]; rewrite length_app; cbn [length]; lia | ].
    intros H. apply IH in H. cbn [print requests] in H. rewrite length_app in H. lia.
  - intros [= _ <-]. rewrite (proj1 (explain_session _ _)). cbn [print requests].
    rewrite length_app. cbn [length]. lia.
Qed.

Lemma asyncWriteFile_read (filename data : string) (s : session) :
  writable filename = true ->
  asyncReadFile filename (asyncWriteFile writable filename data s) = Some data.
Proof.
  intros H. unfold asyncWriteFile, asyncReadFile. rewrite H.
  cbn [print files]. apply assoc_set_same.
Qed.

End Server.

End DownloadFacts.

Module DownloadProperties.
Import JsString JsNumber JsObject Markov Spec Posts Download Cli Terms.
Import NumberFacts StringFacts ObjectFacts BuildFacts ChainFacts TextFacts DownloadFacts.

(** Whenever [scrollPosts] returns, the corpus it returns holds one line
    per post kept and nothing else: it is the texts kept from the pages
    received, joined by line feeds, each of them free of line feeds and
    not blank, so that the lines that [buildMarkovChain] and
    [analyzeText] find in it are these texts, in the order received, and
    [totalPosts] is their number. *)
Theorem scrollPosts_corpus (getAuthorFeed : nat -> response) (fuel : nat)
        (user : string) (limit : Q) (cursor : option string) (s : session)
        (posts : string) (s' : session) :
  scrollPosts getAuthorFeed fuel user limit cursor s = Some (Returned posts, s') ->
  let pages := length (requests s') - length (requests s) in
  let texts := keep user (received getAuthorFeed (length (requests s)) pages) in
  posts = join (String LF EmptyString) texts /\
  Forall oneLine texts /\
  sentences posts = texts /\
  totalPosts (analyzeText posts) = length texts.
Proof.
  intros H pages texts. unfold scrollPosts in H.
  apply scroll_returned in H as [n [Hr [Hp _]]]. cbn [app] in Hp.
  assert (E : pages = S n).
  { unfold pages. rewrite Hr, length_app. cbn [length]. rewrite length_map, length_seq. lia. }
  unfold texts. rewrite E, <- Hp.
  assert (Hl : Forall oneLine (keep user (received getAuthorFeed (length (requests s)) (S n))))
    by apply keep_oneLine.
  assert (Hs : sentences posts
               = keep user (received getAuthorFeed (length (requests s)) (S n))).
  { rewrite Hp at 1. now apply sentences_join. }
  repeat split; try assumption.
  unfold analyzeText. cbn [totalPosts]. now rewrite Hs.
Qed.

Lemma scrollPosts_corpus_witness :
  sentences ("sunny days" ++ String LF "rain") = keep "alice" (received twoPages 0 2).
Proof.
  apply (scrollPosts_corpus twoPages 5 "alice" 100 None (Session [] [] [])
           ("sunny days" ++ String LF "rain") (downloaded [])).
  vm_compute. reflexivity.
Defined.

(** Whenever [scrollPosts] returns, the requests it sent follow the
    pages: the first carries the cursor given, each later one the cursor
    of the page received just before; every page but the last had items
    and a cursor, and the last one had no item or no cursor. *)
Theorem scrollPosts_cursors (getAuthorFeed : nat -> response) (fuel : nat)
        (user : string) (limit : Q) (cursor : option string) (s : session)
        (posts : string) (s' : session) :
  scrollPosts getAuthorFeed fuel user limit cursor s = Some (Returned posts, s') ->
  exists n,
    requests s' =
    requests s ++ cursor
      :: map (fun k => cursorOf (getAuthorFeed k)) (seq (length (requests s)) n) /\
    (forall k, length (requests s) <= k < length (requests s) + n ->
               feedOf (getAuthorFeed k) <> [] /\
               noCursor (cursorOf (getAuthorFeed k)) = false) /\
    (feedOf (getAuthorFeed (length (requests s) + n)) = [] \/
     noCursor (cursorOf (getAuthorFeed (length (requests s) + n))) = true).
Proof.
  intros H. unfold scrollPosts in H.
  apply scroll_returned in H as [n [Hr [_ [_ [Hmid Hlast]]]]].
  exists n. repeat split; try assumption; now apply Hmid.
Qed.

Lemma scrollPosts_cursors_witness :
  exists n,
    [None; Some "page2"] =
    [] ++ None :: map (fun k => cursorOf (twoPages k)) (seq 0 n) /\
    (forall k, 0 <= k < 0 + n ->
               feedOf (twoPages k) <> [] /\ noCursor (cursorOf (twoPages k)) = false) /\
    (feedOf (twoPages (0 + n)) = [] \/ noCursor (cursorOf (twoPages (0 + n))) = true).
Proof.
  apply (scrollPosts_cursors twoPages 5 "alice" 100 None (Session [] [] [])
           ("sunny days" ++ String LF "rain") (downloaded [])).
  vm_compute. reflexivity.
Defined.

(** A second call of [getUserPosts] for the same user, after one that
    returned and could write its file: when the posts returned were not
    empty, it returns them again from the disk, whatever the server would
    answer now and without asking it; when they were empty, it asks the
    server again. *)
Theorem getUserPosts_again (getAuthorFeed getAuthorFeed' : nat -> response)
        (join_path : string -> string -> string) (writable writable' : string -> bool)
        (fuel fuel' : nat) (username : string) (limit limit' : Q)
        (s : session) (posts : string) (s' : session) :
  getUserPosts getAuthorFeed join_path writable fuel username limit s
  = Some (Returned posts, s') ->
  writable (join_path "./posts" (username ++ ".txt")%string) = true ->
  (posts <> EmptyString ->
   getUserPosts getAuthorFeed' join_path writable' fuel' username limit' s'
   = Some (Returned posts, print (UsingCached username (String.length posts)) s')) /\
  (posts = EmptyString ->
   forall r s'',
     getUserPosts getAuthorFeed' join_path writable' fuel' username limit' s'
     = Some (r, s'') ->
     length (requests s') < length (requests s'')).
Proof.
  intros H Hw.
  assert (Hread : asyncReadFile (join_path "./posts" (username ++ ".txt")%string) s'
                  = Some posts).
  { unfold getUserPosts in H. cbv zeta in H.
    assert (Hd : match scrollPosts getAuthorFeed fuel username limit None
                         (print (NoCached username) s) with
                 | Some (Returned posts, s) =>
                     Some (Returned posts,
                           asyncWriteFile writable
                             (join_path "./posts" (username ++ ".txt")%string) posts s)
                 | other => other
                 end = Some (Returned posts, s') ->
                 asyncReadFile (join_path "./posts" (username ++ ".txt")%string) s'
                 = Some posts).
    { destruct (scrollPosts _ _ _ _ _ _) as [[[p | e] s1] | ]; try discriminate.
      intros [= <- <-]. now apply asyncWriteFile_read. }
    destruct (asyncReadFile _ s) as [existingData | ] eqn:E; [ | exact (Hd H)].
    destruct (String.eqb existingData EmptyString); [exact (Hd H) | ].
    injection H as <- <-. exact E. }
  split.
  - intros Hne. unfold getUserPosts. cbv zeta. rewrite Hread.
    destruct (String.eqb posts EmptyString) eqn:E; [ | reflexivity].
    apply String.eqb_eq in E. contradiction.
  - intros -> r s''. unfold getUserPosts. cbv zeta. rewrite Hread. cbn [String.eqb].
    unfold scrollPosts.
    destruct (scroll _ _ _ _ _ _ _ _) as [[[p | e] s1] | ] eqn:Hs; [ | | discriminate];
      apply scroll_requests in Hs; cbn [print requests] in Hs; intros [= _ <-];
      [ | assumption].
    unfold asyncWriteFile. now destruct (writable' _).
Qed.

Lemma getUserPosts_again_witness :
  getUserPosts failingSecond (fun a b => a ++ "/" ++ b)%string (fun _ => false) 0
               "alice" 50 (cached "./posts/alice.txt")
  = Some (Returned ("sunny days" ++ String LF "rain")%string,
          print (UsingCached "alice" 15) (cached "./posts/alice.txt")).
Proof.
  apply (getUserPosts_again twoPages failingSecond
           (fun a b => a ++ "/" ++ b)%string (fun _ => true) (fun _ => false)
           3 0 "alice" 100 50 (Session [] [] [])
           ("sunny days" ++ String LF "rain")%string (cached "./posts/alice.txt")).
  - vm_compute. reflexivity.
  - reflexivity.
  - discriminate.
Defined.

(** A download that fails caches nothing: when [getUserPosts] throws,
    the error is the answer of the server to the last request, a request
    of this call, and the files of the disk are what they were, however
    many pages had been received before. *)
Theorem getUserPosts_failure (getAuthorFeed : nat -> response)
        (join_path : string -> string -> string) (writable : string -> bool)
        (fuel : nat) (username : string) (limit : Q)
        (s : session) (e : error) (s' : session) :
  getUserPosts getAuthorFeed join_path writable fuel username limit s
  = Some (Thrown e, s') ->
  length (requests s) < length (requests s') /\
  getAuthorFeed (length (requests s') - 1) = Failure e /\
  files s' = files s.
Proof.
  unfold getUserPosts. cbv zeta.
  assert (Hd : match scrollPosts getAuthorFeed fuel username limit None
                       (print (NoCached username) s) with
               | Some (Returned posts, s) =>
                   Some (Returned posts,
                         asyncWriteFile writable
                           (join_path "./posts" (username ++ ".txt")%string) posts s)
               | other => other
               end = Some (Thrown e, s') ->
               length (requests s) < length (requests s') /\
               getAuthorFeed (length (requests s') - 1) = Failure e /\
               files s' = files s).
  { unfold scrollPosts.
    destruct (scroll _ _ _ _ _ _ _ _) as [[[p | e0] s1] | ] eqn:Hs; try discriminate.
    intros [= <- <-]. apply scroll_thrown in Hs. exact Hs. }
  destruct (asyncReadFile _ s) as [existingData | ]; [ | exact Hd].
  destruct (String.eqb existingData EmptyString); [exact Hd | discriminate].
Qed.

Lemma getUserPosts_failure_witness :
  failingSecond (2 - 1) = Failure badGateway /\
  ([] : list (string * string)) = [].
Proof.
  apply (getUserPosts_failure failingSecond (fun a b => a ++ "/" ++ b)%string
           (fun _ => true) 5 "alice" 100 (Session [] [] []) badGateway
           (Session [None; Some "page2"]
                    [NoCached "alice"; Fetching (Finite 1) "alice"; Found 1;
                     Fetching (Finite 1) "alice"; ErrorFetching badGateway; ServerError]
                    [])).
  vm_compute. reflexivity.
Defined.

End DownloadProperties.

(** ** analyzeText: posts and words *)

Module AnalysisFacts.
Import JsString JsNumber JsObject Markov Spec Posts Download Cli Terms.
Import NumberFacts StringFacts TextFacts AnalysisClaims.

Lemma nonblank_space (c : ascii) (line : string) :
  isWhitespace c = true -> nonblank (String c line) = nonblank line.
Proof. intros H. unfold nonblank, trim. cbn [trimStart]. now rewrite H. Qed.

Lemma nonblank_ink (c : ascii) (line : string) :
  isWhitespace c = false -> nonblank (String c line) = true.
Proof.
  intros H. unfold nonblank. apply Nat.ltb_lt.
  pose proof (trim_head c line H). destruct (trim (String c line)); [congruence | cbn; lia].
Qed.

Lemma sentences_length_cons (c : ascii) (s : string) :
  length (sentences (String c s)) =
  if isWhitespace c then length (sentences s)
  else length (sentences s) + firstBlank s.
Proof.
  unfold sentences, firstBlank. fold nonblank. cbn [split].
  destruct (Ascii.eqb c LF) eqn:E.
  - apply Ascii.eqb_eq in E. subst c. reflexivity.
  - destruct (split_cons LF s) as [line [rest ->]]. cbn [filter].
    fold (nonblank (String c line)). fold (nonblank line).
    destruct (isWhitespace c) eqn:Ec.
    + rewrite nonblank_space by assumption. now destruct (nonblank line).
    + rewrite nonblank_ink by assumption. cbn [length].
      destruct (nonblank line); cbn [length]; lia.
Qed.

Lemma firstBlank_cons (c : ascii) (s : string) :
  firstBlank (String c s) =
  if Ascii.eqb c LF then 1
  else if isWhitespace c then firstBlank s else 0.
Proof.
  unfold firstBlank. cbn [split].
  destruct (Ascii.eqb c LF); [reflexivity | ].
  destruct (split_cons LF s) as [line [rest ->]].
  destruct (isWhitespace c) eqn:Ec.
  - now rewrite nonblank_space.
  - now rewrite nonblank_ink.
Qed.

Lemma splitGaps_length_cons (afterGap : bool) (c : ascii) (s : string) :
  length (splitGaps afterGap (String c s)) =
  if isWhitespace c
  then (if afterGap then length (splitGaps true s) else S (length (splitGaps true s)))
  else length (splitGaps false s).
Proof.
  cbn [splitGaps]. destruct (isWhitespace c).
  - now destruct afterGap.
  - now destruct (splitGaps_cons false s) as [w [ws ->]].
Qed.

(** Every post has a word of its own. *)
Lemma posts_words (s : string) :
  length (sentences s) <= length (splitGaps true s) /\
  length (sentences s) + firstBlank s <= length (splitGaps false s).
Proof.
  induction s as [ | c s [IH1 IH2]]; [cbn; lia | ].
  rewrite sentences_length_cons, firstBlank_cons, !splitGaps_length_cons.
  destruct (Ascii.eqb c LF) eqn:E.
  - apply Ascii.eqb_eq in E. subst c. cbn [isWhitespace]. 
    change (isWhitespace LF) with true. cbv iota. lia.
  - destruct (isWhitespace c).
    + assert (firstBlank s <= 1) by (unfold firstBlank; destruct (split LF s);
                                     [lia | destruct (nonblank _); lia]).
      lia.
    + lia.
Qed.

Lemma splitGaps_length (afterGap : bool) (s : string) :
  length (splitGaps afterGap s) <= S (String.length s).
Proof.
  revert afterGap. induction s as [ | c s IH]; intros afterGap; [cbn; lia | ].
  rewrite splitGaps_length_cons. cbn [String.length].
  pose proof (IH true). pose proof (IH false).
  destruct (isWhitespace c); [destruct afterGap | ]; lia.
Qed.

End AnalysisFacts.

Module AnalysisProperties.
Import JsString JsNumber JsObject Markov Spec Posts Download Cli Terms.
Import NumberFacts StringFacts AnalysisFacts.

(** [analyzeText] counts at least one word for every post, and for a
    corpus of fewer than [2^32] code units with at least one usable
    line, [avgWordsPerPost] is a finite number: an integer that is at
    least 1. *)
Theorem analyzeText_average (text : string) :
  (Z.of_nat (String.length text) < 2 ^ 32)%Z ->
  0 < totalPosts (analyzeText text) ->
  totalPosts (analyzeText text) <= totalWords (analyzeText text) /\
  exists average,
    (1 <= average)%Z /\
    avgWordsPerPost (analyzeText text) = Finite (inject_Z average).
Proof.
  intros Hlen Hp. unfold analyzeText in *. cbn [totalPosts totalWords avgWordsPerPost] in *.
  unfold splitWhitespace.
  pose proof (posts_words text) as [_ Hw].
  pose proof (splitGaps_length false text) as Hb.
  set (P := length (sentences text)) in *.
  set (W := length (splitGaps false text)) in *.
  split; [lia | ].
  assert (HP : (0 < ofNat P)%Q).
  { unfold ofNat. change 0%Q with (inject_Z 0). rewrite <- Zlt_Qlt. lia. }
  assert (HW : (ofNat P <= ofNat W)%Q) by (apply GenerateFacts.ofNat_le; lia).
  assert (HW2 : (ofNat W <= 4294967296)%Q).
  { unfold ofNat. change 4294967296%Q with (inject_Z (2 ^ 32)). rewrite <- Zle_Qle. lia. }
  assert (HP1 : (1 <= ofNat P)%Q).
  { unfold ofNat. change 1%Q with (inject_Z 1). rewrite <- Zle_Qle. lia. }
  unfold div.
  replace (Qeq_bool (ofNat P) 0) with false.
  2:{ symmetry. destruct (Qeq_bool (ofNat P) 0) eqn:E; [exfalso | reflexivity].
      apply Qeq_bool_eq in E. rewrite E in HP. now apply (Qlt_irrefl 0). }
  cbn [Math_round]. eexists. split; [ | reflexivity].
  assert (Hq1 : (1 <= ofNat W / ofNat P)%Q).
  { apply Qle_shift_div_l; [assumption | ]. now rewrite Qmult_1_l. }
  assert (Hq2 : (ofNat W / ofNat P <= 4294967296)%Q).
  { apply Qle_shift_div_r; [assumption | ].
    apply Qle_trans with (4294967296 * 1)%Q; [now rewrite Qmult_1_r | ].
    apply Qmult_le_l; [reflexivity | assumption]. }
  revert Hq1 Hq2. generalize (ofNat W / ofNat P)%Q. intros q Hq1 Hq2.
  assert (Ha : (Qabs q < 8589934592)%Q)
    by (clear - Hq1 Hq2; apply Qabs_Qlt_condition; split; lra).
  destruct (fl_near q Ha) as [Hf _].
  assert (H1 : (1 <= fl q + (1 # 2))%Q) by (clear - Hq1 Hf; lra).
  apply Qfloor_resp_le in H1. exact H1.
Qed.

Lemma analyzeText_average_witness :
  totalPosts (analyzeText corpus) <= totalWords (analyzeText corpus) /\
  exists average,
    (1 <= average)%Z /\
    avgWordsPerPost (analyzeText corpus) = Finite (inject_Z average).
Proof.
  apply analyzeText_average.
  - vm_compute. reflexivity.
  - vm_compute. lia.
Defined.

End AnalysisProperties.

(** ** main *)

Module CliProperties.
Import JsString JsNumber JsObject Markov Spec Posts Download Cli Terms.
Import AnalysisClaims.

Lemma between (v : value) (low high : Q) :
  less v low || greater v high = false ->
  v = NaN \/ exists q, v = Finite q /\ (low <= q)%Q /\ (q <= high)%Q.
Proof.
  intros H. apply orb_false_elim in H as [H1 H2].
  destruct v as [q | | | ]; try discriminate; [right | now left].
  exists q. cbn [less greater] in *. apply lt_false in H1, H2. auto.
Qed.

Lemma parseIntOr_number (parseInt : option string -> value) (x : option string)
      (fallback : Q) :
  ~ (fallback == 0)%Q -> parseIntOr parseInt x fallback <> NaN.
Proof.
  intros Hf. unfold parseIntOr. destruct (truthy (parseInt x)) eqn:E.
  - intros H. rewrite H in E. discriminate.
  - discriminate.
Qed.

(** What [main] lets through to [generatePostsForUser], whatever
    [parseInt] and [parseFloat] make of the arguments: a number of posts
    that is a finite number from 1 to 20, the default 5 taking the place
    of a count that is missing, not a number or 0; and an order that is
    left out, or a number from 1 to 3, or, in this markov.ts, [NaN],
    which no comparison rejects.  The earlier markov.ts puts 2 in the
    place of such an order. *)
Theorem main_generates (parseInt : option string -> value)
        (parseFloat : string -> value) (args : list string)
        (username : string) (numPosts : value) (markovOrder : option value) :
  main parseInt parseFloat args = Generate username numPosts markovOrder \/
  main_legacy parseInt args = Generate username numPosts markovOrder ->
  nth_error args 0 = Some username /\
  (exists n, numPosts = Finite n /\ (1 <= n)%Q /\ (n <= 20)%Q /\
             (truthy (parseInt (nth_error args 1)) = false -> n = 5%Q)) /\
  (markovOrder = None \/
   (markovOrder = Some NaN /\
    main parseInt parseFloat args = Generate username numPosts markovOrder) \/
   exists order, markovOrder = Some (Finite order) /\ (1 <= order)%Q /\ (order <= 3)%Q).
Proof.
  assert (Hn : forall numPosts,
             numPosts = parseIntOr parseInt (nth_error args 1) 5 ->
             less numPosts 1 || greater numPosts 20 = false ->
             exists n, numPosts = Finite n /\ (1 <= n)%Q /\ (n <= 20)%Q /\
                       (truthy (parseInt (nth_error args 1)) = false -> n = 5%Q)).
  { intros v Hv Hr. destruct (between _ _ _ Hr) as [E | [n [E [H1 H2]]]].
    - exfalso. rewrite Hv in E. revert E. now apply parseIntOr_number.
    - exists n. repeat split; try assumption. intros Ht. rewrite Hv in E.
      unfold parseIntOr in E. rewrite Ht in E. congruence. }
  intros [H | H].
  - pose proof H as Hmain.
    unfold main in H. destruct args as [ | u rest]; [discriminate | ].
    set (order := match nth_error (u :: rest) 2 with
                  | Some a => if String.eqb a EmptyString then None else Some (parseFloat a)
                  | None => None
                  end) in *.
    destruct (match order with
              | Some order => less order 1 || greater order 3
              | None => false
              end) eqn:Eo; [discriminate | ].
    destruct (less _ 1 || greater _ 20) eqn:En; [discriminate | ].
    injection H as <- <- <-. split; [reflexivity | ]. split; [now apply Hn | ].
    destruct order as [v | ] eqn:Ev; [ | now left]. right.
    destruct (between _ _ _ Eo) as [-> | [q [-> [H1 H2]]]].
    + left. split; [reflexivity | exact Hmain].
    + right. now exists q.
  - unfold main_legacy in H. destruct args as [ | u rest]; [discriminate | ].
    destruct (less _ 1 || greater _ 3) eqn:Eo; [discriminate | ].
    destruct (less _ 1 || greater _ 20) eqn:En; [discriminate | ].
    injection H as <- <- <-. split; [reflexivity | ]. split; [now apply Hn | ].
    right. right. destruct (between _ _ _ Eo) as [E | [q [E [H1 H2]]]].
    + exfalso. revert E. now apply parseIntOr_number.
    + exists q. split; [f_equal; exact E | auto].
Qed.

Lemma main_generates_witness :
  nth_error ["alice"; "3"; "abc"] 0 = Some "alice" /\
  (exists n, Finite 3 = Finite n /\ (1 <= n)%Q /\ (n <= 20)%Q /\
             (truthy (parseThree (nth_error ["alice"; "3"; "abc"] 1)) = false ->
              n = 5%Q)) /\
  (Some NaN = None \/
   (Some NaN = Some NaN /\
    main parseThree (fun _ => NaN) ["alice"; "3"; "abc"]
    = Generate "alice" (Finite 3) (Some NaN)) \/
   exists order, Some NaN = Some (Finite order) /\ (1 <= order)%Q /\ (order <= 3)%Q).
Proof.
  apply (main_generates parseThree (fun _ => NaN) ["alice"; "3"; "abc"]).
  left. reflexivity.
Defined.

End CliProperties.
